(** * CSR construction on the GPU: [sparse_graph.h]

    A shallow embedding of the kernels of [csc485b::a2::gpu] and of the
    host function [build_graph], followed by the properties proved about
    them.

    Conventions of the embedding.
    - [std::size_t], [uint32_t] and [int] values are integers of [Z]; every
      conversion and every addition writes its wrap-around out
      ([to_size_t], [to_uint32], [to_int]).  An [int] sum that leaves the
      range wraps, as it does on the device.
    - A device array is a [list]; an access outside the array is undefined
      behaviour in the source and is the outcome [OutOfBounds] here, with
      the array it happened in.  A loop that runs out of fuel is [Diverged].
    - A kernel launch runs one body per thread (or per block, for the
      kernels that synchronise inside a block) in the order chosen by a
      [scheduler]; launches follow one another as on one stream.  The
      theorems quantify over every scheduler that only permutes the work.
    - Between two barriers the threads of a block run in index order: in
      these kernels a thread writes cells of its own there, and what it
      reads was written before the barrier. *)

From stdpp Require Import base numbers option list list_numbers.
From Stdlib Require Import ZArith Lia.

Local Open Scope Z_scope.

(** ** Machine integers *)

Definition to_size_t (z : Z) : Z := z `mod` 2 ^ 64.
Definition to_uint32 (z : Z) : Z := z `mod` 2 ^ 32.
Definition to_int (z : Z) : Z := (z + 2 ^ 31) `mod` 2 ^ 32 - 2 ^ 31.

Definition is_int (z : Z) : Prop := - 2 ^ 31 ≤ z < 2 ^ 31.

(** [node_t] is [int]: [build_graph] passes a [node_t*] where
    [single_block_prefix_sum] takes an [int*]. *)
Abbreviation node_t := Z (only parsing).

(** Modelled from the spec: [edge_t] is declared in [data_types.h], which is
    not part of the sources; the kernels read its members [x] (the source
    vertex) and [y] (the destination vertex) as [node_t]. *)
Record edge_t : Type := Edge { edge_x : node_t; edge_y : node_t }.

Record SparseGraph : Type := mkSparseGraph {
  sg_n : Z;                          (* g->n *)
  sg_m : Z;                          (* g->m *)
  neighbours_start_at : list node_t; (* n + 1 offsets *)
  neighbours : list node_t           (* m edge destinations *)
}.

Definition set_neighbours_start_at (g : SparseGraph) (a : list node_t) : SparseGraph :=
  mkSparseGraph (sg_n g) (sg_m g) a (neighbours g).

Definition set_neighbours (g : SparseGraph) (a : list node_t) : SparseGraph :=
  mkSparseGraph (sg_n g) (sg_m g) (neighbours_start_at g) a.

(** ** Outcomes: a result, or the undefined behaviour the run ended in *)

Inductive buffer : Set :=
  | Edges | Offsets | Neighbours | BlockSums | Counters | Arr | Smem | Scratch.

Inductive outcome (A : Type) : Type :=
  | Done (a : A)
  | OutOfBounds (b : buffer)
  | Diverged.
Arguments Done {A} a.
Arguments OutOfBounds {A} b.
Arguments Diverged {A}.

Definition bind {A B : Type} (o : outcome A) (k : A → outcome B) : outcome B :=
  match o with
  | Done a => k a
  | OutOfBounds b => OutOfBounds b
  | Diverged => Diverged
  end.

#[global] Instance outcome_bind : MBind outcome := λ A B k o, bind o k.
#[global] Instance outcome_ret : MRet outcome := λ A a, Done a.

(** ** Arrays *)

Definition rd {A : Type} (b : buffer) (a : list A) (i : Z) : outcome A :=
  if 0 <=? i then
    match a !! Z.to_nat i with
    | Some v => Done v
    | None => OutOfBounds b
    end
  else OutOfBounds b.

Definition wr {A : Type} (b : buffer) (a : list A) (i : Z) (v : A) : outcome (list A) :=
  if (0 <=? i) && (i <? Z.of_nat (length a))
  then Done (<[Z.to_nat i := v]> a)
  else OutOfBounds b.

(** [atomicAdd(address, val)] on [int]: returns the old value. *)
Definition atomicAdd (b : buffer) (a : list node_t) (i : Z) (val : Z)
  : outcome (node_t * list node_t) :=
  old ← rd b a i;
  a' ← wr b a i (to_int (old + val));
  Done (old, a').

(** [cudaMalloc]: the contents of fresh device memory play no role below
    (every cell is written before it is read); they are zero here. *)
Definition cudaMalloc (count : Z) : list node_t := replicate (Z.to_nat count) 0.

(** ** Loops and launches *)

Fixpoint for_each {A St : Type} (l : list A) (body : A → St → outcome St) (s : St) : outcome St :=
  match l with
  | [] => Done s
  | a :: l => s' ← body a s; for_each l body s'
  end.

Fixpoint read_all {A B : Type} (l : list A) (f : A → outcome B) : outcome (list B) :=
  match l with
  | [] => Done []
  | a :: l => v ← f a; vs ← read_all l f; Done (v :: vs)
  end.

(** [for (data_idx = start; data_idx < n; data_idx += 1024)] *)
Fixpoint for_lanes {St : Type} (fuel : nat) (data_idx n : Z)
    (body : Z → St → outcome St) (s : St) : outcome St :=
  if data_idx <? n then
    match fuel with
    | O => Diverged
    | S fuel =>
        s' ← body data_idx s;
        for_lanes fuel (to_size_t (data_idx + 1024)) n body s'
    end
  else Done s.

(** [for (stride = 1; stride < bound; stride <<= 1)] *)
Fixpoint for_strides {St : Type} (fuel : nat) (stride bound : Z)
    (body : Z → St → outcome St) (s : St) : outcome St :=
  if stride <? bound then
    match fuel with
    | O => Diverged
    | S fuel =>
        s' ← body stride s;
        for_strides fuel (to_size_t (stride ≪ 1)) bound body s'
    end
  else Done s.

Definition threads_per_block : Z := 1024.

(** A thread is [(blockIdx.x, threadIdx.x)]. *)
Definition thread : Type := Z * Z.

(** [blockIdx.x * blockDim.x + threadIdx.x], computed on [unsigned int]. *)
Definition global_id (th : thread) : Z :=
  to_uint32 (th.1 * threads_per_block + th.2).

Definition block_threads : list Z := seqZ 0 threads_per_block.

Definition grid_threads (num_blocks : Z) : list thread :=
  b ← seqZ 0 num_blocks; (λ t, (b, t)) <$> block_threads.

(** The order in which the hardware runs the units of a launch. *)
Definition scheduler : Type := ∀ A : Type, list A → list A.

Definition fair (σ : scheduler) : Prop := ∀ (A : Type) (l : list A), σ A l ≡ₚ l.

Definition in_order : scheduler := λ _ l, l.
Definition backwards : scheduler := λ _ l, reverse l.

(** [kernel<<< num_blocks, 1024 >>>] for a kernel without barriers. *)
Definition launch {St : Type} (σ : scheduler) (num_blocks : Z)
    (kernel : thread → St → outcome St) (s : St) : outcome St :=
  for_each (σ _ (grid_threads num_blocks)) kernel s.

(** The same for a kernel whose threads meet at [__syncthreads()]: the unit
    of scheduling is the block. *)
Definition launch_blocks {St : Type} (σ : scheduler) (num_blocks : Z)
    (block : Z → St → outcome St) (s : St) : outcome St :=
  for_each (σ _ (seqZ 0 num_blocks)) block s.

(** ** [histogram] *)

Definition histogram (arr : list edge_t) (m : Z) (th : thread) (g : SparseGraph)
  : outcome SparseGraph :=
  let global_th_id := global_id th in
  if global_th_id <? sg_m g then
    e ← rd Edges arr global_th_id;
    let incident_vertex := edge_x e in
    if to_size_t incident_vertex <? sg_n g then
      r ← atomicAdd Offsets (neighbours_start_at g) (incident_vertex + 1) 1;
      Done (set_neighbours_start_at g r.2)
    else Done g
  else Done g.

(** ** [prefix_sum] *)

(** [smem[i] += val] where [val] is a [std::size_t] and [smem] holds [int]. *)
Definition add_size_t (a val : Z) : Z := to_int (to_size_t (to_size_t a + val)).

(** One round of the doubling scan of a block.  Every thread reads the cell
    [stride] behind it into [val], all meet at the barrier, and only then
    does every thread add [val] to its own cell: the reads see the cells as
    the round found them ([smem]), the writes go to the current cells. *)
Definition prefix_sum_round (stride : Z) (smem : list node_t) : outcome (list node_t) :=
  for_each block_threads (λ th_idx cur,
      if stride <=? th_idx then
        val ← rd Smem smem (th_idx - stride);
        old ← rd Smem cur th_idx;
        wr Smem cur th_idx (add_size_t old (to_size_t val))
      else Done cur) smem.

Definition prefix_sum (n : Z) (blockIdx : Z) (st : SparseGraph * list node_t)
  : outcome (SparseGraph * list node_t) :=
  let g := st.1 in
  let block_sums := st.2 in
  smem ← read_all block_threads (λ th_idx,
            rd Offsets (neighbours_start_at g) (global_id (blockIdx, th_idx) `mod` n));
  smem ← for_strides 10 1 1024 prefix_sum_round smem;
  offs ← for_each block_threads (λ th_idx offs,
            let global_th_idx := global_id (blockIdx, th_idx) in
            if global_th_idx <? n then
              v ← rd Smem smem th_idx;
              wr Offsets offs global_th_idx v
            else Done offs) (neighbours_start_at g);
  block_sums ← for_each block_threads (λ th_idx block_sums,
            let global_th_idx := global_id (blockIdx, th_idx) in
            if (global_th_idx <? n)
               && ((to_size_t (global_th_idx + 1) `mod` 1024 =? 0)
                   || (global_th_idx =? to_size_t (n - 1))) then
              v ← rd Smem smem th_idx;
              wr BlockSums block_sums blockIdx v
            else Done block_sums) block_sums;
  Done (set_neighbours_start_at g offs, block_sums).

(** ** [single_block_prefix_sum] *)

Definition shared_capacity : Z := 6144.

(** Fuel of the strided loops: a thread visits at most [n / 1024 + 1] lanes. *)
Definition lanes_fuel (n : Z) : nat := Z.to_nat (n / 1024 + 1).

(** One round of the scan over the lanes: the cells are staged into
    [scratch], then every thread walks its lanes, [max_number_items] of
    them whether in range or not, reading from [scratch] before the barrier
    and adding into [smem] after it. *)
Definition single_block_round (n max_number_items stride : Z)
    (sh : list node_t * list node_t) : outcome (list node_t * list node_t) :=
  (* copy into scratch *)
  scratch ← for_each block_threads (λ th_id scratch,
      for_lanes (lanes_fuel n) th_id n (λ data_idx scratch,
          v ← rd Smem sh.1 data_idx;
          wr Scratch scratch data_idx v) scratch) sh.2;
  smem ← for_each (seqZ 0 max_number_items) (λ iteration smem,
      for_each block_threads (λ th_id smem,
          let my_lane := to_size_t (th_id + 1024 * iteration) in
          if (my_lane <? n) && (stride <=? my_lane) then
            val ← rd Scratch scratch (my_lane - stride);
            old ← rd Smem smem my_lane;
            wr Smem smem my_lane (add_size_t old (to_size_t val))
          else Done smem) smem) sh.1;
  Done (smem, scratch).

Definition single_block_prefix_sum (arr : list node_t) (n : Z) : outcome (list node_t) :=
  let max_number_items := n / 1024 + (if n `mod` 1024 =? 0 then 0 else 1) in
  let smem : list node_t := replicate (Z.to_nat shared_capacity) 0 in
  let scratch : list node_t := replicate (Z.to_nat shared_capacity) 0 in
  (* Put all values this thread is responsible for in smem and scratch *)
  sh ← for_each block_threads (λ th_id sh,
          for_lanes (lanes_fuel n) th_id n (λ data_idx sh,
              val ← rd Arr arr data_idx;
              smem ← wr Smem sh.1 data_idx val;
              scratch ← wr Scratch sh.2 data_idx val;
              Done (smem, scratch)) sh) (smem, scratch);
  sh ← for_strides 64 1 n (single_block_round n max_number_items) sh;
  (* Put all values this thread is responsible for back into the array. *)
  for_each block_threads (λ th_id arr,
      for_lanes (lanes_fuel n) th_id n (λ data_idx arr,
          v ← rd Smem sh.1 data_idx;
          wr Arr arr data_idx v) arr) arr.

(** ** [finish_prefix_sum], [create_scratch], [store] *)

(** [int + int]: the sum wraps as the device computes it. *)
Definition finish_prefix_sum (block_sums : list node_t) (n : Z) (th : thread)
    (g : SparseGraph) : outcome SparseGraph :=
  let th_idx := global_id th in
  if (th_idx <? n) && (0 <? th.1) then
    b ← rd BlockSums block_sums (th.1 - 1);
    old ← rd Offsets (neighbours_start_at g) th_idx;
    offs ← wr Offsets (neighbours_start_at g) th_idx (to_int (old + b));
    Done (set_neighbours_start_at g offs)
  else Done g.

(** The overload of [finish_prefix_sum] on a plain array, at [T = node_t]:
    the same body on [arr] in place of [g->neighbours_start_at]. *)
Definition finish_prefix_sum_array (block_sums : list node_t) (n : Z) (th : thread)
    (arr : list node_t) : outcome (list node_t) :=
  let th_idx := global_id th in
  if (th_idx <? n) && (0 <? th.1) then
    b ← rd BlockSums block_sums (th.1 - 1);
    old ← rd Arr arr th_idx;
    wr Arr arr th_idx (to_int (old + b))
  else Done arr.

Definition create_scratch (g : SparseGraph) (th : thread) (scratch : list node_t)
  : outcome (list node_t) :=
  let global_th_id := global_id th in
  if global_th_id <? sg_n g then
    v ← rd Offsets (neighbours_start_at g) global_th_id;
    wr Counters scratch global_th_id v
  else Done scratch.

Definition store (edges : list edge_t) (th : thread) (st : SparseGraph * list node_t)
  : outcome (SparseGraph * list node_t) :=
  let g := st.1 in
  let scratch := st.2 in
  let global_th_id := global_id th in
  if global_th_id <? sg_m g then
    edge ← rd Edges edges global_th_id;
    let this_vertex := edge_x edge in
    let other_vertex := edge_y edge in
    r ← atomicAdd Counters scratch this_vertex 1;
    let pos := r.1 in
    nb ← wr Neighbours (neighbours g) pos other_vertex;
    Done (set_neighbours g nb, r.2)
  else Done st.

(** ** [build_graph] *)

Definition num_blocks_for (count : Z) : Z :=
  to_uint32 (to_size_t (count + threads_per_block - 1) / threads_per_block).

(** The three launches of the scan, on [n + 1] offsets. *)
Definition scan_offsets (σ : scheduler) (g : SparseGraph) (n : Z) : outcome SparseGraph :=
  let num_blocks := num_blocks_for (to_size_t (n + 1)) in
  let tmp_blk_sums := cudaMalloc num_blocks in
  st ← launch_blocks σ num_blocks (prefix_sum (to_size_t (n + 1))) (g, tmp_blk_sums);
  tmp_blk_sums ← single_block_prefix_sum st.2 num_blocks;
  launch σ num_blocks (finish_prefix_sum tmp_blk_sums (to_size_t (n + 1))) st.1.

Definition build_graph (σ : scheduler) (g : SparseGraph) (edge_list : list edge_t)
    (m n : Z) : outcome SparseGraph :=
  let num_blocks := num_blocks_for (to_size_t (n + 1)) in
  let num_blocks_edges := num_blocks_for m in
  g ← launch σ num_blocks_edges (histogram edge_list m) g;
  (* prefix_sum *)
  g ← scan_offsets σ g n;
  (* store *)
  let tmp_prefix_sums := cudaMalloc n in
  tmp_prefix_sums ← launch σ num_blocks (create_scratch g) tmp_prefix_sums;
  st ← launch σ num_blocks_edges (store edge_list) (g, tmp_prefix_sums);
  Done st.1.


(** [cudaMalloc] does not initialise the memory it returns.  The scan and
    [build_graph] once more, over temporaries that hold [tmp_blk_sums] and
    [tmp_prefix_sums] when they are allocated. *)
Definition scan_offsets_with (σ : scheduler) (g : SparseGraph) (n : Z)
    (tmp_blk_sums : list node_t) : outcome SparseGraph :=
  let num_blocks := num_blocks_for (to_size_t (n + 1)) in
  st ← launch_blocks σ num_blocks (prefix_sum (to_size_t (n + 1))) (g, tmp_blk_sums);
  tmp_blk_sums ← single_block_prefix_sum st.2 num_blocks;
  launch σ num_blocks (finish_prefix_sum tmp_blk_sums (to_size_t (n + 1))) st.1.

Definition build_graph_with (σ : scheduler) (g : SparseGraph) (edge_list : list edge_t)
    (m n : Z) (tmp_blk_sums tmp_prefix_sums : list node_t) : outcome SparseGraph :=
  let num_blocks := num_blocks_for (to_size_t (n + 1)) in
  let num_blocks_edges := num_blocks_for m in
  g ← launch σ num_blocks_edges (histogram edge_list m) g;
  (* prefix_sum *)
  g ← scan_offsets_with σ g n tmp_blk_sums;
  (* store *)
  tmp_prefix_sums ← launch σ num_blocks (create_scratch g) tmp_prefix_sums;
  st ← launch σ num_blocks_edges (store edge_list) (g, tmp_prefix_sums);
  Done st.1.

(** ** What the construction is expected to compute *)

Definition sumZ (l : list Z) : Z := foldr Z.add 0 l.

(** [cell a i] is [a[i]] for an index inside the array. *)
Definition cell (a : list Z) (i : Z) : Z := default 0 (a !! Z.to_nat i).

(** The sum of the first [k] cells. *)
Definition prefix_total (a : list Z) (k : Z) : Z := sumZ (take (Z.to_nat k) a).

Definition has_source (v : Z) (e : edge_t) : bool := edge_x e =? v.

(** The destinations of the edges that leave [v], in input order. *)
Definition destinations (edges : list edge_t) (v : Z) : list node_t :=
  edge_y <$> filter (λ e, has_source v e = true) edges.

Definition out_degree (edges : list edge_t) (v : Z) : Z :=
  Z.of_nat (length (destinations edges v)).

(** [a[lo .. hi)] *)
Definition segment (a : list node_t) (lo hi : Z) : list node_t :=
  take (Z.to_nat (hi - lo)) (drop (Z.to_nat lo) a).

Definition all_zero (a : list Z) : Prop := Forall (λ z, z = 0) a.

Definition valid_edge (n : Z) (e : edge_t) : Prop :=
  0 ≤ edge_x e < n ∧ is_int (edge_y e).

Definition int_edge (e : edge_t) : Prop := is_int (edge_x e) ∧ is_int (edge_y e).

#[global] Instance valid_edge_dec (n : Z) (e : edge_t) : Decision (valid_edge n e).
Proof. unfold valid_edge, is_int. apply _. Defined.

(** [g'] has the sizes of [g]: the same [n] and [m], and arrays of the
    same lengths. *)
Definition same_shape (g g' : SparseGraph) : Prop :=
  sg_n g' = sg_n g ∧ sg_m g' = sg_m g
  ∧ length (neighbours_start_at g') = length (neighbours_start_at g)
  ∧ length (neighbours g') = length (neighbours g).

(** ** One thread of [single_block_prefix_sum], in program order *)

(** What one thread of [single_block_prefix_sum] does, in program order:
    its accesses and the barriers it arrives at. *)
Inductive event : Set :=
  | Barrier
  | ReadAt (b : buffer) (i : Z)
  | WriteAt (b : buffer) (i : Z).

Definition emit (evs : list event) (tr : list event) : outcome (list event) :=
  Done (tr ++ evs).

Definition unit_round (th_id n max_number_items stride : Z) (tr : list event)
  : outcome (list event) :=
  (* copy into scratch *)
  tr ← for_lanes (lanes_fuel n) th_id n (λ data_idx,
          emit [ReadAt Smem data_idx; WriteAt Scratch data_idx]) tr;
  tr ← emit [Barrier] tr;
  for_each (seqZ 0 max_number_items) (λ iteration tr,
      let my_lane := to_size_t (th_id + 1024 * iteration) in
      let in_range := (my_lane <? n) && (stride <=? my_lane) in
      tr ← emit (if in_range then [ReadAt Scratch (my_lane - stride)] else []) tr;
      tr ← emit [Barrier] tr;
      tr ← emit (if in_range then [ReadAt Smem my_lane; WriteAt Smem my_lane] else []) tr;
      emit [Barrier] tr) tr.

Definition unit_events (th_id n : Z) : outcome (list event) :=
  let max_number_items := n / 1024 + (if n `mod` 1024 =? 0 then 0 else 1) in
  tr ← for_lanes (lanes_fuel n) th_id n (λ data_idx,
          emit [ReadAt Arr data_idx; WriteAt Smem data_idx; WriteAt Scratch data_idx]) [];
  tr ← emit [Barrier] tr;
  tr ← for_strides 64 1 n (unit_round th_id n max_number_items) tr;
  for_lanes (lanes_fuel n) th_id n (λ data_idx,
      emit [ReadAt Smem data_idx; WriteAt Arr data_idx]) tr.

(** The accesses of a trace, each with the number of barriers the thread
    has passed when it makes it. *)
Fixpoint stamped (k : nat) (tr : list event) : list (nat * event) :=
  match tr with
  | [] => []
  | Barrier :: tr => stamped (S k) tr
  | e :: tr => (k, e) :: stamped k tr
  end.

(** Two accesses conflict when they are to the same cell and one of them
    is a write. *)
Definition conflict (e1 e2 : event) : Prop :=
  match e1, e2 with
  | WriteAt b1 i1, WriteAt b2 i2
  | WriteAt b1 i1, ReadAt b2 i2
  | ReadAt b1 i1, WriteAt b2 i2 => b1 = b2 ∧ i1 = i2
  | _, _ => False
  end.

(** Two threads of a block do not race: between the same two barriers
    they make no conflicting accesses. *)
Definition race_free (tr1 tr2 : list event) : Prop :=
  ∀ k e1 e2, (k, e1) ∈ stamped 0 tr1 → (k, e2) ∈ stamped 0 tr2 → ¬ conflict e1 e2.

(** ** Auxiliary definitions of the proofs *)

(** After the round of stride [2 ^ k], a cell holds the sum of the
    [2 ^ (k + 1)] cells that end at it. *)
Definition scanned (s0 : list Z) (k : Z) (s : list Z) (len : Z) : Prop :=
  ∀ t, 0 ≤ t < len →
    cell s t = to_int (prefix_total s0 (t + 1) - prefix_total s0 (t + 1 - 2 ^ k)).

(** The lanes a thread visits, with the fuel of [for_lanes]. *)
Fixpoint lanes (fuel : nat) (data_idx n : Z) : list Z :=
  if data_idx <? n then
    match fuel with
    | O => []
    | S fuel => data_idx :: lanes fuel (data_idx + 1024) n
    end
  else [].

(** The lanes of all the threads of the block. *)
Definition all_lanes (n : Z) : list Z := block_threads ≫= λ th_id, lanes (lanes_fuel n) th_id n.

(** The lanes walked in the rounds: row [iteration] holds the lanes
    [th_id + 1024 * iteration] of the 1024 threads. *)
Definition lane_rows (max_number_items : Z) : list Z :=
  seqZ 0 max_number_items ≫= λ iteration,
    (λ th_id, to_size_t (th_id + 1024 * iteration)) <$> block_threads.

(** The edge a thread of [histogram] or [store] works on, if any. *)
Definition job (edges : list edge_t) (m : Z) (th : thread) : option edge_t :=
  if global_id th <? m then edges !! Z.to_nat (global_id th) else None.

Definition pick (edges : list edge_t) (m : Z) (i : Z) : option edge_t :=
  if i <? m then edges !! Z.to_nat i else None.

(** What one edge does to the offsets. *)
Definition histogram_edge (n : Z) (e : edge_t) (offs : list Z) : outcome (list Z) :=
  if to_size_t (edge_x e) <? n then
    r ← atomicAdd Offsets offs (edge_x e + 1) 1; Done r.2
  else Done offs.

(** What one edge does to the neighbours and the counters. *)
Definition store_edge (e : edge_t) (st : list Z * list Z) : outcome (list Z * list Z) :=
  r ← atomicAdd Counters st.2 (edge_x e) 1;
  nb ← wr Neighbours st.1 r.1 (edge_y e);
  Done (nb, r.2).

(** The state of [store] once the edges [done] have been placed: the
    counter of a vertex has moved past the slots handed out, and those
    slots hold the destinations in the order they were claimed. *)
Definition stored (n m : Z) (offs : list Z) (done : list edge_t) (nb cnt : list Z) : Prop :=
  Z.of_nat (length nb) = m ∧ Z.of_nat (length cnt) = n
  ∧ (∀ v, 0 ≤ v < n → cell cnt v = cell offs v + out_degree done v)
  ∧ (∀ v k, 0 ≤ v < n → 0 ≤ k < out_degree done v →
       cell nb (cell offs v + k) = cell (destinations done v) k).

(** The number of edges whose source lies below [p]: where the stretch of
    vertex [p] starts. *)
Definition edges_before (edges : list edge_t) (p : Z) : Z :=
  Z.of_nat (length (filter (λ e, edge_x e < p) edges)).

(** What [build_graph] is entitled to: [g] describes [n] vertices and [m]
    edges and owns arrays of [int] of the stated sizes, the edge list holds
    [m] edges between vertices, positions fit an [int], and the groups of
    the scan fit the shared buffers of the cross-group scan. *)
Definition stated_preconditions (g : SparseGraph) (edges : list edge_t) (m n : Z) : Prop :=
  sg_n g = n ∧ sg_m g = m
  ∧ Z.of_nat (length (neighbours_start_at g)) = n + 1
  ∧ Z.of_nat (length (neighbours g)) = m
  ∧ Z.of_nat (length edges) = m
  ∧ 0 ≤ n ∧ n + 1 ≤ 1024 * shared_capacity ∧ m < 2 ^ 31
  ∧ Forall is_int (neighbours_start_at g)
  ∧ Forall (valid_edge n) edges.

(** [offsets[v + 1]] is the out-degree of [v], and [offsets[0]] is zero. *)
Definition degree_counts (n : Z) (edges : list edge_t) (g : SparseGraph) : Prop :=
  cell (neighbours_start_at g) 0 = 0
  ∧ ∀ v, 0 ≤ v < n → cell (neighbours_start_at g) (v + 1) = out_degree edges v.


(** The stretch of every vertex holds its destinations, as a multiset. *)
Definition csr_segments (n : Z) (edges : list edge_t) (g : SparseGraph) : Prop :=
  ∀ v, 0 ≤ v < n →
    segment (neighbours g) (cell (neighbours_start_at g) v) (cell (neighbours_start_at g) (v + 1))
    ≡ₚ destinations edges v.

(** [offsets[0] == 0], [offsets[n] == m], [offsets] non-decreasing. *)
Definition csr_offsets (n m : Z) (g : SparseGraph) : Prop :=
  cell (neighbours_start_at g) 0 = 0
  ∧ cell (neighbours_start_at g) n = m
  ∧ ∀ i, 0 ≤ i < n → cell (neighbours_start_at g) i ≤ cell (neighbours_start_at g) (i + 1).

(** The offsets [histogram] leaves, whatever they held on entry. *)
Definition histogram_result (g : SparseGraph) (edges : list edge_t) : list Z :=
  cell (neighbours_start_at g) 0
  :: ((λ v, to_int (cell (neighbours_start_at g) (v + 1) + out_degree edges v))
        <$> seqZ 0 (sg_n g)).

(** The running sums of an array, as the device computes them. *)
Definition scan_result (h : list Z) : list Z :=
  (λ p, to_int (prefix_total h (p + 1))) <$> seqZ 0 (Z.of_nat (length h)).

Definition is_barrier (e : event) : bool :=
  match e with Barrier => true | _ => false end.

Fixpoint barriers (tr : list event) : nat :=
  match tr with
  | [] => 0
  | e :: tr => (if is_barrier e then 1 else 0) + barriers tr
  end.

(** The number of rounds of [for (stride = 1; stride < bound; stride <<= 1)]. *)
Fixpoint stride_rounds (fuel : nat) (stride bound : Z) : option nat :=
  if stride <? bound then
    match fuel with
    | O => None
    | S fuel => S <$> stride_rounds fuel (to_size_t (stride ≪ 1)) bound
    end
  else Some O.

(** The stretches between barriers in which a thread of
    [single_block_prefix_sum] reads the cell [stride] behind its lane: with
    [rows] lanes to a thread, the odd ones of every round of
    [2 * rows + 1] barriers. *)
Definition gathering (rows k : Z) : bool :=
  (1 <=? k) && Z.odd ((k - 1) `mod` (2 * rows + 1)).

(** An access to a lane of thread [th_id]. *)
Definition own_lane (th_id : Z) (e : event) : Prop :=
  match e with
  | Barrier => False
  | ReadAt _ i | WriteAt _ i => i `mod` 1024 = th_id
  end.

Definition read_only (e : event) : Prop :=
  match e with ReadAt _ _ => True | _ => False end.

Definition tidy_at (th_id rows : Z) (k : nat) (e : event) : Prop :=
  if gathering rows (Z.of_nat k) then read_only e else own_lane th_id e.

(** Every access of the trace is a read, in a gathering stretch, and is to
    a lane of the thread anywhere else. *)
Definition tidy (th_id rows : Z) (tr : list event) : Prop :=
  ∀ k e, (k, e) ∈ stamped 0 tr → tidy_at th_id rows k e.

(** ** Inputs of the examples *)

(** The scenario of the specification: four vertices, five edges, offsets
    zero on entry. *)
Definition scenario_graph : SparseGraph := mkSparseGraph 4 5 [0; 0; 0; 0; 0] [0; 0; 0; 0; 0].

Definition scenario_edges : list edge_t := [Edge 0 1; Edge 0 2; Edge 1 3; Edge 2 3; Edge 3 0].

(** The scenario with an edge whose source is not a vertex. *)
Definition ragged_edges : list edge_t :=
  [Edge 0 1; Edge 0 2; Edge 1 3; Edge 9 3; Edge 3 0].

(** Inputs of the stated sizes whose offsets are not zero on entry. *)
Definition stale_graph : SparseGraph := mkSparseGraph 2 2 [0; -1; 0] [0; 0].

Definition stale_edges : list edge_t := [Edge 0 7; Edge 0 9].

Definition stale_counts : SparseGraph := mkSparseGraph 1 1 [7; 3] [0].

Definition stale_empty : SparseGraph := mkSparseGraph 0 0 [5] [].

(** Offsets that hold counts, within one group and over three groups. *)
Definition counted_graph : SparseGraph :=
  mkSparseGraph 4 5 [0; 2; 1; 1; 1] [0; 0; 0; 0; 0].

Definition wide_graph : SparseGraph :=
  mkSparseGraph 2048 2048 (replicate 2049 1) (replicate 2048 0).

(** One vertex more than 6144 groups hold: 6145 group totals. *)
Definition oversized_n : Z := 1024 * shared_capacity.

Definition oversized_graph : SparseGraph :=
  mkSparseGraph oversized_n 0 (replicate (Z.to_nat (oversized_n + 1)) 0) [].

(** An edge list with an edge that leaves vertex 5 of a graph of two. *)
Definition stray_graph : SparseGraph := mkSparseGraph 2 2 [0; 0; 0] [0; 0].

Definition stray_edges : list edge_t := [Edge 0 1; Edge 5 0].

(** The scenario once its offsets are in place, before [store]. *)
Definition csr_graph : SparseGraph := mkSparseGraph 4 5 [0; 2; 3; 4; 5] [0; 0; 0; 0; 0].

(** Two edges that leave vertex 0 of a graph of two. *)
Definition twin_edges : list edge_t := [Edge 0 1; Edge 0 0].

(** * Proofs *)

(** ** Machine arithmetic *)

Lemma to_int_is_int z : is_int (to_int z).
Proof. unfold is_int, to_int. pose proof (Z.mod_pos_bound (z + 2 ^ 31) (2 ^ 32)). lia. Qed.

Lemma to_int_id z : is_int z → to_int z = z.
Proof. unfold is_int, to_int. intros H. rewrite Z.mod_small by lia. lia. Qed.

Lemma to_int_shift z k : to_int (z + k * 2 ^ 32) = to_int z.
Proof.
  unfold to_int. replace (z + k * 2 ^ 32 + 2 ^ 31) with (z + 2 ^ 31 + k * 2 ^ 32) by lia.
  rewrite Z.mod_add by lia. reflexivity.
Qed.

Lemma to_int_repr z : ∃ k, to_int z = z + k * 2 ^ 32.
Proof.
  exists (- ((z + 2 ^ 31) `div` 2 ^ 32)). unfold to_int.
  pose proof (Z.div_mod (z + 2 ^ 31) (2 ^ 32)). lia.
Qed.

Lemma to_int_add_l a b : to_int (to_int a + b) = to_int (a + b).
Proof.
  destruct (to_int_repr a) as [k ->].
  replace (a + k * 2 ^ 32 + b) with (a + b + k * 2 ^ 32) by lia.
  apply to_int_shift.
Qed.

Lemma to_int_add_r a b : to_int (a + to_int b) = to_int (a + b).
Proof. rewrite (Z.add_comm a), to_int_add_l. f_equal. lia. Qed.

Lemma to_int_sub_r a b : to_int (a - to_int b) = to_int (a - b).
Proof.
  destruct (to_int_repr b) as [k ->].
  replace (a - (b + k * 2 ^ 32)) with (a - b + (- k) * 2 ^ 32) by lia.
  apply to_int_shift.
Qed.

Lemma to_int_to_size_t a : to_int (to_size_t a) = to_int a.
Proof.
  unfold to_size_t.
  pose proof (Z.div_mod a (2 ^ 64)).
  replace (a `mod` 2 ^ 64) with (a + (- (a `div` 2 ^ 64) * 2 ^ 32) * 2 ^ 32) by lia.
  apply to_int_shift.
Qed.

Lemma add_size_t_spec a b : add_size_t a (to_size_t b) = to_int (a + b).
Proof.
  unfold add_size_t. rewrite to_int_to_size_t.
  rewrite <- to_int_add_l, to_int_to_size_t, to_int_add_l.
  rewrite <- to_int_add_r, to_int_to_size_t, to_int_add_r. reflexivity.
Qed.

Lemma to_size_t_id z : 0 ≤ z < 2 ^ 64 → to_size_t z = z.
Proof. intros. unfold to_size_t. apply Z.mod_small. lia. Qed.

Lemma to_uint32_id z : 0 ≤ z < 2 ^ 32 → to_uint32 z = z.
Proof. intros. unfold to_uint32. apply Z.mod_small. lia. Qed.

(** A negative [int] compared with a [std::size_t] is a huge number. *)
Lemma source_in_range x n :
  is_int x → 0 ≤ n ≤ 2 ^ 63 → (to_size_t x <? n) = true ↔ 0 ≤ x < n.
Proof.
  unfold is_int, to_size_t. intros Hx Hn. rewrite Z.ltb_lt.
  destruct (decide (0 ≤ x)).
  - rewrite Z.mod_small by lia. lia.
  - replace x with (x + 2 ^ 64 + (-1) * 2 ^ 64) by lia.
    rewrite Z.mod_add by lia. rewrite Z.mod_small by lia. lia.
Qed.

(** ** The outcome monad and the arrays *)

Lemma bind_Done {A B : Type} (a : A) (k : A → outcome B) : (Done a ≫= k) = k a.
Proof. reflexivity. Qed.

Lemma bind_inv {A B : Type} (o : outcome A) (k : A → outcome B) (r : B) :
  o ≫= k = Done r → ∃ a, o = Done a ∧ k a = Done r.
Proof. destruct o; simpl; intros H; try discriminate. eauto. Qed.

Lemma cell_lookup (a : list Z) (i : Z) (v : Z) :
  a !! Z.to_nat i = Some v → cell a i = v.
Proof. unfold cell. intros ->. reflexivity. Qed.

Lemma lookup_cell (a : list Z) (i : Z) :
  0 ≤ i < Z.of_nat (length a) → a !! Z.to_nat i = Some (cell a i).
Proof.
  intros H. unfold cell.
  destruct (lookup_lt_is_Some_2 a (Z.to_nat i)) as [v Hv]; [lia|].
  rewrite Hv. reflexivity.
Qed.

Lemma rd_cell (b : buffer) (a : list Z) (i : Z) :
  0 ≤ i < Z.of_nat (length a) → rd b a i = Done (cell a i).
Proof.
  intros H. unfold rd. rewrite (lookup_cell a i H).
  destruct (Z.leb_spec 0 i); [reflexivity | lia].
Qed.

Lemma rd_lookup {A : Type} (b : buffer) (a : list A) (i : Z) (v : A) :
  0 ≤ i → a !! Z.to_nat i = Some v → rd b a i = Done v.
Proof.
  intros H Hv. unfold rd. rewrite Hv.
  destruct (Z.leb_spec 0 i); [reflexivity | lia].
Qed.

Lemma rd_out {A : Type} (b : buffer) (a : list A) (i : Z) :
  ¬ (0 ≤ i < Z.of_nat (length a)) → rd b a i = OutOfBounds b.
Proof.
  intros H. unfold rd. destruct (Z.leb_spec 0 i); [|reflexivity].
  rewrite lookup_ge_None_2; [reflexivity | lia].
Qed.

Lemma wr_in {A : Type} (b : buffer) (a : list A) (i : Z) (v : A) :
  0 ≤ i < Z.of_nat (length a) → wr b a i v = Done (<[Z.to_nat i := v]> a).
Proof.
  intros H. unfold wr.
  destruct (Z.leb_spec 0 i); [|lia]. destruct (Z.ltb_spec i (Z.of_nat (length a))); [|lia].
  reflexivity.
Qed.

Lemma wr_out {A : Type} (b : buffer) (a : list A) (i : Z) (v : A) :
  ¬ (0 ≤ i < Z.of_nat (length a)) → wr b a i v = OutOfBounds b.
Proof.
  intros H. unfold wr.
  destruct (Z.leb_spec 0 i); [|reflexivity].
  destruct (Z.ltb_spec i (Z.of_nat (length a))); [lia | reflexivity].
Qed.

Lemma cell_insert_eq (a : list Z) (i : Z) (v : Z) :
  0 ≤ i < Z.of_nat (length a) → cell (<[Z.to_nat i := v]> a) i = v.
Proof.
  intros H. apply cell_lookup. apply list_lookup_insert_eq. lia.
Qed.

Lemma cell_insert_ne (a : list Z) (i j : Z) (v : Z) :
  0 ≤ i → 0 ≤ j → i ≠ j → cell (<[Z.to_nat i := v]> a) j = cell a j.
Proof.
  intros Hi Hj Hne. unfold cell. rewrite list_lookup_insert_ne by lia. reflexivity.
Qed.

Lemma atomicAdd_in (b : buffer) (a : list Z) (i val : Z) :
  0 ≤ i < Z.of_nat (length a) →
  atomicAdd b a i val = Done (cell a i, <[Z.to_nat i := to_int (cell a i + val)]> a).
Proof.
  intros H. unfold atomicAdd. rewrite rd_cell by done. simpl.
  rewrite wr_in by done. reflexivity.
Qed.

(** ** Loops *)

Lemma for_each_app {A St : Type} (l1 l2 : list A) (body : A → St → outcome St) (s : St) :
  for_each (l1 ++ l2) body s = s' ← for_each l1 body s; for_each l2 body s'.
Proof.
  revert s. induction l1 as [|a l1 IH]; intros s; simpl; [reflexivity|].
  destruct (body a s); simpl; auto.
Qed.

Lemma for_each_ext {A St : Type} (l : list A) (body1 body2 : A → St → outcome St) (s : St) :
  (∀ a s, a ∈ l → body1 a s = body2 a s) → for_each l body1 s = for_each l body2 s.
Proof.
  revert s. induction l as [|a l IH]; intros s H; simpl; [reflexivity|].
  rewrite H by (left; reflexivity). destruct (body2 a s); simpl; auto.
  apply IH. intros. apply H. right. assumption.
Qed.

(** Nested loops run as one loop over the pairs. *)
Lemma for_each_nested {A B St : Type} (l1 : list A) (l2 : A → list B)
    (body : A → B → St → outcome St) (s : St) :
  for_each l1 (λ a s, for_each (l2 a) (body a) s) s
  = for_each (a ← l1; (λ b, (a, b)) <$> l2 a) (λ ab s, body ab.1 ab.2 s) s.
Proof.
  revert s. induction l1 as [|a l1 IH]; intros s; simpl; [reflexivity|].
  rewrite for_each_app.
  assert (Hin : ∀ l s, for_each l (body a) s
                = for_each ((λ b, (a, b)) <$> l) (λ ab s, body ab.1 ab.2 s) s).
  { induction l as [|b l IHl]; intros s0; simpl; [reflexivity|].
    destruct (body a b s0); simpl; auto. }
  rewrite <- Hin. destruct (for_each (l2 a) (body a) s); simpl; auto.
Qed.

Lemma read_all_Done {A B : Type} (l : list A) (f : A → outcome B) (g : A → B) :
  (∀ a, a ∈ l → f a = Done (g a)) → read_all l f = Done (g <$> l).
Proof.
  induction l as [|a l IH]; intros H; simpl; [reflexivity|].
  rewrite H by (left; reflexivity). simpl.
  rewrite IH; [reflexivity|]. intros. apply H. right. assumption.
Qed.

(** Units that each update a cell of their own: whatever the order, every
    active unit finds its cell as the loop found it. *)
Section own_cells.
Context {A St : Type} (get : St → list Z) (put : St → list Z → St).
Hypothesis get_put : ∀ s a, get (put s a) = a.
Hypothesis put_put : ∀ s a b, put (put s a) b = put s b.
Hypothesis put_get : ∀ s, put s (get s) = s.
Variables (body : A → St → outcome St) (idx : A → Z) (act : A → bool) (f : A → Z → Z).

Lemma for_each_cells (l : list A) (s : St) :
  (∀ t cur, t ∈ l → length (get cur) = length (get s) →
     body t cur = if act t
                  then Done (put cur (<[Z.to_nat (idx t) := f t (cell (get cur) (idx t))]> (get cur)))
                  else Done cur) →
  (∀ t, t ∈ l → act t = true → 0 ≤ idx t < Z.of_nat (length (get s))) →
  NoDup (idx <$> filter (λ t, act t = true) l) →
  ∃ a', for_each l body s = Done (put s a')
      ∧ length a' = length (get s)
      ∧ (∀ t, t ∈ l → act t = true → cell a' (idx t) = f t (cell (get s) (idx t)))
      ∧ (∀ j, 0 ≤ j → (∀ t, t ∈ l → act t = true → idx t ≠ j) → cell a' j = cell (get s) j).
Proof.
  revert s. induction l as [|t l IH]; intros s Hbody Hrange Hnd.
  - exists (get s). simpl. rewrite put_get. split; [reflexivity|]. split; [reflexivity|].
    split; [intros t Ht; inversion Ht | reflexivity].
  - simpl. rewrite Hbody by (try left; reflexivity).
    assert (Hbody' : ∀ s1, length (get s1) = length (get s) →
              ∀ t0 cur, t0 ∈ l → length (get cur) = length (get s1) →
              body t0 cur = if act t0
                then Done (put cur (<[Z.to_nat (idx t0) := f t0 (cell (get cur) (idx t0))]> (get cur)))
                else Done cur).
    { intros s1 Hs1 t0 cur Ht0 Hcur. apply Hbody; [right; assumption | congruence]. }
    destruct (act t) eqn:Hact.
    + rewrite filter_cons_True in Hnd by assumption.
      rewrite fmap_cons in Hnd. apply NoDup_cons in Hnd as [Hfresh Hnd].
      pose proof (Hrange t ltac:(left; reflexivity) Hact) as Hrt.
      set (a1 := <[Z.to_nat (idx t) := f t (cell (get s) (idx t))]> (get s)).
      assert (Hlen1 : length (get (put s a1)) = length (get s)).
      { rewrite get_put. unfold a1. apply length_insert. }
      destruct (IH (put s a1)) as (a' & Hrun & Hlen & Hown & Hother).
      { apply Hbody', Hlen1. }
      { intros t0 Ht0 Ha0. rewrite Hlen1. apply Hrange; [right|]; assumption. }
      { assumption. }
      assert (Hdistinct : ∀ t0, t0 ∈ l → act t0 = true → idx t0 ≠ idx t).
      { intros t0 Ht0 Ha0 Heq. apply Hfresh. rewrite <- Heq.
        apply list_elem_of_fmap_2. apply list_elem_of_filter. split; assumption. }
      exists a'. simpl. rewrite Hrun, put_put. split; [reflexivity|].
      split; [congruence|]. split.
      * intros t0 Ht0 Ha0. apply elem_of_cons in Ht0 as [-> | Ht0].
        -- rewrite Hother; [| lia | assumption].
           rewrite get_put. unfold a1. apply cell_insert_eq. lia.
        -- rewrite Hown by assumption. rewrite get_put. unfold a1.
           f_equal. apply cell_insert_ne; [lia| |].
           ++ pose proof (Hrange t0 ltac:(right; assumption) Ha0). lia.
           ++ intros Heq. apply (Hdistinct t0); auto.
      * intros j Hj Hfree. rewrite Hother; [| assumption |].
        -- rewrite get_put. unfold a1. apply cell_insert_ne; [lia | assumption |].
           apply Hfree; [left; reflexivity | assumption].
        -- intros t0 Ht0 Ha0. apply Hfree; [right|]; assumption.
    + rewrite filter_cons_False in Hnd by (rewrite Hact; discriminate).
      destruct (IH s) as (a' & Hrun & Hlen & Hown & Hother).
      { apply Hbody'. reflexivity. }
      { intros t0 Ht0 Ha0. apply Hrange; [right|]; assumption. }
      { assumption. }
      exists a'. simpl. rewrite Hrun. split; [reflexivity|]. split; [assumption|]. split.
      * intros t0 Ht0 Ha0. apply elem_of_cons in Ht0 as [-> | Ht0]; [congruence|].
        apply Hown; assumption.
      * intros j Hj Hfree. apply Hother; [assumption|].
        intros t0 Ht0 Ha0. apply Hfree; [right|]; assumption.
Qed.
End own_cells.

Lemma for_each_skip {A St : Type} (l : list A) (body : A → St → outcome St) (s : St) :
  (∀ a, a ∈ l → body a s = Done s) → for_each l body s = Done s.
Proof.
  induction l as [|a l IH]; intros H; simpl; [reflexivity|].
  rewrite H by (left; reflexivity). simpl. apply IH. intros. apply H. right. assumption.
Qed.

(** The doubling loop, by an invariant indexed with the exponent of the
    stride; the fuel is enough as soon as [bound ≤ 2 ^ (k + fuel)]. *)
Lemma for_strides_inv {St : Type} (I : Z → St → Prop) (body : Z → St → outcome St) (bound : Z) :
  bound ≤ 2 ^ 63 →
  (∀ j s, 0 ≤ j → 2 ^ j < bound → I j s → ∃ s', body (2 ^ j) s = Done s' ∧ I (j + 1) s') →
  ∀ (fuel : nat) (k : Z) (s : St),
    0 ≤ k → bound ≤ 2 ^ (k + Z.of_nat fuel) → I k s →
    ∃ j s', for_strides fuel (2 ^ k) bound body s = Done s' ∧ I j s' ∧ k ≤ j ∧ bound ≤ 2 ^ j.
Proof.
  intros Hbound Hstep. induction fuel as [|fuel IH]; intros k s Hk Hfuel HI.
  - simpl. rewrite Z.add_0_r in Hfuel.
    destruct (Z.ltb_spec (2 ^ k) bound); [lia|]. exists k, s. auto with lia.
  - simpl. destruct (Z.ltb_spec (2 ^ k) bound) as [Hlt|Hge].
    + destruct (Hstep k s Hk Hlt HI) as (s' & -> & HI'). simpl.
      assert (Hk63 : k < 63).
      { destruct (Z.lt_ge_cases k 63); [assumption|].
        pose proof (Z.pow_le_mono_r 2 63 k). lia. }
      assert (Hnext : to_size_t (2 ^ k ≪ 1) = 2 ^ (k + 1)).
      { rewrite Z.shiftl_mul_pow2 by lia. rewrite Z.pow_add_r by lia.
        apply to_size_t_id. split; [lia|].
        replace (2 ^ k * 2 ^ 1) with (2 ^ (k + 1)) by (rewrite Z.pow_add_r; lia).
        apply Z.pow_lt_mono_r; lia. }
      rewrite Hnext.
      destruct (IH (k + 1) s') as (j & s'' & Hrun & HIj & Hkj & Hbj); [lia | | assumption |].
      { replace (k + 1 + Z.of_nat fuel) with (k + Z.of_nat (S fuel)) by lia. assumption. }
      exists j, s''. auto with lia.
    + exists k, s. auto with lia.
Qed.

(** ** The doubling scan, on cells *)

Lemma sumZ_app l1 l2 : sumZ (l1 ++ l2) = sumZ l1 + sumZ l2.
Proof. unfold sumZ. induction l1 as [|x l1 IH]; simpl; lia. Qed.

Lemma prefix_total_nonpos (a : list Z) (k : Z) : k ≤ 0 → prefix_total a k = 0.
Proof. intros H. unfold prefix_total. replace (Z.to_nat k) with O by lia. reflexivity. Qed.

Lemma prefix_total_succ (a : list Z) (k : Z) :
  0 ≤ k < Z.of_nat (length a) → prefix_total a (k + 1) = prefix_total a k + cell a k.
Proof.
  intros H. unfold prefix_total.
  replace (Z.to_nat (k + 1)) with (S (Z.to_nat k)) by lia.
  rewrite (take_S_r a (Z.to_nat k) (cell a k)) by (apply lookup_cell; assumption).
  rewrite sumZ_app. simpl. lia.
Qed.

(** Prefix totals only look at the cells they add up. *)
Lemma prefix_total_agree (a b : list Z) (base k : Z) :
  0 ≤ base → 0 ≤ k →
  k ≤ Z.of_nat (length a) → base + k ≤ Z.of_nat (length b) →
  (∀ i, 0 ≤ i < k → cell a i = cell b (base + i)) →
  prefix_total a k = prefix_total b (base + k) - prefix_total b base.
Proof.
  intros Hbase Hk. revert k Hk.
  refine (natlike_ind _ _ _); [intros; rewrite Z.add_0_r, prefix_total_nonpos; lia|].
  intros k Hk IH Hla Hlb Hcells.
  replace (Z.succ k) with (k + 1) in * by lia.
  replace (base + (k + 1)) with (base + k + 1) by lia.
  rewrite !prefix_total_succ by lia.
  rewrite IH by (try lia; intros; apply Hcells; lia).
  rewrite Hcells by lia. lia.
Qed.

Lemma scanned_init (s0 : list Z) (len : Z) :
  len ≤ Z.of_nat (length s0) →
  (∀ t, 0 ≤ t < len → is_int (cell s0 t)) →
  scanned s0 0 s0 len.
Proof.
  intros Hlen Hint t Ht. replace (t + 1 - 2 ^ 0) with t by lia.
  rewrite prefix_total_succ by lia.
  replace (prefix_total s0 t + cell s0 t - prefix_total s0 t) with (cell s0 t) by lia.
  symmetry. apply to_int_id, Hint, Ht.
Qed.

Lemma scanned_step (s0 s s' : list Z) (k len : Z) :
  0 ≤ k →
  scanned s0 k s len →
  (∀ t, 0 ≤ t < len →
     cell s' t = if 2 ^ k <=? t then to_int (cell s t + cell s (t - 2 ^ k)) else cell s t) →
  scanned s0 (k + 1) s' len.
Proof.
  intros Hk Hs Hs' t Ht. rewrite Hs' by assumption.
  assert (Hpow : 2 ^ (k + 1) = 2 ^ k + 2 ^ k) by (rewrite Z.pow_add_r; lia).
  assert (0 < 2 ^ k) by (apply Z.pow_pos_nonneg; lia).
  destruct (Z.leb_spec (2 ^ k) t).
  - rewrite !Hs by lia. rewrite to_int_add_l, to_int_add_r. f_equal.
    replace (t - 2 ^ k + 1) with (t + 1 - 2 ^ k) by lia.
    replace (t + 1 - 2 ^ k - 2 ^ k) with (t + 1 - 2 ^ (k + 1)) by lia. lia.
  - rewrite Hs by assumption.
    rewrite (prefix_total_nonpos s0 (t + 1 - 2 ^ k)) by lia.
    rewrite (prefix_total_nonpos s0 (t + 1 - 2 ^ (k + 1))) by lia. reflexivity.
Qed.

Lemma scanned_final (s0 s : list Z) (k len : Z) :
  len ≤ 2 ^ k → scanned s0 k s len →
  ∀ t, 0 ≤ t < len → cell s t = to_int (prefix_total s0 (t + 1)).
Proof.
  intros Hlen Hs t Ht. rewrite Hs by assumption.
  rewrite (prefix_total_nonpos s0 (t + 1 - 2 ^ k)) by lia. f_equal. lia.
Qed.

(** ** [prefix_sum]: one block *)

Lemma elem_of_block_threads t : t ∈ block_threads ↔ 0 ≤ t < 1024.
Proof. unfold block_threads, threads_per_block. rewrite elem_of_seqZ. lia. Qed.

Lemma prefix_sum_round_spec (k : Z) (smem : list node_t) :
  0 ≤ k → length smem = 1024%nat →
  ∃ smem', prefix_sum_round (2 ^ k) smem = Done smem'
    ∧ length smem' = 1024%nat
    ∧ ∀ t, 0 ≤ t < 1024 →
        cell smem' t = if 2 ^ k <=? t then to_int (cell smem t + cell smem (t - 2 ^ k))
                       else cell smem t.
Proof.
  intros Hk Hlen. unfold prefix_sum_round.
  assert (0 < 2 ^ k) by (apply Z.pow_pos_nonneg; lia).
  destruct (for_each_cells (λ s, s) (λ _ a, a) ltac:(done) ltac:(done) ltac:(done)
              (λ th_idx cur,
                 if 2 ^ k <=? th_idx then
                   val ← rd Smem smem (th_idx - 2 ^ k);
                   old ← rd Smem cur th_idx;
                   wr Smem cur th_idx (add_size_t old (to_size_t val))
                 else Done cur)
              (λ t, t) (λ t, 2 ^ k <=? t)
              (λ t old, to_int (old + cell smem (t - 2 ^ k)))
              block_threads smem)
    as (smem' & Hrun & Hlen' & Hown & Hother).
  - intros t cur Ht Hcur. apply elem_of_block_threads in Ht. simpl in Hcur.
    destruct (Z.leb_spec (2 ^ k) t); [|reflexivity].
    rewrite rd_cell by lia. simpl. rewrite rd_cell by lia. simpl.
    rewrite wr_in by lia. rewrite add_size_t_spec. reflexivity.
  - intros t Ht _. apply elem_of_block_threads in Ht. lia.
  - rewrite list_fmap_id. apply NoDup_filter, NoDup_seqZ.
  - exists smem'. split; [exact Hrun|]. split; [congruence|].
    intros t Ht. destruct (Z.leb_spec (2 ^ k) t) as [Hle|Hgt].
    + rewrite (Hown t); [reflexivity | apply elem_of_block_threads; lia | apply Z.leb_le; lia].
    + apply Hother; [lia|]. intros t0 _ Ha0. apply Z.leb_le in Ha0. lia.
Qed.

(** The ten rounds of a block turn the loaded cells into their running sums. *)
Lemma prefix_sum_rounds_spec (smem0 : list node_t) :
  length smem0 = 1024%nat →
  (∀ t, 0 ≤ t < 1024 → is_int (cell smem0 t)) →
  ∃ smem, for_strides 10 1 1024 prefix_sum_round smem0 = Done smem
    ∧ length smem = 1024%nat
    ∧ ∀ t, 0 ≤ t < 1024 → cell smem t = to_int (prefix_total smem0 (t + 1)).
Proof.
  intros Hlen Hint.
  destruct (for_strides_inv
              (λ k s, length s = 1024%nat ∧ scanned smem0 k s 1024)
              prefix_sum_round 1024 ltac:(lia)) with (fuel := 10%nat) (k := 0) (s := smem0)
    as (j & smem & Hrun & [Hl Hs] & _ & Hj).
  - intros j s Hj _ [Hl Hs].
    destruct (prefix_sum_round_spec j s Hj Hl) as (s' & Hrun & Hl' & Hcells).
    exists s'. split; [assumption|]. split; [assumption|].
    eapply scanned_step; eauto.
  - lia.
  - simpl. lia.
  - split; [assumption|]. apply scanned_init; [lia | assumption].
  - exists smem. split; [exact Hrun|]. split; [assumption|].
    apply (scanned_final smem0 smem j 1024); assumption.
Qed.

Lemma cell_fmap_seqZ (f : Z → Z) (len t : Z) :
  0 ≤ t < len → cell (f <$> seqZ 0 len) t = f t.
Proof.
  intros H. apply cell_lookup. rewrite list_lookup_fmap.
  rewrite lookup_seqZ_lt by lia. rewrite Z2Nat.id by lia. reflexivity.
Qed.

Lemma global_id_block (b t : Z) :
  0 ≤ b → 0 ≤ t < 1024 → 1024 * (b + 1) ≤ 2 ^ 32 → global_id (b, t) = 1024 * b + t.
Proof.
  intros Hb Ht Hmax. unfold global_id, threads_per_block. simpl.
  rewrite to_uint32_id; lia.
Qed.

Lemma seqZ_split (len t : Z) :
  0 ≤ t < len → seqZ 0 len = seqZ 0 t ++ t :: seqZ (t + 1) (len - t - 1).
Proof.
  intros H. replace len with (t + (1 + (len - t - 1))) at 1 by lia.
  rewrite seqZ_app by lia. f_equal. rewrite seqZ_app by lia.
  rewrite (seqZ_cons _ 1) by lia. rewrite seqZ_nil by lia. simpl.
  rewrite Z.add_0_l. reflexivity.
Qed.

(** A loop in which a single unit acts. *)
Lemma for_each_single (len t : Z) {St : Type} (body : Z → St → outcome St) (s : St) :
  0 ≤ t < len →
  (∀ u s, 0 ≤ u < len → u ≠ t → body u s = Done s) →
  for_each (seqZ 0 len) body s = body t s.
Proof.
  intros Ht Hidle. rewrite (seqZ_split len t Ht), for_each_app.
  rewrite for_each_skip by (intros u Hu; apply elem_of_seqZ in Hu; apply Hidle; lia).
  simpl. destruct (body t s) as [s'| |]; simpl; try reflexivity.
  apply for_each_skip. intros u Hu. apply elem_of_seqZ in Hu. apply Hidle; lia.
Qed.

Lemma mod_1024_block (b t : Z) : 0 ≤ t < 1024 → (1024 * b + t) `mod` 1024 = t.
Proof.
  intros H. replace (1024 * b + t) with (t + b * 1024) by lia.
  rewrite Z.mod_add by lia. apply Z.mod_small. lia.
Qed.

Lemma div_1024_block (b t : Z) : 0 ≤ t < 1024 → (1024 * b + t) `div` 1024 = b.
Proof.
  intros H. replace (1024 * b + t) with (t + b * 1024) by lia.
  rewrite Z.div_add by lia. rewrite Z.div_small by lia. lia.
Qed.

Lemma block_decompose (p : Z) :
  p = 1024 * (p `div` 1024) + p `mod` 1024 ∧ 0 ≤ p `mod` 1024 < 1024.
Proof.
  split; [apply Z.div_mod; lia | apply Z.mod_pos_bound; lia].
Qed.

(** What block [b] of [prefix_sum] leaves behind: the running sums of its
    own stretch of the offsets, and the total of the stretch in
    [block_sums[b]].  The cells loaded through the wrap-around index lie
    behind every cell that is written back and never reach a result. *)
Lemma prefix_sum_block_spec (N b : Z) (g : SparseGraph) (bs : list Z) :
  let cur := neighbours_start_at g in
  Z.of_nat (length cur) = N → N ≤ 2 ^ 32 →
  0 ≤ b → 1024 * b < N → 1024 * (b + 1) ≤ 2 ^ 32 →
  b < Z.of_nat (length bs) →
  (∀ p, 0 ≤ p < N → is_int (cell cur p)) →
  ∃ offs' bs',
    prefix_sum N b (g, bs) = Done (set_neighbours_start_at g offs', bs')
    ∧ length offs' = length cur ∧ length bs' = length bs
    ∧ (∀ p, 0 ≤ p < N →
         cell offs' p = if decide (p `div` 1024 = b)
                        then to_int (prefix_total cur (p + 1) - prefix_total cur (1024 * b))
                        else cell cur p)
    ∧ (∀ c, 0 ≤ c →
         cell bs' c = if decide (c = b)
                      then to_int (prefix_total cur (Z.min (1024 * (b + 1)) N)
                                   - prefix_total cur (1024 * b))
                      else cell bs c).
Proof.
  intros cur Hlen HN Hb HbN Hmax Hbs Hint. unfold prefix_sum. cbn [fst snd]. fold cur.
  (* the load *)
  set (smem0 := (λ t, cell cur ((1024 * b + t) `mod` N)) <$> block_threads).
  assert (Hload : read_all block_threads
            (λ th_idx, rd Offsets cur (global_id (b, th_idx) `mod` N)) = Done smem0).
  { apply read_all_Done. intros t Ht. apply elem_of_block_threads in Ht.
    rewrite global_id_block by lia. apply rd_cell.
    pose proof (Z.mod_pos_bound (1024 * b + t) N). lia. }
  rewrite Hload, bind_Done.
  assert (Hl0 : length smem0 = 1024%nat).
  { unfold smem0, block_threads, threads_per_block. rewrite length_fmap, length_seqZ. lia. }
  assert (Hc0 : ∀ t, 0 ≤ t < 1024 → cell smem0 t = cell cur ((1024 * b + t) `mod` N)).
  { intros t Ht. unfold smem0, block_threads, threads_per_block.
    rewrite cell_fmap_seqZ by lia. reflexivity. }
  (* the rounds *)
  destruct (prefix_sum_rounds_spec smem0 Hl0) as (smem & Hrounds & Hl & Hscan).
  { intros t Ht. rewrite Hc0 by assumption. apply Hint.
    apply Z.mod_pos_bound. lia. }
  rewrite Hrounds, bind_Done. clear Hload Hrounds.
  assert (Hsmem : ∀ t, 0 ≤ t < 1024 → 1024 * b + t < N →
            cell smem t = to_int (prefix_total cur (1024 * b + t + 1) - prefix_total cur (1024 * b))).
  { intros t Ht HtN. rewrite Hscan by assumption. f_equal.
    replace (1024 * b + t + 1) with (1024 * b + (t + 1)) by lia.
    apply prefix_total_agree; try lia.
    intros i Hi. rewrite Hc0 by lia. rewrite Z.mod_small by lia. reflexivity. }
  (* the write-back *)
  destruct (for_each_cells (λ s, s) (λ _ a, a) ltac:(done) ltac:(done) ltac:(done)
              (λ th_idx offs,
                 if global_id (b, th_idx) <? N then
                   v ← rd Smem smem th_idx;
                   wr Offsets offs (global_id (b, th_idx)) v
                 else Done offs)
              (λ t, 1024 * b + t) (λ t, 1024 * b + t <? N) (λ t _, cell smem t)
              block_threads cur)
    as (offs' & Hrun & Hlo & Hown & Hother).
  { intros t offs Ht Ho. apply elem_of_block_threads in Ht. simpl in Ho.
    rewrite global_id_block by lia.
    destruct (Z.ltb_spec (1024 * b + t) N); [|reflexivity].
    rewrite rd_cell by lia. rewrite bind_Done, wr_in by lia. reflexivity. }
  { intros t Ht Ha. apply elem_of_block_threads in Ht. apply Z.ltb_lt in Ha. lia. }
  { apply NoDup_fmap_2_strong; [|apply NoDup_filter, NoDup_seqZ]. intros; lia. }
  cbn beta in Hrun, Hlo. rewrite Hrun, bind_Done. clear Hrun.
  (* the block total *)
  set (last := Z.min 1023 (N - 1 - 1024 * b)).
  set (total := λ th_idx block_sums,
         if (global_id (b, th_idx) <? N)
            && ((to_size_t (global_id (b, th_idx) + 1) `mod` 1024 =? 0)
                || (global_id (b, th_idx) =? to_size_t (N - 1)))
         then v ← rd Smem smem th_idx; wr BlockSums block_sums b v
         else Done block_sums).
  assert (Htotal : for_each block_threads total bs = Done (<[Z.to_nat b := cell smem last]> bs)).
  { unfold block_threads, threads_per_block. rewrite (for_each_single 1024 last); [| lia |].
    - unfold total. rewrite global_id_block by lia.
      rewrite !to_size_t_id by lia.
      assert (Hact : (1024 * b + last <? N)
                && (((1024 * b + last + 1) `mod` 1024 =? 0) || (1024 * b + last =? N - 1)) = true).
      { apply andb_true_iff. split; [apply Z.ltb_lt; lia|]. apply orb_true_iff.
        destruct (decide (last = 1023)) as [->|].
        - left. apply Z.eqb_eq. replace (1024 * b + 1023 + 1) with (0 + (b + 1) * 1024) by lia.
          rewrite Z.mod_add by lia. reflexivity.
        - right. apply Z.eqb_eq. lia. }
      rewrite Hact. rewrite rd_cell by lia. rewrite bind_Done, wr_in by lia. reflexivity.
    - intros u s Hu Hne. unfold total. rewrite global_id_block by lia.
      rewrite !to_size_t_id by lia.
      assert (Hidle : (1024 * b + u <? N)
                && (((1024 * b + u + 1) `mod` 1024 =? 0) || (1024 * b + u =? N - 1)) = false).
      { apply andb_false_iff. destruct (Z.ltb_spec (1024 * b + u) N); [right | left; reflexivity].
        apply orb_false_iff. split.
        - apply Z.eqb_neq. replace (1024 * b + u + 1) with (1024 * b + (u + 1)) by lia.
          rewrite mod_1024_block by lia. lia.
        - apply Z.eqb_neq. lia. }
      rewrite Hidle. reflexivity. }
  fold total. rewrite Htotal, bind_Done.
  exists offs', (<[Z.to_nat b := cell smem last]> bs).
  split; [reflexivity|]. split; [assumption|]. split; [apply length_insert|]. split.
  - intros p Hp. destruct (block_decompose p) as [Hdm Hm]. case_decide as Hblock.
    + rewrite Hdm at 1. rewrite Hblock.
      rewrite (Hown (p `mod` 1024)); [| apply elem_of_block_threads; lia | apply Z.ltb_lt; lia].
      rewrite Hsmem by lia. do 3 f_equal. lia.
    + apply Hother; [lia|]. intros t Ht _ Heq. apply elem_of_block_threads in Ht.
      apply Hblock. rewrite <- Heq. apply div_1024_block. lia.
  - intros c Hc. case_decide as Hcb.
    + subst c. rewrite cell_insert_eq by lia. rewrite Hsmem by lia. do 3 f_equal. lia.
    + apply cell_insert_ne; lia.
Qed.

Lemma window_agree (a b : list Z) (lo hi : Z) :
  0 ≤ lo ≤ hi → hi ≤ Z.of_nat (length a) → hi ≤ Z.of_nat (length b) →
  (∀ i, lo ≤ i < hi → cell a i = cell b i) →
  prefix_total a hi - prefix_total a lo = prefix_total b hi - prefix_total b lo.
Proof.
  intros Hlo Ha Hb Hcells.
  set (w := (λ i, cell a (lo + i)) <$> seqZ 0 (hi - lo)).
  assert (Hw : Z.of_nat (length w) = hi - lo).
  { unfold w. rewrite length_fmap, length_seqZ. lia. }
  transitivity (prefix_total w (hi - lo)).
  - rewrite (prefix_total_agree w a lo (hi - lo)); try lia.
    + replace (lo + (hi - lo)) with hi by lia. reflexivity.
    + intros i Hi. unfold w. rewrite cell_fmap_seqZ by lia. reflexivity.
  - rewrite (prefix_total_agree w b lo (hi - lo)); try lia.
    + replace (lo + (hi - lo)) with hi by lia. reflexivity.
    + intros i Hi. unfold w. rewrite cell_fmap_seqZ by lia. apply Hcells. lia.
Qed.

(** ** [prefix_sum]: the launch *)

Section block_scan.
Variables (N B : Z) (offs0 : list Z).
Hypothesis HlenN : Z.of_nat (length offs0) = N.
Hypothesis HN : 1 ≤ N.
Hypothesis HB : 1024 * (B - 1) < N ≤ 1024 * B.
Hypothesis HB32 : 1024 * B ≤ 2 ^ 32.
Hypothesis Hint0 : ∀ p, 0 ≤ p < N → is_int (cell offs0 p).

Local Abbreviation P := (prefix_total offs0).

(** Blocks run in any order, each exactly once: a block finds its own
    stretch of the offsets as the launch found it. *)
Lemma prefix_sum_blocks_spec (l : list Z) :
  NoDup l → (∀ b, b ∈ l → 0 ≤ b < B) →
  ∀ (g : SparseGraph) (bs : list Z),
    Z.of_nat (length (neighbours_start_at g)) = N →
    Z.of_nat (length bs) = B →
    (∀ p, 0 ≤ p < N → p `div` 1024 ∈ l → cell (neighbours_start_at g) p = cell offs0 p) →
    (∀ p, 0 ≤ p < N → is_int (cell (neighbours_start_at g) p)) →
    ∃ offs' bs',
      for_each l (prefix_sum N) (g, bs) = Done (set_neighbours_start_at g offs', bs')
      ∧ length offs' = length (neighbours_start_at g) ∧ length bs' = length bs
      ∧ (∀ p, 0 ≤ p < N →
           cell offs' p = if decide (p `div` 1024 ∈ l)
                          then to_int (P (p + 1) - P (1024 * (p `div` 1024)))
                          else cell (neighbours_start_at g) p)
      ∧ (∀ c, 0 ≤ c →
           cell bs' c = if decide (c ∈ l)
                        then to_int (P (Z.min (1024 * (c + 1)) N) - P (1024 * c))
                        else cell bs c).
Proof.
  induction l as [|b l IH]; intros Hnd Hin g bs Hg Hbs Hfresh Hint.
  - exists (neighbours_start_at g), bs. destruct g; cbn [for_each neighbours_start_at set_neighbours_start_at sg_n sg_m neighbours].
    split; [reflexivity|]. split; [reflexivity|]. split; [reflexivity|]. split.
    + intros p Hp. rewrite decide_False by (intros H; inversion H). reflexivity.
    + intros c Hc. rewrite decide_False by (intros H; inversion H). reflexivity.
  - apply NoDup_cons in Hnd as [Hbl Hnd].
    pose proof (Hin b ltac:(left; reflexivity)) as Hb.
    destruct (prefix_sum_block_spec N b g bs) as (o1 & b1 & Hrun1 & Hlo1 & Hlb1 & Ho1 & Hb1);
      try assumption; try lia.
    set (g1 := set_neighbours_start_at g o1).
    assert (Hwin : ∀ p, 0 ≤ p < N → p `div` 1024 = b →
              prefix_total (neighbours_start_at g) (p + 1)
              - prefix_total (neighbours_start_at g) (1024 * b)
              = P (p + 1) - P (1024 * b)).
    { intros p Hp Hpb. destruct (block_decompose p) as [Hdm Hm].
      apply window_agree; try lia.
      intros i Hi. apply Hfresh; [lia|].
      replace i with (1024 * b + (i - 1024 * b)) by lia.
      rewrite div_1024_block by lia. left. }
    destruct (IH Hnd) with (g := g1) (bs := b1) as (o2 & b2 & Hrun2 & Hlo2 & Hlb2 & Ho2 & Hb2).
    + intros c Hc. apply Hin. right. assumption.
    + unfold g1. simpl. lia.
    + lia.
    + intros p Hp Hpl. unfold g1. simpl. rewrite Ho1 by assumption.
      case_decide as Hpb; [subst b; contradiction|].
      apply Hfresh; [assumption | right; assumption].
    + intros p Hp. unfold g1. simpl. rewrite Ho1 by assumption.
      case_decide; [apply to_int_is_int | apply Hint; assumption].
    + exists o2, b2. simpl. rewrite Hrun1. simpl. fold g1. rewrite Hrun2.
      split; [reflexivity|]. split; [unfold g1 in Hlo2; simpl in Hlo2; congruence|].
      split; [congruence|]. split.
      * intros p Hp. rewrite Ho2 by assumption. unfold g1. simpl.
        destruct (decide (p `div` 1024 ∈ l)) as [Hpl|Hpl].
        -- rewrite decide_True by (right; assumption). reflexivity.
        -- rewrite Ho1 by assumption. destruct (decide (p `div` 1024 = b)) as [Hpb|Hpb].
           ++ rewrite decide_True by (apply elem_of_cons; left; assumption).
              rewrite Hwin by assumption. rewrite Hpb. reflexivity.
           ++ rewrite decide_False; [reflexivity|].
              intros H. apply elem_of_cons in H as [?|?]; contradiction.
      * intros c Hc. rewrite Hb2 by assumption.
        destruct (decide (c ∈ l)) as [Hcl|Hcl].
        -- rewrite decide_True by (right; assumption). reflexivity.
        -- rewrite Hb1 by assumption. destruct (decide (c = b)) as [Hcb|Hcb].
           ++ rewrite decide_True by (apply elem_of_cons; left; assumption). subst c. f_equal.
              destruct (Z.min_spec (1024 * (b + 1)) N) as [[? ->]|[? ->]].
              ** replace (1024 * (b + 1)) with (1024 * b + 1023 + 1) by lia.
                 apply Hwin; [lia|]. apply div_1024_block. lia.
              ** assert (Hdiv : (N - 1) `div` 1024 = b).
                 { replace (N - 1) with (1024 * b + (N - 1 - 1024 * b)) by lia.
                   apply div_1024_block. lia. }
                 pose proof (Hwin (N - 1) ltac:(lia) Hdiv) as Hw.
                 replace (N - 1 + 1) with N in Hw by lia. exact Hw.
           ++ rewrite decide_False; [reflexivity|].
              intros H. apply elem_of_cons in H as [?|?]; contradiction.
Qed.

(** The launch, under any fair scheduler. *)
Lemma prefix_sum_launch_spec (σ : scheduler) (g : SparseGraph) (bs : list Z) :
  fair σ →
  neighbours_start_at g = offs0 →
  Z.of_nat (length bs) = B →
  ∃ offs' bs',
    launch_blocks σ B (prefix_sum N) (g, bs) = Done (set_neighbours_start_at g offs', bs')
    ∧ length offs' = length offs0 ∧ length bs' = length bs
    ∧ (∀ p, 0 ≤ p < N → cell offs' p = to_int (P (p + 1) - P (1024 * (p `div` 1024))))
    ∧ (∀ c, 0 ≤ c < B → cell bs' c = to_int (P (Z.min (1024 * (c + 1)) N) - P (1024 * c))).
Proof.
  intros Hfair Hg Hbs. unfold launch_blocks.
  pose proof (Hfair Z (seqZ 0 B)) as Hperm.
  assert (Hmem : ∀ b, b ∈ σ Z (seqZ 0 B) ↔ 0 ≤ b < B).
  { intros b. rewrite Hperm, elem_of_seqZ. lia. }
  destruct (prefix_sum_blocks_spec (σ Z (seqZ 0 B))) with (g := g) (bs := bs)
    as (o & b' & Hrun & Hlo & Hlb & Ho & Hb').
  - rewrite Hperm. apply NoDup_seqZ.
  - intros b Hb. apply Hmem. assumption.
  - rewrite Hg. assumption.
  - assumption.
  - intros. rewrite Hg. reflexivity.
  - intros. rewrite Hg. apply Hint0. assumption.
  - exists o, b'. split; [assumption|]. split; [congruence|]. split; [assumption|]. split.
    + intros p Hp. rewrite Ho by assumption. rewrite decide_True; [reflexivity|].
      apply Hmem. destruct (block_decompose p) as [Hdm Hm]. lia.
    + intros c Hc. rewrite Hb' by lia. rewrite decide_True; [reflexivity|].
      apply Hmem. assumption.
Qed.
End block_scan.

(** ** Strided loops *)

Lemma for_each_bind {A B St : Type} (l1 : list A) (l2 : A → list B)
    (body : B → St → outcome St) (s : St) :
  for_each l1 (λ a s, for_each (l2 a) body s) s = for_each (l1 ≫= l2) body s.
Proof.
  revert s. induction l1 as [|a l1 IH]; intros s; [reflexivity|].
  change ((a :: l1) ≫= l2) with (l2 a ++ (l1 ≫= l2)).
  rewrite for_each_app. simpl. destruct (for_each (l2 a) body s); simpl; auto.
Qed.

Lemma for_each_fmap {A B St : Type} (h : A → B) (l : list A)
    (body : B → St → outcome St) (s : St) :
  for_each l (λ a s, body (h a) s) s = for_each (h <$> l) body s.
Proof.
  revert s. induction l as [|a l IH]; intros s; simpl; [reflexivity|].
  destruct (body (h a) s); simpl; auto.
Qed.

Lemma for_lanes_lanes {St : Type} (fuel : nat) (start n : Z)
    (body : Z → St → outcome St) (s : St) :
  0 ≤ start → n ≤ 2 ^ 63 → n - start ≤ 1024 * Z.of_nat fuel →
  for_lanes fuel start n body s = for_each (lanes fuel start n) body s.
Proof.
  revert start s. induction fuel as [|fuel IH]; intros start s Hs Hn Hfuel; simpl.
  - destruct (Z.ltb_spec start n); [lia | reflexivity].
  - destruct (Z.ltb_spec start n); [|reflexivity]. simpl.
    rewrite to_size_t_id by lia.
    destruct (body start s); simpl; try reflexivity. apply IH; lia.
Qed.

Lemma elem_of_lanes (fuel : nat) (start n i : Z) :
  n - start ≤ 1024 * Z.of_nat fuel →
  i ∈ lanes fuel start n ↔ start ≤ i < n ∧ (i - start) `mod` 1024 = 0.
Proof.
  revert start. induction fuel as [|fuel IH]; intros start Hfuel; simpl.
  - destruct (Z.ltb_spec start n); [lia|]. split; [intros H'; inversion H' | lia].
  - destruct (Z.ltb_spec start n) as [Hlt|Hge]; [|split; [intros H'; inversion H' | lia]].
    rewrite elem_of_cons, IH by lia. split.
    + intros [-> | [Hr Hm]].
      * rewrite Z.sub_diag. split; [lia | reflexivity].
      * split; [lia|]. replace (i - start) with (i - (start + 1024) + 1 * 1024) by lia.
        rewrite Z.mod_add by lia. assumption.
    + intros [Hr Hm]. destruct (decide (i = start)) as [|Hne]; [left; assumption | right].
      assert (1024 ≤ i - start).
      { pose proof (Z.div_mod (i - start) 1024 ltac:(lia)) as Hdm. rewrite Hm in Hdm.
        assert (0 < (i - start) `div` 1024) by lia. lia. }
      split; [lia|]. replace (i - start) with (i - (start + 1024) + 1 * 1024) in Hm by lia.
      rewrite Z.mod_add in Hm by lia. assumption.
Qed.

Lemma NoDup_lanes (fuel : nat) (start n : Z) : NoDup (lanes fuel start n).
Proof.
  revert start. induction fuel as [|fuel IH]; intros start; simpl.
  - destruct (start <? n); constructor.
  - destruct (start <? n); [|constructor]. apply NoDup_cons. split; [|apply IH].
    assert (Hge : ∀ f s i, i ∈ lanes f s n → s ≤ i).
    { clear. induction f as [|f IHf]; intros s i; simpl.
      - destruct (s <? n); intros H; inversion H.
      - destruct (s <? n); [|intros H; inversion H].
        rewrite elem_of_cons. intros [-> | H]; [lia|]. apply IHf in H. lia. }
    intros H. apply Hge in H. lia.
Qed.

Lemma lanes_fuel_enough (n th : Z) : 0 ≤ th → 0 ≤ n → n - th ≤ 1024 * Z.of_nat (lanes_fuel n).
Proof.
  intros Hth Hn. unfold lanes_fuel. pose proof (Z.div_mod n 1024 ltac:(lia)).
  pose proof (Z.mod_pos_bound n 1024 ltac:(lia)).
  assert (0 ≤ n `div` 1024) by (apply Z.div_pos; lia). lia.
Qed.

Lemma elem_of_all_lanes (n i : Z) : 0 ≤ n → i ∈ all_lanes n ↔ 0 ≤ i < n.
Proof.
  intros Hn. unfold all_lanes. rewrite list_elem_of_bind. split.
  - intros (th & Hi & Hth). apply elem_of_block_threads in Hth.
    apply elem_of_lanes in Hi; [lia | apply lanes_fuel_enough; lia].
  - intros Hi. exists (i `mod` 1024).
    pose proof (Z.mod_pos_bound i 1024 ltac:(lia)).
    pose proof (Z.div_mod i 1024 ltac:(lia)).
    assert (0 ≤ i `div` 1024) by (apply Z.div_pos; lia).
    split; [|apply elem_of_block_threads; lia].
    apply elem_of_lanes; [apply lanes_fuel_enough; lia|]. split; [lia|].
    replace (i - i `mod` 1024) with (0 + (i `div` 1024) * 1024) by lia.
    rewrite Z.mod_add by lia. reflexivity.
Qed.

Lemma NoDup_all_lanes (n : Z) : 0 ≤ n → NoDup (all_lanes n).
Proof.
  intros Hn. unfold all_lanes. apply NoDup_bind.
  - intros t1 t2 i Ht1 Ht2 H1 H2.
    apply elem_of_block_threads in Ht1, Ht2.
    apply elem_of_lanes in H1; [|apply lanes_fuel_enough; lia].
    apply elem_of_lanes in H2; [|apply lanes_fuel_enough; lia].
    destruct H1 as [_ H1], H2 as [_ H2].
    pose proof (Z.div_mod (i - t1) 1024 ltac:(lia)).
    pose proof (Z.div_mod (i - t2) 1024 ltac:(lia)). lia.
  - intros. apply NoDup_lanes.
  - apply NoDup_seqZ.
Qed.

(** All the threads running a strided loop visit every index below [n]
    once. *)
Lemma strided_loops {St : Type} (n : Z) (body : Z → St → outcome St) (s : St) :
  0 ≤ n ≤ 2 ^ 63 →
  for_each block_threads (λ th_id s, for_lanes (lanes_fuel n) th_id n body s) s
  = for_each (all_lanes n) body s.
Proof.
  intros Hn. unfold all_lanes. rewrite <- for_each_bind.
  apply for_each_ext. intros th s' Hth. apply elem_of_block_threads in Hth.
  apply for_lanes_lanes; [lia | lia | apply lanes_fuel_enough; lia].
Qed.

(** A loop of copies [dst[i] = src[i]] over indices visited once. *)
Lemma copy_loop (bs bd : buffer) (l : list Z) (src dst : list Z) :
  NoDup l →
  (∀ i, i ∈ l → 0 ≤ i < Z.of_nat (length src) ∧ i < Z.of_nat (length dst)) →
  ∃ dst', for_each l (λ i dst, v ← rd bs src i; wr bd dst i v) dst = Done dst'
    ∧ length dst' = length dst
    ∧ (∀ i, i ∈ l → cell dst' i = cell src i)
    ∧ (∀ j, 0 ≤ j → j ∉ l → cell dst' j = cell dst j).
Proof.
  intros Hnd Hin.
  destruct (for_each_cells (λ s, s) (λ _ a, a) ltac:(done) ltac:(done) ltac:(done)
              (λ i dst, v ← rd bs src i; wr bd dst i v)
              (λ i, i) (λ _, true) (λ i _, cell src i) l dst)
    as (dst' & Hrun & Hlen & Hown & Hother).
  - intros i cur Hi Hcur. cbn beta in Hcur. destruct (Hin i Hi).
    rewrite rd_cell by lia. rewrite bind_Done, wr_in by lia. reflexivity.
  - intros i Hi _. destruct (Hin i Hi). lia.
  - rewrite list_fmap_id. apply NoDup_filter. assumption.
  - exists dst'. split; [exact Hrun|]. split; [exact Hlen|]. split.
    + intros i Hi. apply Hown; [assumption | reflexivity].
    + intros j Hj Hout. apply Hother; [assumption|]. intros i Hi _ ->. contradiction.
Qed.

(** A loop that writes two arrays side by side. *)
Lemma for_each_pair {A : Type} (l : list A) (f h : A → list Z → outcome (list Z))
    (s1 s2 r1 r2 : list Z) :
  for_each l f s1 = Done r1 → for_each l h s2 = Done r2 →
  for_each l (λ a sh, x ← f a sh.1; y ← h a sh.2; Done (x, y)) (s1, s2) = Done (r1, r2).
Proof.
  revert s1 s2. induction l as [|a l IH]; intros s1 s2 H1 H2; simpl in *.
  - congruence.
  - apply bind_inv in H1 as (x & Hx & H1). apply bind_inv in H2 as (y & Hy & H2).
    rewrite Hx, Hy. simpl. apply IH; assumption.
Qed.

(** ** [single_block_prefix_sum] *)

Lemma elem_of_lane_rows (rows i : Z) :
  0 ≤ rows → 1024 * rows ≤ 2 ^ 63 → i ∈ lane_rows rows ↔ 0 ≤ i < 1024 * rows.
Proof.
  intros Hr Hmax. unfold lane_rows. rewrite list_elem_of_bind. split.
  - intros (it & Hi & Hit). apply elem_of_seqZ in Hit.
    apply list_elem_of_fmap in Hi as (th & -> & Hth). apply elem_of_block_threads in Hth.
    rewrite to_size_t_id by lia. lia.
  - intros Hi. destruct (block_decompose i) as [Hdm Hm].
    assert (0 ≤ i `div` 1024) by (apply Z.div_pos; lia).
    exists (i `div` 1024). split; [|apply elem_of_seqZ; lia].
    apply list_elem_of_fmap. exists (i `mod` 1024).
    split; [|apply elem_of_block_threads; lia].
    rewrite to_size_t_id by lia. lia.
Qed.

Lemma NoDup_lane_rows (rows : Z) : 0 ≤ rows → 1024 * rows ≤ 2 ^ 63 → NoDup (lane_rows rows).
Proof.
  intros Hr Hmax. unfold lane_rows. apply NoDup_bind.
  - intros i1 i2 y H1 H2 Hy1 Hy2. apply elem_of_seqZ in H1, H2.
    apply list_elem_of_fmap in Hy1 as (t1 & -> & Ht1).
    apply list_elem_of_fmap in Hy2 as (t2 & Heq & Ht2).
    apply elem_of_block_threads in Ht1, Ht2.
    rewrite !to_size_t_id in Heq by lia. lia.
  - intros it Hit. apply elem_of_seqZ in Hit.
    apply NoDup_fmap_2_strong; [|apply NoDup_seqZ].
    intros t1 t2 Ht1 Ht2 Heq. apply elem_of_block_threads in Ht1, Ht2.
    rewrite !to_size_t_id in Heq by lia. lia.
  - apply NoDup_seqZ.
Qed.

Lemma single_block_round_spec (n k : Z) (smem scratch : list Z) :
  0 ≤ k → 0 ≤ n ≤ shared_capacity →
  Z.of_nat (length smem) = shared_capacity → Z.of_nat (length scratch) = shared_capacity →
  ∃ smem' scratch',
    single_block_round n (n / 1024 + (if n `mod` 1024 =? 0 then 0 else 1)) (2 ^ k) (smem, scratch)
    = Done (smem', scratch')
    ∧ length smem' = length smem ∧ length scratch' = length scratch
    ∧ ∀ t, 0 ≤ t < n →
        cell smem' t = if 2 ^ k <=? t then to_int (cell smem t + cell smem (t - 2 ^ k))
                       else cell smem t.
Proof.
  unfold shared_capacity. intros Hk Hn Hls Hlc. unfold single_block_round. cbn [fst snd].
  set (rows := n / 1024 + (if n `mod` 1024 =? 0 then 0 else 1)).
  assert (Hrows : 0 ≤ rows ∧ n ≤ 1024 * rows ≤ 7168).
  { unfold rows. pose proof (Z.div_mod n 1024 ltac:(lia)).
    pose proof (Z.mod_pos_bound n 1024 ltac:(lia)).
    assert (0 ≤ n `div` 1024) by (apply Z.div_pos; lia).
    destruct (Z.eqb_spec (n `mod` 1024) 0); lia. }
  assert (0 < 2 ^ k) by (apply Z.pow_pos_nonneg; lia).
  (* copy into scratch *)
  rewrite strided_loops by lia.
  destruct (copy_loop Smem Scratch (all_lanes n) smem scratch) as (sc & Hrun & Hlsc & Hsc & _).
  { apply NoDup_all_lanes. lia. }
  { intros i Hi. apply elem_of_all_lanes in Hi; lia. }
  rewrite Hrun, bind_Done. clear Hrun.
  (* the lanes *)
  set (F := λ (my_lane : Z) (smem : list Z),
         if (my_lane <? n) && (2 ^ k <=? my_lane) then
           val ← rd Scratch sc (my_lane - 2 ^ k);
           old ← rd Smem smem my_lane;
           wr Smem smem my_lane (add_size_t old (to_size_t val))
         else Done smem).
  assert (Hflat : ∀ s,
    for_each (seqZ 0 rows) (λ iteration smem,
      for_each block_threads (λ th_id smem,
          let my_lane := to_size_t (th_id + 1024 * iteration) in
          if (my_lane <? n) && (2 ^ k <=? my_lane) then
            val ← rd Scratch sc (my_lane - 2 ^ k);
            old ← rd Smem smem my_lane;
            wr Smem smem my_lane (add_size_t old (to_size_t val))
          else Done smem) smem) s
    = for_each (lane_rows rows) F s).
  { intros s. unfold lane_rows. rewrite <- for_each_bind.
    apply for_each_ext. intros it s' _.
    rewrite <- (for_each_fmap (λ th_id, to_size_t (th_id + 1024 * it)) block_threads F).
    reflexivity. }
  rewrite Hflat. clear Hflat.
  destruct (for_each_cells (λ s, s) (λ _ a, a) ltac:(done) ltac:(done) ltac:(done)
              F (λ i, i) (λ i, (i <? n) && (2 ^ k <=? i))
              (λ i old, to_int (old + cell smem (i - 2 ^ k)))
              (lane_rows rows) smem)
    as (smem' & Hrun & Hlen & Hown & Hother).
  - intros i cur Hi Hcur. cbn beta in Hcur. unfold F.
    destruct ((i <? n) && (2 ^ k <=? i)) eqn:Hact; [|reflexivity].
    apply andb_true_iff in Hact as [Hi1 Hi2]. apply Z.ltb_lt in Hi1. apply Z.leb_le in Hi2.
    rewrite (rd_cell Scratch sc) by lia. rewrite bind_Done.
    rewrite (rd_cell Smem cur) by lia. rewrite bind_Done.
    rewrite wr_in by lia. rewrite add_size_t_spec.
    rewrite Hsc by (apply elem_of_all_lanes; lia). reflexivity.
  - intros i Hi Hact. apply andb_true_iff in Hact as [Hi1 Hi2].
    apply Z.ltb_lt in Hi1. apply Z.leb_le in Hi2. cbn beta. lia.
  - rewrite list_fmap_id. apply NoDup_filter, NoDup_lane_rows; lia.
  - cbn beta in Hrun, Hlen. rewrite Hrun, bind_Done.
    exists smem', sc. split; [reflexivity|]. split; [assumption|]. split; [assumption|].
    intros t Ht. destruct (Z.leb_spec (2 ^ k) t) as [Hle|Hgt].
    + apply (Hown t); [apply elem_of_lane_rows; lia|].
      apply andb_true_iff. split; [apply Z.ltb_lt | apply Z.leb_le]; lia.
    + apply Hother; [lia|]. intros i _ Hact ->.
      apply andb_true_iff in Hact as [_ Hi2]. apply Z.leb_le in Hi2. lia.
Qed.

(** The cross-group scan, within the capacity of its shared buffers. *)
Lemma single_block_prefix_sum_spec (arr : list Z) (n : Z) :
  0 ≤ n ≤ shared_capacity → n ≤ Z.of_nat (length arr) →
  (∀ c, 0 ≤ c < n → is_int (cell arr c)) →
  ∃ arr', single_block_prefix_sum arr n = Done arr'
    ∧ length arr' = length arr
    ∧ (∀ c, 0 ≤ c < n → cell arr' c = to_int (prefix_total arr (c + 1)))
    ∧ (∀ c, n ≤ c → cell arr' c = cell arr c).
Proof.
  unfold shared_capacity. intros Hn Hlen Hint. unfold single_block_prefix_sum.
  set (rows := n / 1024 + (if n `mod` 1024 =? 0 then 0 else 1)).
  set (zero := replicate (Z.to_nat shared_capacity) 0).
  assert (Hlz : Z.of_nat (length zero) = 6144).
  { unfold zero, shared_capacity. rewrite length_replicate. lia. }
  pose proof (NoDup_all_lanes n ltac:(lia)) as Hnd.
  (* the load *)
  rewrite strided_loops by lia.
  destruct (copy_loop Arr Smem (all_lanes n) arr zero) as (sm & Hrun1 & Hlsm & Hsm & _);
    [assumption | intros i Hi; apply elem_of_all_lanes in Hi; lia |].
  destruct (copy_loop Arr Scratch (all_lanes n) arr zero) as (sc & Hrun2 & Hlsc & Hsc & _);
    [assumption | intros i Hi; apply elem_of_all_lanes in Hi; lia |].
  rewrite (for_each_ext _ _
             (λ i sh, x ← (v ← rd Arr arr i; wr Smem sh.1 i v);
                      y ← (v ← rd Arr arr i; wr Scratch sh.2 i v); Done (x, y))).
  2:{ intros i sh Hi. apply elem_of_all_lanes in Hi; [|lia].
      rewrite rd_cell by lia. rewrite !bind_Done. reflexivity. }
  rewrite (for_each_pair _ _ _ _ _ _ _ Hrun1 Hrun2), bind_Done. clear Hrun1 Hrun2.
  (* the rounds *)
  destruct (for_strides_inv
              (λ j sh, Z.of_nat (length sh.1) = 6144 ∧ Z.of_nat (length sh.2) = 6144
                       ∧ scanned arr j sh.1 n)
              (single_block_round n rows) n ltac:(lia))
    with (fuel := 64%nat) (k := 0) (s := (sm, sc))
    as (j & [sm' sc'] & Hrun & (Hl1 & Hl2 & Hscan) & _ & Hj).
  - intros j [s1 s2] Hj _ (Hl1 & Hl2 & Hs). cbn [fst snd] in *.
    destruct (single_block_round_spec n j s1 s2) as (s1' & s2' & Hrun & Hl1' & Hl2' & Hcells);
      try assumption; try (unfold shared_capacity; lia).
    exists (s1', s2'). split; [exact Hrun|]. cbn [fst snd].
    split; [lia|]. split; [lia|]. eapply scanned_step; eauto.
  - lia.
  - simpl. lia.
  - cbn [fst snd]. split; [lia|]. split; [lia|].
    intros t Ht. rewrite Hsm by (apply elem_of_all_lanes; lia).
    apply (scanned_init arr n); [lia | assumption | assumption].
  - change (2 ^ 0) with 1 in Hrun. rewrite Hrun, bind_Done. cbn [fst snd] in *.
    rewrite strided_loops by lia.
    destruct (copy_loop Smem Arr (all_lanes n) sm' arr) as (arr' & Hrun3 & Hla & Hown & Hother);
      [assumption | intros i Hi; apply elem_of_all_lanes in Hi; lia |].
    exists arr'. split; [exact Hrun3|]. split; [assumption|]. split.
    + intros c Hc. rewrite Hown by (apply elem_of_all_lanes; lia).
      apply (scanned_final arr sm' j n); assumption.
    + intros c Hc. apply Hother; [lia|]. intros Hin. apply elem_of_all_lanes in Hin; lia.
Qed.

(** ** Grids *)

Lemma elem_of_grid_threads (num_blocks : Z) (th : thread) :
  th ∈ grid_threads num_blocks ↔ 0 ≤ th.1 < num_blocks ∧ 0 ≤ th.2 < 1024.
Proof.
  unfold grid_threads. rewrite list_elem_of_bind. split.
  - intros (b & Hth & Hb). apply elem_of_seqZ in Hb.
    apply list_elem_of_fmap in Hth as (t & -> & Ht). apply elem_of_block_threads in Ht.
    simpl. lia.
  - intros [Hb Ht]. exists th.1. split; [|apply elem_of_seqZ; lia].
    apply list_elem_of_fmap. exists th.2. split; [destruct th; reflexivity|].
    apply elem_of_block_threads. lia.
Qed.

Lemma NoDup_grid_threads (num_blocks : Z) : NoDup (grid_threads num_blocks).
Proof.
  unfold grid_threads. apply NoDup_bind.
  - intros b1 b2 th _ _ H1 H2.
    apply list_elem_of_fmap in H1 as (t1 & -> & _).
    apply list_elem_of_fmap in H2 as (t2 & Heq & _). congruence.
  - intros b _. apply NoDup_fmap_2_strong; [|apply NoDup_seqZ]. intros; congruence.
  - apply NoDup_seqZ.
Qed.

Lemma global_id_grid (num_blocks : Z) (th : thread) :
  1024 * num_blocks ≤ 2 ^ 32 → th ∈ grid_threads num_blocks →
  global_id th = 1024 * th.1 + th.2 ∧ 0 ≤ global_id th < 1024 * num_blocks.
Proof.
  intros Hmax Hth. apply elem_of_grid_threads in Hth.
  destruct th as [b t]. simpl in *. rewrite global_id_block by lia. lia.
Qed.

(** The global indices of a grid, in launch order. *)
Lemma global_ids_grid (num_blocks : Z) :
  0 ≤ num_blocks → 1024 * num_blocks ≤ 2 ^ 32 →
  global_id <$> grid_threads num_blocks = seqZ 0 (1024 * num_blocks).
Proof.
  intros Hb. revert num_blocks Hb.
  refine (natlike_ind _ _ _); [intros; reflexivity|].
  intros B HB IH Hmax. unfold grid_threads in *.
  replace (Z.succ B) with (B + 1) in * by lia.
  rewrite (seqZ_app 0 B 1) by lia. rewrite bind_app, fmap_app, IH by lia.
  replace (1024 * (B + 1)) with (1024 * B + 1024) by lia.
  rewrite (seqZ_app 0 (1024 * B) 1024) by lia. f_equal.
  rewrite (seqZ_cons _ 1), seqZ_nil by lia. rewrite !Z.add_0_l.
  assert (Hsingle : ∀ (f : Z → list thread) b, [b] ≫= f = f b)
    by (intros; simpl; apply app_nil_r).
  rewrite Hsingle. rewrite <- list_fmap_compose.
  replace (seqZ (1024 * B) 1024) with (seqZ (1024 * B + 0) 1024) by (f_equal; lia).
  rewrite <- (fmap_add_seqZ (1024 * B) 0 1024). unfold block_threads, threads_per_block.
  apply list_fmap_ext. intros i t Ht.
  apply lookup_seqZ in Ht as [-> Hi]. simpl. rewrite global_id_block; lia.
Qed.

(** A fair scheduler hands out the threads of the grid, each once. *)
Lemma fair_grid (σ : scheduler) (num_blocks : Z) :
  fair σ →
  NoDup (σ _ (grid_threads num_blocks))
  ∧ ∀ th, th ∈ σ _ (grid_threads num_blocks) ↔ th ∈ grid_threads num_blocks.
Proof.
  intros Hfair. pose proof (Hfair _ (grid_threads num_blocks)) as Hperm. split.
  - rewrite Hperm. apply NoDup_grid_threads.
  - intros th. rewrite Hperm. reflexivity.
Qed.

Lemma NoDup_global_ids (num_blocks : Z) (l : list thread) (act : thread → bool) :
  1024 * num_blocks ≤ 2 ^ 32 → NoDup l → (∀ th, th ∈ l → th ∈ grid_threads num_blocks) →
  NoDup (global_id <$> filter (λ th, act th = true) l).
Proof.
  intros Hmax Hnd Hin. apply NoDup_fmap_2_strong; [|apply NoDup_filter; assumption].
  intros th1 th2 H1 H2 Heq.
  apply list_elem_of_filter in H1 as [_ H1]. apply list_elem_of_filter in H2 as [_ H2].
  pose proof (global_id_grid num_blocks th1 Hmax (Hin _ H1)) as [E1 _].
  pose proof (global_id_grid num_blocks th2 Hmax (Hin _ H2)) as [E2 _].
  apply Hin, elem_of_grid_threads in H1. apply Hin, elem_of_grid_threads in H2.
  destruct th1 as [b1 t1], th2 as [b2 t2]. simpl in *.
  assert (b1 = b2 ∧ t1 = t2) as [-> ->] by lia. reflexivity.
Qed.

(** ** [finish_prefix_sum] and [create_scratch] *)

Lemma finish_prefix_sum_spec (σ : scheduler) (N B : Z) (g : SparseGraph) (bs : list Z) :
  fair σ →
  Z.of_nat (length (neighbours_start_at g)) = N →
  N ≤ 1024 * B → 1024 * B ≤ 2 ^ 32 → B ≤ Z.of_nat (length bs) + 1 →
  ∃ offs',
    launch σ B (finish_prefix_sum bs N) g = Done (set_neighbours_start_at g offs')
    ∧ length offs' = length (neighbours_start_at g)
    ∧ ∀ p, 0 ≤ p < N →
        cell offs' p = if 1024 <=? p
                       then to_int (cell (neighbours_start_at g) p + cell bs (p `div` 1024 - 1))
                       else cell (neighbours_start_at g) p.
Proof.
  intros Hfair Hlen HNB Hmax Hbs. unfold launch.
  destruct (fair_grid σ B Hfair) as [Hnd Hmem].
  destruct (for_each_cells neighbours_start_at set_neighbours_start_at
              ltac:(done) ltac:(done) ltac:(by intros [])
              (finish_prefix_sum bs N) global_id
              (λ th, (global_id th <? N) && (0 <? th.1))
              (λ th old, to_int (old + cell bs (th.1 - 1)))
              (σ _ (grid_threads B)) g)
    as (offs' & Hrun & Hlo & Hown & Hother).
  - intros th cur Hth Hcur. apply Hmem in Hth.
    pose proof (global_id_grid B th Hmax Hth) as [_ Hgid].
    apply elem_of_grid_threads in Hth. unfold finish_prefix_sum.
    destruct ((global_id th <? N) && (0 <? th.1)) eqn:Hact; [|reflexivity].
    apply andb_true_iff in Hact as [H1 H2]. apply Z.ltb_lt in H1, H2.
    rewrite (rd_cell BlockSums bs) by lia. rewrite bind_Done.
    rewrite (rd_cell Offsets) by lia. rewrite bind_Done.
    rewrite wr_in by lia. reflexivity.
  - intros th Hth Hact. apply andb_true_iff in Hact as [H1 _]. apply Z.ltb_lt in H1.
    apply Hmem in Hth. pose proof (global_id_grid B th Hmax Hth). lia.
  - apply (NoDup_global_ids B); [assumption | assumption | apply Hmem].
  - exists offs'. split; [exact Hrun|]. split; [exact Hlo|].
    intros p Hp. destruct (block_decompose p) as [Hdm Hm].
    assert (0 ≤ p `div` 1024) by (apply Z.div_pos; lia).
    destruct (Z.leb_spec 1024 p) as [Hle|Hgt].
    + assert (Hth : (p `div` 1024, p `mod` 1024) ∈ grid_threads B).
      { apply elem_of_grid_threads. simpl. lia. }
      pose proof (global_id_grid B _ Hmax Hth) as [Hgid _]. simpl in Hgid.
      rewrite <- Hdm in Hgid.
      specialize (Hown (p `div` 1024, p `mod` 1024)). rewrite Hgid in Hown.
      apply Hown; [apply Hmem; assumption|].
      apply andb_true_iff. split; [apply Z.ltb_lt | apply Z.ltb_lt; simpl]; lia.
    + apply Hother; [lia|]. intros th Hth Hact Heq. apply Hmem in Hth.
      pose proof (global_id_grid B th Hmax Hth) as [Hgid _].
      apply elem_of_grid_threads in Hth.
      apply andb_true_iff in Hact as [_ H2]. apply Z.ltb_lt in H2. lia.
Qed.

Lemma create_scratch_spec (σ : scheduler) (B : Z) (g : SparseGraph) (scratch : list Z) :
  fair σ →
  0 ≤ sg_n g → sg_n g ≤ Z.of_nat (length (neighbours_start_at g)) →
  sg_n g ≤ Z.of_nat (length scratch) →
  sg_n g ≤ 1024 * B → 1024 * B ≤ 2 ^ 32 →
  ∃ scratch',
    launch σ B (create_scratch g) scratch = Done scratch'
    ∧ length scratch' = length scratch
    ∧ ∀ v, 0 ≤ v < sg_n g → cell scratch' v = cell (neighbours_start_at g) v.
Proof.
  intros Hfair Hn Hlo Hls HnB Hmax. unfold launch.
  destruct (fair_grid σ B Hfair) as [Hnd Hmem].
  destruct (for_each_cells (λ s, s) (λ _ a, a) ltac:(done) ltac:(done) ltac:(done)
              (create_scratch g) global_id
              (λ th, global_id th <? sg_n g)
              (λ th _, cell (neighbours_start_at g) (global_id th))
              (σ _ (grid_threads B)) scratch)
    as (scratch' & Hrun & Hlen & Hown & _).
  - intros th cur Hth Hcur. cbn beta in Hcur. apply Hmem in Hth.
    pose proof (global_id_grid B th Hmax Hth) as [_ Hgid]. unfold create_scratch.
    destruct (Z.ltb_spec (global_id th) (sg_n g)); [|reflexivity].
    rewrite rd_cell by lia. rewrite bind_Done, wr_in by lia. reflexivity.
  - intros th Hth Hact. apply Z.ltb_lt in Hact. cbn beta.
    apply Hmem in Hth. pose proof (global_id_grid B th Hmax Hth). lia.
  - apply (NoDup_global_ids B); [assumption | assumption | apply Hmem].
  - exists scratch'. split; [exact Hrun|]. split; [exact Hlen|].
    intros v Hv. destruct (block_decompose v) as [Hdm Hm].
    assert (0 ≤ v `div` 1024) by (apply Z.div_pos; lia).
    assert (Hth : (v `div` 1024, v `mod` 1024) ∈ grid_threads B).
    { apply elem_of_grid_threads. simpl. lia. }
    pose proof (global_id_grid B _ Hmax Hth) as [Hgid _]. simpl in Hgid.
    rewrite <- Hdm in Hgid.
    specialize (Hown (v `div` 1024, v `mod` 1024)). rewrite Hgid in Hown.
    apply Hown; [apply Hmem; assumption | apply Z.ltb_lt; lia].
Qed.

(** ** The scan of the offsets *)

Lemma num_blocks_for_spec (count : Z) :
  0 ≤ count ≤ 2 ^ 32 →
  0 ≤ num_blocks_for count
  ∧ 1024 * (num_blocks_for count - 1) < count ≤ 1024 * num_blocks_for count.
Proof.
  intros H. unfold num_blocks_for, threads_per_block.
  rewrite to_size_t_id by lia.
  pose proof (Z.div_mod (count + 1024 - 1) 1024 ltac:(lia)).
  pose proof (Z.mod_pos_bound (count + 1024 - 1) 1024 ltac:(lia)).
  assert (0 ≤ (count + 1024 - 1) `div` 1024) by (apply Z.div_pos; lia).
  rewrite to_uint32_id by lia. lia.
Qed.

Lemma length_cudaMalloc (count : Z) : 0 ≤ count → Z.of_nat (length (cudaMalloc count)) = count.
Proof. intros H. unfold cudaMalloc. rewrite length_replicate. lia. Qed.

(** The group totals add up to the running sum at the end of each group. *)
Lemma block_totals (N B : Z) (offs0 bs : list Z) :
  1024 * (B - 1) < N ≤ 1024 * B → Z.of_nat (length bs) = B →
  (∀ c, 0 ≤ c < B →
     cell bs c = to_int (prefix_total offs0 (Z.min (1024 * (c + 1)) N)
                         - prefix_total offs0 (1024 * c))) →
  ∀ c, 0 ≤ c → c < B →
    to_int (prefix_total bs (c + 1)) = to_int (prefix_total offs0 (Z.min (1024 * (c + 1)) N)).
Proof.
  intros HB Hlen Hbs. refine (natlike_ind _ _ _).
  - intros H0. rewrite prefix_total_succ by lia.
    rewrite (prefix_total_nonpos bs 0) by lia. rewrite Hbs by lia.
    rewrite (prefix_total_nonpos offs0 (1024 * 0)) by lia.
    rewrite Z.add_0_l, Z.sub_0_r. apply to_int_id, to_int_is_int.
  - intros c Hc IH HcB. replace (Z.succ c) with (c + 1) in * by lia.
    rewrite prefix_total_succ by lia. rewrite Hbs by lia.
    rewrite to_int_add_r, <- to_int_add_l, IH by lia.
    rewrite to_int_add_l. f_equal.
    rewrite (Z.min_l (1024 * (c + 1)) N) by lia. lia.
Qed.

Lemma scan_offsets_spec (σ : scheduler) (g : SparseGraph) (n : Z) :
  fair σ →
  0 ≤ n → n + 1 ≤ 1024 * shared_capacity →
  Z.of_nat (length (neighbours_start_at g)) = n + 1 →
  (∀ p, 0 ≤ p ≤ n → is_int (cell (neighbours_start_at g) p)) →
  ∃ offs',
    scan_offsets σ g n = Done (set_neighbours_start_at g offs')
    ∧ length offs' = length (neighbours_start_at g)
    ∧ ∀ p, 0 ≤ p ≤ n → cell offs' p = to_int (prefix_total (neighbours_start_at g) (p + 1)).
Proof.
  unfold shared_capacity. intros Hfair Hn Hcap Hlen Hint. unfold scan_offsets.
  rewrite (to_size_t_id (n + 1)) by lia.
  set (N := n + 1) in *. set (B := num_blocks_for N).
  destruct (num_blocks_for_spec N ltac:(lia)) as [HB0 HB]. fold B in HB0, HB.
  set (offs0 := neighbours_start_at g) in *.
  destruct (prefix_sum_launch_spec N B offs0 Hlen ltac:(lia) HB ltac:(lia)) with
    (σ := σ) (g := g) (bs := cudaMalloc B) as (o1 & bs1 & Hrun1 & Hlo1 & Hlb1 & Ho1 & Hbs1);
    [intros; apply Hint; lia | assumption | reflexivity | apply length_cudaMalloc; assumption |].
  rewrite Hrun1, bind_Done. cbn [fst snd]. clear Hrun1.
  pose proof (length_cudaMalloc B HB0) as HlB.
  destruct (single_block_prefix_sum_spec bs1 B) as (bs2 & Hrun2 & Hlb2 & Hbs2 & _);
    [unfold shared_capacity; lia | lia | intros c Hc; rewrite Hbs1 by lia; apply to_int_is_int |].
  rewrite Hrun2, bind_Done. clear Hrun2.
  destruct (finish_prefix_sum_spec σ N B (set_neighbours_start_at g o1) bs2 Hfair)
    as (o2 & Hrun3 & Hlo2 & Ho2); [simpl; lia | lia | lia | lia |].
  rewrite Hrun3. exists o2. split; [reflexivity|].
  simpl in Hlo2, Ho2. split; [congruence|].
  intros p Hp. rewrite Ho2 by lia. rewrite !Ho1 by lia.
  destruct (block_decompose p) as [Hdm Hm].
  assert (0 ≤ p `div` 1024) by (apply Z.div_pos; lia).
  destruct (Z.leb_spec 1024 p) as [Hle|Hgt].
  - rewrite Hbs2 by lia.
    replace (p `div` 1024 - 1 + 1) with (p `div` 1024) by lia.
    pose proof (block_totals N B offs0 bs1 HB ltac:(lia)) as Htot.
    specialize (Htot ltac:(intros; apply Hbs1; lia) (p `div` 1024 - 1) ltac:(lia) ltac:(lia)).
    replace (p `div` 1024 - 1 + 1) with (p `div` 1024) in Htot by lia.
    rewrite Htot. rewrite Z.min_l by lia.
    rewrite to_int_add_l, to_int_add_r. f_equal. lia.
  - assert (p `div` 1024 = 0) as -> by lia.
    rewrite (prefix_total_nonpos offs0 (1024 * 0)) by lia. rewrite Z.sub_0_r. reflexivity.
Qed.

(** ** Threads and the edges they handle *)

Lemma omap_none {A B : Type} (f : A → option B) (l : list A) :
  (∀ a, a ∈ l → f a = None) → omap f l = [].
Proof.
  induction l as [|a l IH]; intros H; [reflexivity|]. simpl.
  rewrite H by left. apply IH. intros. apply H. right. assumption.
Qed.

Lemma omap_fmap {A B C : Type} (f : B → option C) (h : A → B) (l : list A) :
  omap f (h <$> l) = omap (λ a, f (h a)) l.
Proof.
  induction l as [|a l IH]; [reflexivity|]. csimpl.
  destruct (f (h a)); rewrite IH; reflexivity.
Qed.

Lemma omap_cons {A B : Type} (f : A → option B) (a : A) (l : list A) :
  omap f (a :: l) = match f a with Some b => b :: omap f l | None => omap f l end.
Proof. reflexivity. Qed.

Lemma pick_all (pre es : list edge_t) :
  omap (pick (pre ++ es) (Z.of_nat (length (pre ++ es))))
       (seqZ (Z.of_nat (length pre)) (Z.of_nat (length es))) = es.
Proof.
  revert pre. induction es as [|e es IH]; intros pre; [reflexivity|].
  rewrite seqZ_cons by (simpl; lia). rewrite omap_cons.
  assert (Hpick : pick (pre ++ e :: es) (Z.of_nat (length (pre ++ e :: es)))
                    (Z.of_nat (length pre)) = Some e).
  { unfold pick. rewrite length_app. simpl.
    destruct (Z.ltb_spec (Z.of_nat (length pre)) (Z.of_nat (length pre + S (length es))));
      [|lia].
    rewrite Nat2Z.id. apply list_lookup_middle. reflexivity. }
  rewrite Hpick. f_equal.
  replace (Z.succ (Z.of_nat (length pre))) with (Z.of_nat (length (pre ++ [e])))
    by (rewrite length_app; simpl; lia).
  replace (Z.pred (Z.of_nat (length (e :: es)))) with (Z.of_nat (length es)) by (simpl; lia).
  rewrite (cons_middle e pre es), app_assoc. apply IH.
Qed.

Lemma jobs_grid (edges : list edge_t) (m num_blocks : Z) :
  Z.of_nat (length edges) = m → m ≤ 1024 * num_blocks → 1024 * num_blocks ≤ 2 ^ 32 →
  omap (job edges m) (grid_threads num_blocks) = edges.
Proof.
  intros Hlen Hm Hmax.
  assert (0 ≤ num_blocks) by lia.
  change (job edges m) with (λ th, pick edges m (global_id th)).
  rewrite <- (omap_fmap (pick edges m) global_id), global_ids_grid by assumption.
  replace (1024 * num_blocks) with (m + (1024 * num_blocks - m)) by lia.
  rewrite seqZ_app, omap_app by lia.
  rewrite (omap_none _ (seqZ (0 + m) _)).
  - rewrite app_nil_r. subst m. apply (pick_all [] edges).
  - intros i Hi. apply elem_of_seqZ in Hi. unfold pick.
    destruct (Z.ltb_spec i m); [lia | reflexivity].
Qed.

(** Under a fair scheduler the threads work through a permutation of the
    edge list. *)
Lemma jobs_fair (σ : scheduler) (edges : list edge_t) (m num_blocks : Z) :
  fair σ →
  Z.of_nat (length edges) = m → m ≤ 1024 * num_blocks → 1024 * num_blocks ≤ 2 ^ 32 →
  omap (job edges m) (σ _ (grid_threads num_blocks)) ≡ₚ edges.
Proof.
  intros Hfair Hlen Hm Hmax. rewrite (Hfair _ (grid_threads num_blocks)).
  rewrite jobs_grid by assumption. reflexivity.
Qed.

Lemma job_Some (edges : list edge_t) (m : Z) (th : thread) (e : edge_t) :
  job edges m th = Some e →
  global_id th < m ∧ rd Edges edges (global_id th) = Done e.
Proof.
  unfold job. destruct (Z.ltb_spec (global_id th) m); [|discriminate].
  intros He. split; [assumption|]. apply rd_lookup; [|assumption].
  unfold global_id, to_uint32. apply Z.mod_pos_bound. lia.
Qed.

Lemma job_None (edges : list edge_t) (m : Z) (th : thread) :
  Z.of_nat (length edges) = m → job edges m th = None → ¬ global_id th < m.
Proof.
  unfold job. intros Hlen. destruct (Z.ltb_spec (global_id th) m); [|lia].
  intros Hnone. apply lookup_ge_None in Hnone.
  assert (0 ≤ global_id th) by (unfold global_id, to_uint32; apply Z.mod_pos_bound; lia).
  lia.
Qed.

(** ** [histogram] *)

Lemma histogram_job (arr : list edge_t) (m : Z) (th : thread) (g : SparseGraph) :
  Z.of_nat (length arr) = sg_m g →
  histogram arr m th g
  = match job arr (sg_m g) th with
    | Some e => offs ← histogram_edge (sg_n g) e (neighbours_start_at g);
                Done (set_neighbours_start_at g offs)
    | None => Done g
    end.
Proof.
  intros Hlen. unfold histogram. cbv zeta.
  destruct (job arr (sg_m g) th) as [e|] eqn:Hjob.
  - apply job_Some in Hjob as [Hlt Hrd].
    destruct (Z.ltb_spec (global_id th) (sg_m g)); [|lia].
    rewrite Hrd, bind_Done. unfold histogram_edge.
    destruct (to_size_t (edge_x e) <? sg_n g).
    + destruct (atomicAdd Offsets (neighbours_start_at g) (edge_x e + 1) 1); reflexivity.
    + destruct g; reflexivity.
  - apply job_None in Hjob; [|assumption].
    destruct (Z.ltb_spec (global_id th) (sg_m g)); [lia | reflexivity].
Qed.

Lemma histogram_jobs (arr : list edge_t) (m : Z) (l : list thread) (g : SparseGraph) :
  Z.of_nat (length arr) = sg_m g →
  for_each l (histogram arr m) g
  = offs ← for_each (omap (job arr (sg_m g)) l) (histogram_edge (sg_n g)) (neighbours_start_at g);
    Done (set_neighbours_start_at g offs).
Proof.
  intros Hlen. revert g Hlen. induction l as [|th l IH]; intros g Hlen.
  - destruct g; reflexivity.
  - cbn [for_each]. rewrite omap_cons, histogram_job by assumption.
    destruct (job arr (sg_m g) th) as [e|]; [|rewrite bind_Done; apply IH; assumption].
    cbn [for_each].
    destruct (histogram_edge (sg_n g) e (neighbours_start_at g)) as [offs| |]; try reflexivity.
    rewrite !bind_Done. rewrite IH by assumption. reflexivity.
Qed.

Lemma destinations_cons (e : edge_t) (es : list edge_t) (v : Z) :
  destinations (e :: es) v
  = if edge_x e =? v then edge_y e :: destinations es v else destinations es v.
Proof.
  unfold destinations, has_source. destruct (Z.eqb_spec (edge_x e) v) as [Heq|Hne].
  - rewrite filter_cons_True by (apply Z.eqb_eq; assumption). reflexivity.
  - rewrite filter_cons_False; [reflexivity|]. intros H. apply Z.eqb_eq in H. contradiction.
Qed.

Lemma destinations_app (es1 es2 : list edge_t) (v : Z) :
  destinations (es1 ++ es2) v = destinations es1 v ++ destinations es2 v.
Proof. unfold destinations. rewrite filter_app, fmap_app. reflexivity. Qed.

Lemma destinations_perm (es1 es2 : list edge_t) (v : Z) :
  es1 ≡ₚ es2 → destinations es1 v ≡ₚ destinations es2 v.
Proof. intros H. unfold destinations. rewrite H. reflexivity. Qed.

Lemma out_degree_perm (es1 es2 : list edge_t) (v : Z) :
  es1 ≡ₚ es2 → out_degree es1 v = out_degree es2 v.
Proof. intros H. unfold out_degree. rewrite (destinations_perm es1 es2 v H). reflexivity. Qed.

Lemma out_degree_cons (e : edge_t) (es : list edge_t) (v : Z) :
  out_degree (e :: es) v = (if edge_x e =? v then 1 else 0) + out_degree es v.
Proof.
  unfold out_degree. rewrite destinations_cons.
  destruct (edge_x e =? v); simpl length; lia.
Qed.

Lemma out_degree_bounds (es : list edge_t) (v : Z) :
  0 ≤ out_degree es v ≤ Z.of_nat (length es).
Proof.
  unfold out_degree, destinations. rewrite length_fmap.
  pose proof (length_filter (λ e, has_source v e = true) es). lia.
Qed.

Lemma histogram_edge_in (n : Z) (e : edge_t) (offs : list Z) :
  0 ≤ n ≤ 2 ^ 63 → is_int (edge_x e) → 0 ≤ edge_x e < n →
  Z.of_nat (length offs) = n + 1 →
  histogram_edge n e offs
  = Done (<[Z.to_nat (edge_x e + 1) := to_int (cell offs (edge_x e + 1) + 1)]> offs).
Proof.
  intros Hn Hx Hr Hlen. unfold histogram_edge.
  apply (source_in_range (edge_x e) n Hx Hn) in Hr. rewrite Hr.
  apply (source_in_range (edge_x e) n Hx Hn) in Hr.
  rewrite atomicAdd_in by lia. reflexivity.
Qed.

Lemma histogram_edge_out (n : Z) (e : edge_t) (offs : list Z) :
  0 ≤ n ≤ 2 ^ 63 → is_int (edge_x e) → ¬ 0 ≤ edge_x e < n →
  histogram_edge n e offs = Done offs.
Proof.
  intros Hn Hx Hr. unfold histogram_edge.
  destruct (to_size_t (edge_x e) <? n) eqn:Hin; [|reflexivity].
  apply (source_in_range (edge_x e) n Hx Hn) in Hin. contradiction.
Qed.

(** The edges add their out-degrees onto whatever the offsets held. *)
Lemma histogram_edges_spec (n : Z) (es : list edge_t) (offs : list Z) :
  0 ≤ n ≤ 2 ^ 63 → Z.of_nat (length offs) = n + 1 →
  (∀ p, 0 ≤ p ≤ n → is_int (cell offs p)) →
  Forall int_edge es →
  ∃ offs',
    for_each es (histogram_edge n) offs = Done offs'
    ∧ length offs' = length offs
    ∧ cell offs' 0 = cell offs 0
    ∧ ∀ v, 0 ≤ v < n → cell offs' (v + 1) = to_int (cell offs (v + 1) + out_degree es v).
Proof.
  intros Hn. revert offs. induction es as [|e es IH]; intros offs Hlen Hint Hes.
  - exists offs. split; [reflexivity|]. split; [reflexivity|]. split; [reflexivity|].
    intros v Hv. unfold out_degree. simpl. rewrite Z.add_0_r.
    symmetry. apply to_int_id, Hint. lia.
  - apply Forall_cons in Hes as [[Hx _] Hes]. cbn [for_each].
    destruct (decide (0 ≤ edge_x e < n)) as [Hin|Hout].
    + rewrite histogram_edge_in by (assumption || lia). rewrite bind_Done.
      set (offs1 := <[Z.to_nat (edge_x e + 1) := to_int (cell offs (edge_x e + 1) + 1)]> offs).
      destruct (IH offs1) as (offs' & Hrun & Hlen' & H0 & Hcells).
      * unfold offs1. rewrite length_insert. assumption.
      * intros p Hp. unfold offs1. destruct (decide (p = edge_x e + 1)) as [->|Hne].
        -- rewrite cell_insert_eq by lia. apply to_int_is_int.
        -- rewrite cell_insert_ne by lia. apply Hint. assumption.
      * assumption.
      * exists offs'. split; [exact Hrun|]. split.
        { rewrite Hlen'. unfold offs1. apply length_insert. }
        split.
        { rewrite H0. unfold offs1. apply cell_insert_ne; lia. }
        intros v Hv. rewrite Hcells by assumption. rewrite out_degree_cons. unfold offs1.
        destruct (Z.eqb_spec (edge_x e) v) as [->|Hne].
        -- rewrite cell_insert_eq by lia. rewrite to_int_add_l. f_equal. lia.
        -- rewrite cell_insert_ne by lia. reflexivity.
    + rewrite histogram_edge_out by (assumption || lia). rewrite bind_Done.
      destruct (IH offs Hlen Hint Hes) as (offs' & Hrun & Hlen' & H0 & Hcells).
      exists offs'. split; [exact Hrun|]. split; [assumption|]. split; [assumption|].
      intros v Hv. rewrite Hcells by assumption. rewrite out_degree_cons.
      destruct (Z.eqb_spec (edge_x e) v); [lia | reflexivity].
Qed.

Lemma num_blocks_edges_spec (m : Z) :
  0 ≤ m ≤ 2 ^ 31 →
  0 ≤ num_blocks_for m ∧ m ≤ 1024 * num_blocks_for m ∧ 1024 * num_blocks_for m ≤ 2 ^ 32.
Proof.
  intros Hm. destruct (num_blocks_for_spec m ltac:(lia)) as [H0 H1]. lia.
Qed.

(** The launch of [histogram], under any fair scheduler. *)
Lemma histogram_launch_spec (σ : scheduler) (g : SparseGraph) (edges : list edge_t) (m : Z) :
  fair σ →
  sg_m g = m → Z.of_nat (length edges) = m → m ≤ 2 ^ 31 →
  0 ≤ sg_n g ≤ 2 ^ 63 → Z.of_nat (length (neighbours_start_at g)) = sg_n g + 1 →
  (∀ p, 0 ≤ p ≤ sg_n g → is_int (cell (neighbours_start_at g) p)) →
  Forall int_edge edges →
  ∃ offs',
    launch σ (num_blocks_for m) (histogram edges m) g = Done (set_neighbours_start_at g offs')
    ∧ length offs' = length (neighbours_start_at g)
    ∧ cell offs' 0 = cell (neighbours_start_at g) 0
    ∧ ∀ v, 0 ≤ v < sg_n g →
        cell offs' (v + 1) = to_int (cell (neighbours_start_at g) (v + 1) + out_degree edges v).
Proof.
  intros Hfair Hgm Hlen Hm Hn Hlo Hint Hes. unfold launch.
  destruct (num_blocks_edges_spec m ltac:(lia)) as (HB0 & HB1 & HB2).
  rewrite histogram_jobs by lia. rewrite Hgm.
  pose proof (jobs_fair σ edges m (num_blocks_for m) Hfair Hlen HB1 HB2) as Hperm.
  destruct (histogram_edges_spec (sg_n g)
              (omap (job edges m) (σ _ (grid_threads (num_blocks_for m))))
              (neighbours_start_at g) Hn Hlo Hint)
    as (offs' & Hrun & Hlen' & H0 & Hcells).
  { rewrite Hperm. assumption. }
  rewrite Hrun, bind_Done. exists offs'. split; [reflexivity|]. split; [assumption|].
  split; [assumption|]. intros v Hv. rewrite Hcells by assumption.
  rewrite (out_degree_perm _ edges v Hperm). reflexivity.
Qed.

(** ** [store] *)

Lemma store_job (edges : list edge_t) (th : thread) (g : SparseGraph) (scratch : list Z) :
  Z.of_nat (length edges) = sg_m g →
  store edges th (g, scratch)
  = match job edges (sg_m g) th with
    | Some e => st ← store_edge e (neighbours g, scratch);
                Done (set_neighbours g st.1, st.2)
    | None => Done (g, scratch)
    end.
Proof.
  intros Hlen. unfold store. cbv zeta. cbn [fst snd].
  destruct (job edges (sg_m g) th) as [e|] eqn:Hjob.
  - apply job_Some in Hjob as [Hlt Hrd].
    destruct (Z.ltb_spec (global_id th) (sg_m g)); [|lia].
    rewrite Hrd, bind_Done. unfold store_edge. cbn [fst snd].
    destruct (atomicAdd Counters scratch (edge_x e) 1) as [r| |]; try reflexivity.
    rewrite !bind_Done.
    destruct (wr Neighbours (neighbours g) r.1 (edge_y e)); reflexivity.
  - apply job_None in Hjob; [|assumption].
    destruct (Z.ltb_spec (global_id th) (sg_m g)); [lia | reflexivity].
Qed.

Lemma store_jobs (edges : list edge_t) (l : list thread) (g : SparseGraph) (scratch : list Z) :
  Z.of_nat (length edges) = sg_m g →
  for_each l (store edges) (g, scratch)
  = st ← for_each (omap (job edges (sg_m g)) l) store_edge (neighbours g, scratch);
    Done (set_neighbours g st.1, st.2).
Proof.
  intros Hlen. revert g scratch Hlen. induction l as [|th l IH]; intros g scratch Hlen.
  - destruct g; reflexivity.
  - cbn [for_each]. rewrite omap_cons, store_job by assumption.
    destruct (job edges (sg_m g) th) as [e|]; [|rewrite bind_Done; apply IH; assumption].
    cbn [for_each].
    destruct (store_edge e (neighbours g, scratch)) as [[nb cnt]| |]; try reflexivity.
    rewrite !bind_Done. cbn [fst snd]. rewrite IH by assumption. reflexivity.
Qed.

Lemma out_degree_nil (v : Z) : out_degree [] v = 0.
Proof. reflexivity. Qed.

Lemma out_degree_app (es1 es2 : list edge_t) (v : Z) :
  out_degree (es1 ++ es2) v = out_degree es1 v + out_degree es2 v.
Proof. unfold out_degree. rewrite destinations_app, length_app. lia. Qed.

Lemma segment_eq (a l : list Z) (lo : Z) :
  0 ≤ lo → lo + Z.of_nat (length l) ≤ Z.of_nat (length a) →
  (∀ k, 0 ≤ k < Z.of_nat (length l) → cell a (lo + k) = cell l k) →
  segment a lo (lo + Z.of_nat (length l)) = l.
Proof.
  intros Hlo Hlen Hcells. unfold segment.
  replace (Z.to_nat (lo + Z.of_nat (length l) - lo)) with (length l) by lia.
  apply list_eq. intros i. destruct (decide (i < length l)%nat) as [Hi|Hi].
  - rewrite lookup_take_lt, lookup_drop by assumption.
    specialize (Hcells (Z.of_nat i) ltac:(lia)).
    replace (Z.to_nat lo + i)%nat with (Z.to_nat (lo + Z.of_nat i)) by lia.
    rewrite (lookup_cell a (lo + Z.of_nat i)) by lia.
    rewrite Hcells. rewrite <- (lookup_cell l (Z.of_nat i)) by lia.
    rewrite Nat2Z.id. reflexivity.
  - rewrite lookup_take_ge by lia. symmetry. apply lookup_ge_None. lia.
Qed.

Section scatter.
Variables (n m : Z) (offs : list Z) (all : list edge_t).
Hypothesis Hn : 0 ≤ n.
Hypothesis Hm : m < 2 ^ 31.
Hypothesis Hoffs0 : 0 ≤ cell offs 0.
Hypothesis Hoffs : ∀ v, 0 ≤ v < n → cell offs (v + 1) = cell offs v + out_degree all v.
Hypothesis Hoffsn : cell offs n ≤ m.

Lemma offsets_mono (u v : Z) : 0 ≤ u → u ≤ v → v ≤ n → cell offs u ≤ cell offs v.
Proof.
  intros Hu Huv. replace v with (u + (v - u)) by lia.
  assert (Hd : 0 ≤ v - u) by lia. revert Hd. generalize (v - u). clear Huv v.
  refine (natlike_ind _ _ _); [intros; rewrite Z.add_0_r; lia|].
  intros d Hd IH Hle. replace (u + Z.succ d) with (u + d + 1) by lia.
  rewrite Hoffs by lia. pose proof (out_degree_bounds all (u + d)). lia.
Qed.

Lemma store_edge_spec (done : list edge_t) (e : edge_t) (nb cnt : list Z) :
  valid_edge n e →
  (∀ v, 0 ≤ v < n → out_degree (done ++ [e]) v ≤ out_degree all v) →
  stored n m offs done nb cnt →
  ∃ nb' cnt', store_edge e (nb, cnt) = Done (nb', cnt') ∧ stored n m offs (done ++ [e]) nb' cnt'.
Proof.
  intros [Hx Hy] Hroom (Hlnb & Hlcnt & Hcnt & Hnb).
  set (x := edge_x e) in *. set (c := cell cnt x).
  assert (Hdeg : ∀ v, out_degree (done ++ [e]) v = out_degree done v + (if x =? v then 1 else 0)).
  { intros v. rewrite out_degree_app, out_degree_cons, out_degree_nil. fold x. lia. }
  pose proof (Hcnt x Hx) as Hc. fold c in Hc.
  pose proof (Hroom x Hx) as Hrx. rewrite Hdeg, Z.eqb_refl in Hrx.
  pose proof (out_degree_bounds done x) as Hdx.
  pose proof (offsets_mono 0 x ltac:(lia) ltac:(lia) ltac:(lia)) as Hlow.
  pose proof (offsets_mono (x + 1) n ltac:(lia) ltac:(lia) ltac:(lia)) as Hhigh.
  pose proof (Hoffs x Hx) as Hnext.
  assert (Hcm : 0 ≤ c < m) by lia.
  unfold store_edge. cbn [fst snd]. fold x.
  rewrite atomicAdd_in by lia. rewrite bind_Done. cbn [fst snd]. fold c.
  rewrite wr_in by lia. rewrite bind_Done.
  rewrite (to_int_id (c + 1)) by (unfold is_int; lia).
  eexists _, _. split; [reflexivity|].
  split; [rewrite length_insert; assumption|]. split; [rewrite length_insert; assumption|].
  split.
  - intros v Hv. rewrite Hdeg. destruct (Z.eqb_spec x v) as [<-|Hne].
    + rewrite cell_insert_eq by lia. lia.
    + rewrite cell_insert_ne by lia. rewrite Hcnt by assumption. lia.
  - intros v k Hv Hk. rewrite Hdeg in Hk. rewrite destinations_app.
    assert (Hone : destinations [e] v = if x =? v then [edge_y e] else []).
    { rewrite destinations_cons. fold x. destruct (x =? v); reflexivity. }
    rewrite Hone. destruct (Z.eqb_spec x v) as [<-|Hne].
    + destruct (decide (k = out_degree done x)) as [->|Hk'].
      * replace (cell offs x + out_degree done x) with c by lia.
        rewrite cell_insert_eq by lia. symmetry. apply cell_lookup.
        unfold out_degree. rewrite Nat2Z.id. apply list_lookup_middle. reflexivity.
      * rewrite cell_insert_ne by lia. rewrite Hnb by lia.
        unfold cell. rewrite lookup_app_l; [reflexivity|]. unfold out_degree in *. lia.
    + rewrite app_nil_r. rewrite <- Hnb by lia.
      pose proof (Hroom v Hv) as Hrv. rewrite Hdeg in Hrv.
      pose proof (Hoffs v Hv) as Hnv.
      apply cell_insert_ne; [lia | |].
      * pose proof (offsets_mono 0 v ltac:(lia) ltac:(lia) ltac:(lia)). lia.
      * destruct (Z.lt_ge_cases v x).
        -- pose proof (offsets_mono (v + 1) x ltac:(lia) ltac:(lia) ltac:(lia)).
           destruct (Z.eqb_spec x v); lia.
        -- pose proof (offsets_mono (x + 1) v ltac:(lia) ltac:(lia) ltac:(lia)).
           destruct (Z.eqb_spec x v); lia.
Qed.

Lemma store_edges_spec (rest : list edge_t) :
  ∀ (done : list edge_t) (nb cnt : list Z),
    Forall (valid_edge n) rest →
    (∀ v, 0 ≤ v < n → out_degree (done ++ rest) v ≤ out_degree all v) →
    stored n m offs done nb cnt →
    ∃ nb' cnt',
      for_each rest store_edge (nb, cnt) = Done (nb', cnt') ∧ stored n m offs (done ++ rest) nb' cnt'.
Proof.
  induction rest as [|e rest IH]; intros done nb cnt Hvalid Hroom Hst.
  - exists nb, cnt. rewrite app_nil_r. split; [reflexivity | assumption].
  - apply Forall_cons in Hvalid as [He Hvalid]. cbn [for_each].
    destruct (store_edge_spec done e nb cnt He) as (nb1 & cnt1 & Hrun1 & Hst1); [|assumption|].
    { intros v Hv. specialize (Hroom v Hv).
      rewrite out_degree_app in *. rewrite out_degree_cons in Hroom.
      rewrite out_degree_cons, out_degree_nil.
      pose proof (out_degree_bounds rest v). lia. }
    rewrite Hrun1, bind_Done.
    destruct (IH (done ++ [e]) nb1 cnt1 Hvalid) as (nb' & cnt' & Hrun & Hst'); [|assumption|].
    { rewrite <- app_assoc. exact Hroom. }
    exists nb', cnt'. rewrite <- app_assoc in Hst'. split; assumption.
Qed.

(** Every vertex ends up with its destinations in its own stretch of the
    neighbours, in the order the edges were handled. *)
Lemma store_edges_segments (es : list edge_t) (nb cnt : list Z) :
  es ≡ₚ all → Forall (valid_edge n) all →
  Z.of_nat (length nb) = m → Z.of_nat (length cnt) = n →
  (∀ v, 0 ≤ v < n → cell cnt v = cell offs v) →
  ∃ nb' cnt',
    for_each es store_edge (nb, cnt) = Done (nb', cnt')
    ∧ Z.of_nat (length nb') = m
    ∧ ∀ v, 0 ≤ v < n →
        segment nb' (cell offs v) (cell offs (v + 1)) = destinations es v.
Proof.
  intros Hperm Hvalid Hlnb Hlcnt Hcnt.
  destruct (store_edges_spec es [] nb cnt) as (nb' & cnt' & Hrun & Hst).
  - rewrite Hperm. assumption.
  - intros v Hv. simpl. rewrite (out_degree_perm es all v Hperm). lia.
  - split; [assumption|]. split; [assumption|]. split.
    + intros v Hv. rewrite Hcnt by assumption. rewrite out_degree_nil. lia.
    + intros v k Hv Hk. rewrite out_degree_nil in Hk. lia.
  - simpl in Hst. destruct Hst as (Hlnb' & _ & _ & Hnb).
    exists nb', cnt'. split; [assumption|]. split; [assumption|].
    intros v Hv. rewrite Hoffs by assumption.
    rewrite <- (out_degree_perm es all v Hperm). unfold out_degree.
    pose proof (offsets_mono 0 v ltac:(lia) ltac:(lia) ltac:(lia)).
    pose proof (offsets_mono (v + 1) n ltac:(lia) ltac:(lia) ltac:(lia)) as Hhigh.
    rewrite Hoffs in Hhigh by assumption.
    rewrite <- (out_degree_perm es all v Hperm) in Hhigh. unfold out_degree in Hhigh.
    apply segment_eq; [lia | lia |].
    intros k Hk. apply Hnb; [assumption | unfold out_degree; lia].
Qed.
End scatter.

(** ** The whole construction *)

Lemma edges_before_cons (e : edge_t) (es : list edge_t) (p : Z) :
  edges_before (e :: es) p = (if edge_x e <? p then 1 else 0) + edges_before es p.
Proof.
  unfold edges_before. destruct (Z.ltb_spec (edge_x e) p).
  - rewrite filter_cons_True by assumption. simpl length. lia.
  - rewrite filter_cons_False by lia. lia.
Qed.

Lemma edges_before_succ (es : list edge_t) (p : Z) :
  edges_before es (p + 1) = edges_before es p + out_degree es p.
Proof.
  induction es as [|e es IH]; [reflexivity|].
  rewrite !edges_before_cons, out_degree_cons, IH.
  destruct (Z.ltb_spec (edge_x e) (p + 1)), (Z.ltb_spec (edge_x e) p),
    (Z.eqb_spec (edge_x e) p); lia.
Qed.

Lemma edges_before_0 (n : Z) (es : list edge_t) :
  Forall (valid_edge n) es → edges_before es 0 = 0.
Proof.
  induction 1 as [|e es [He _] _ IH]; [reflexivity|].
  rewrite edges_before_cons, IH. destruct (Z.ltb_spec (edge_x e) 0); lia.
Qed.

Lemma edges_before_all (n : Z) (es : list edge_t) :
  Forall (valid_edge n) es → edges_before es n = Z.of_nat (length es).
Proof.
  induction 1 as [|e es [He _] _ IH]; [reflexivity|].
  rewrite edges_before_cons, IH. simpl length. destruct (Z.ltb_spec (edge_x e) n); lia.
Qed.

Lemma edges_before_bounds (es : list edge_t) (p : Z) :
  0 ≤ edges_before es p ≤ Z.of_nat (length es).
Proof.
  unfold edges_before. pose proof (length_filter (λ e, edge_x e < p) es). lia.
Qed.

Lemma edges_before_mono (es : list edge_t) (p q : Z) :
  p ≤ q → edges_before es p ≤ edges_before es q.
Proof.
  intros Hpq. induction es as [|e es IH]; [reflexivity|].
  rewrite !edges_before_cons.
  destruct (Z.ltb_spec (edge_x e) p), (Z.ltb_spec (edge_x e) q); lia.
Qed.

Lemma valid_edge_int (n : Z) (e : edge_t) : n ≤ 2 ^ 31 → valid_edge n e → int_edge e.
Proof. intros Hn [Hx Hy]. split; [unfold is_int; lia | assumption]. Qed.

Lemma cell_all_zero (a : list Z) (p : Z) : all_zero a → cell a p = 0.
Proof.
  intros Hz. unfold cell. destruct (a !! Z.to_nat p) as [z|] eqn:Hp; [|reflexivity].
  exact (Forall_lookup_1 _ _ _ _ Hz Hp).
Qed.

Lemma cell_is_int (a : list Z) (p : Z) : Forall is_int a → is_int (cell a p).
Proof.
  intros Hz. unfold cell. destruct (a !! Z.to_nat p) as [z|] eqn:Hp.
  - exact (Forall_lookup_1 _ _ _ _ Hz Hp).
  - simpl. unfold is_int. lia.
Qed.

(** Arrays with the same cells are the same array. *)
Lemma cells_eq (a b : list Z) :
  length a = length b → (∀ p, 0 ≤ p < Z.of_nat (length a) → cell a p = cell b p) → a = b.
Proof.
  intros Hlen Hcells. apply list_eq. intros i.
  destruct (decide (i < length a)%nat) as [Hi|Hi].
  - specialize (Hcells (Z.of_nat i) ltac:(lia)).
    pose proof (lookup_cell a (Z.of_nat i) ltac:(lia)) as Ha.
    pose proof (lookup_cell b (Z.of_nat i) ltac:(lia)) as Hb.
    rewrite Nat2Z.id in Ha, Hb. congruence.
  - rewrite !lookup_ge_None_2 by lia. reflexivity.
Qed.

(** The offsets after the histogram and the scan, for offsets that were
    zero on entry. *)
Lemma offsets_after_scan (n : Z) (edges : list edge_t) (h : list Z) :
  0 ≤ n → Z.of_nat (length h) = n + 1 → Z.of_nat (length edges) < 2 ^ 31 →
  Forall (valid_edge n) edges →
  cell h 0 = 0 → (∀ v, 0 ≤ v < n → cell h (v + 1) = to_int (out_degree edges v)) →
  ∀ p, 0 ≤ p → p ≤ n → prefix_total h (p + 1) = edges_before edges p.
Proof.
  intros Hn Hlen Hm Hvalid H0 Hdeg. refine (natlike_ind _ _ _).
  - intros _. rewrite prefix_total_succ by lia. rewrite prefix_total_nonpos by lia.
    rewrite H0. symmetry. rewrite (edges_before_0 n) by assumption. reflexivity.
  - intros p Hp IH Hpn. replace (Z.succ p) with (p + 1) in * by lia.
    rewrite prefix_total_succ by lia. rewrite IH by lia. rewrite Hdeg by lia.
    rewrite edges_before_succ. f_equal. apply to_int_id.
    pose proof (out_degree_bounds edges p). unfold is_int. lia.
Qed.

Lemma build_graph_spec (σ : scheduler) (g : SparseGraph) (edges : list edge_t) (m n : Z) :
  fair σ → stated_preconditions g edges m n → all_zero (neighbours_start_at g) →
  ∃ offs' nb' es,
    build_graph σ g edges m n = Done (mkSparseGraph n m offs' nb')
    ∧ Z.of_nat (length offs') = n + 1 ∧ Z.of_nat (length nb') = m
    ∧ (∀ p, 0 ≤ p ≤ n → cell offs' p = edges_before edges p)
    ∧ es ≡ₚ edges
    ∧ (∀ v, 0 ≤ v < n →
         segment nb' (cell offs' v) (cell offs' (v + 1)) = destinations es v).
Proof.
  intros Hfair (Hgn & Hgm & Hlo & Hlnb & Hle & Hn & Hcap & Hm & Hint & Hvalid) Hzero.
  unfold shared_capacity in Hcap. unfold build_graph.
  assert (Hm0 : 0 ≤ m) by lia.
  (* histogram *)
  destruct (histogram_launch_spec σ g edges m Hfair Hgm Hle ltac:(lia))
    as (h & Hrun1 & Hlh & Hh0 & Hh); try (rewrite Hgn; lia).
  { intros p _. apply cell_is_int. assumption. }
  { eapply Forall_impl; [exact Hvalid|]. intros e. apply valid_edge_int. lia. }
  rewrite Hrun1, bind_Done. clear Hrun1. rewrite Hgn in Hh.
  rewrite (cell_all_zero (neighbours_start_at g)) in Hh0 by assumption.
  set (g1 := set_neighbours_start_at g h).
  (* the scan *)
  destruct (scan_offsets_spec σ g1 n Hfair Hn) as (offs' & Hrun2 & Hlo' & Hscan).
  { unfold shared_capacity. lia. }
  { unfold g1. simpl. lia. }
  { intros p Hp. unfold g1. simpl. destruct (decide (p = 0)) as [->|Hp0].
    - rewrite Hh0. unfold is_int. lia.
    - replace p with (p - 1 + 1) by lia. rewrite Hh by lia. apply to_int_is_int. }
  rewrite Hrun2, bind_Done. clear Hrun2. unfold g1 in Hlo', Hscan |- *. simpl in Hlo', Hscan.
  assert (Hoffs : ∀ p, 0 ≤ p ≤ n → cell offs' p = edges_before edges p).
  { intros p Hp. rewrite Hscan by assumption.
    rewrite (offsets_after_scan n edges h) by
      (try lia; try assumption;
       intros v Hv; rewrite Hh by assumption;
       rewrite (cell_all_zero (neighbours_start_at g)) by assumption; reflexivity).
    apply to_int_id. pose proof (edges_before_bounds edges p). unfold is_int. lia. }
  set (g2 := set_neighbours_start_at (set_neighbours_start_at g h) offs').
  (* the counters *)
  destruct (num_blocks_for_spec (to_size_t (n + 1))) as [HB0 HB];
    [rewrite to_size_t_id by lia; lia|].
  rewrite to_size_t_id in HB0, HB |- * by lia.
  destruct (create_scratch_spec σ (num_blocks_for (n + 1)) g2 (cudaMalloc n) Hfair)
    as (cnt & Hrun3 & Hlcnt & Hcnt); unfold g2; simpl; try lia.
  { rewrite length_cudaMalloc by lia. lia. }
  fold g2. fold g2 in Hrun3. rewrite Hrun3, bind_Done. clear Hrun3.
  apply (f_equal Z.of_nat) in Hlcnt. rewrite length_cudaMalloc in Hlcnt by lia.
  unfold g2 in Hcnt. simpl in Hcnt. rewrite Hgn in Hcnt.
  (* the scatter *)
  unfold launch. rewrite store_jobs by (unfold g2; simpl; lia).
  destruct (num_blocks_edges_spec m ltac:(lia)) as (HE0 & HE1 & HE2).
  pose proof (jobs_fair σ edges m (num_blocks_for m) Hfair Hle HE1 HE2) as Hperm.
  replace (sg_m g2) with m by (unfold g2; simpl; lia).
  destruct (store_edges_segments n m offs' edges) with
    (es := omap (job edges m) (σ _ (grid_threads (num_blocks_for m))))
    (nb := neighbours g2) (cnt := cnt) as (nb' & cnt' & Hrun4 & Hlnb' & Hseg);
    try assumption.
  { rewrite Hoffs by lia. pose proof (edges_before_bounds edges 0). lia. }
  { intros v Hv. rewrite !Hoffs by lia. apply edges_before_succ. }
  { rewrite Hoffs by lia. pose proof (edges_before_bounds edges n). lia. }
  rewrite Hrun4, !bind_Done. cbn [fst snd].
  exists offs', nb', (omap (job edges m) (σ _ (grid_threads (num_blocks_for m)))).
  split; [unfold g2, set_neighbours, set_neighbours_start_at; cbn; rewrite Hgn, Hgm; reflexivity|].
  split; [lia|]. split; [assumption|]. split; [assumption|]. split; assumption.
Qed.

(** * The claims *)

(** ** The scan *)

Lemma exact_sum (z s : Z) : z = to_int s → z = to_int s ∧ (is_int s → z = s).
Proof. intros ->. split; [reflexivity | apply to_int_id]. Qed.

(** C10. A single group: when [n + 1 ≤ 1024] the block scan is launched
    with one group, and after [prefix_sum] every [offsets[p]], [p ≤ n],
    holds [offsets[0] + ... + offsets[p]] of the initial values, as the
    [int] the device computes and exactly whenever the sum is an [int];
    the cells loaded through the wrap-around index never reach a result. *)
Theorem prefix_sum_single_group (σ : scheduler) (g : SparseGraph) (block_sums : list Z) (n : Z) :
  fair σ → 0 ≤ n → n + 1 ≤ 1024 →
  Z.of_nat (length (neighbours_start_at g)) = n + 1 →
  Forall is_int (neighbours_start_at g) →
  Z.of_nat (length block_sums) = num_blocks_for (n + 1) →
  num_blocks_for (n + 1) = 1
  ∧ ∃ offs' block_sums',
      launch_blocks σ (num_blocks_for (n + 1)) (prefix_sum (n + 1)) (g, block_sums)
      = Done (set_neighbours_start_at g offs', block_sums')
      ∧ length offs' = length (neighbours_start_at g)
      ∧ ∀ p, 0 ≤ p ≤ n →
          cell offs' p = to_int (prefix_total (neighbours_start_at g) (p + 1))
          ∧ (is_int (prefix_total (neighbours_start_at g) (p + 1)) →
             cell offs' p = prefix_total (neighbours_start_at g) (p + 1)).
Proof.
  intros Hfair Hn Hcap Hlen Hint Hbs.
  destruct (num_blocks_for_spec (n + 1) ltac:(lia)) as [HB0 HB].
  assert (HB1 : num_blocks_for (n + 1) = 1) by lia.
  split; [assumption|]. rewrite HB1 in *.
  destruct (prefix_sum_launch_spec (n + 1) 1 (neighbours_start_at g) Hlen ltac:(lia)
              ltac:(lia) ltac:(lia)) with (σ := σ) (g := g) (bs := block_sums)
    as (offs' & bs' & Hrun & Hlo & _ & Hcells & _);
    [intros; apply cell_is_int; assumption | assumption | reflexivity | assumption |].
  exists offs', bs'. split; [assumption|]. split; [assumption|].
  intros p Hp. apply exact_sum. rewrite Hcells by lia.
  destruct (block_decompose p) as [Hdm Hm].
  assert (p `div` 1024 = 0) as -> by lia.
  rewrite (prefix_total_nonpos _ (1024 * 0)) by lia. f_equal. lia.
Qed.

(** One group, run on the counts [0; 2; 1; 1; 1]. *)
Example prefix_sum_run :
  launch_blocks in_order 1 (prefix_sum 5) (counted_graph, [0])
  = Done (set_neighbours_start_at counted_graph [0; 2; 3; 4; 5], [5]).
Proof. vm_compute. reflexivity. Qed.

Lemma prefix_sum_single_group_witness :
  fair in_order ∧ 0 ≤ 4 ∧ 4 + 1 ≤ 1024
  ∧ Z.of_nat (length (neighbours_start_at counted_graph)) = 4 + 1
  ∧ Forall is_int (neighbours_start_at counted_graph)
  ∧ Z.of_nat (length [0]) = num_blocks_for (4 + 1)
  ∧ num_blocks_for (4 + 1) = 1
  ∧ ∃ offs' block_sums',
      launch_blocks in_order (num_blocks_for (4 + 1)) (prefix_sum (4 + 1)) (counted_graph, [0])
      = Done (set_neighbours_start_at counted_graph offs', block_sums')
      ∧ length offs' = length (neighbours_start_at counted_graph)
      ∧ ∀ p, 0 ≤ p ≤ 4 →
          cell offs' p = to_int (prefix_total (neighbours_start_at counted_graph) (p + 1))
          ∧ (is_int (prefix_total (neighbours_start_at counted_graph) (p + 1)) →
             cell offs' p = prefix_total (neighbours_start_at counted_graph) (p + 1)).
Proof.
  assert (Hfair : fair in_order) by (intros A l; reflexivity).
  assert (Hint : Forall is_int (neighbours_start_at counted_graph))
    by (repeat constructor; unfold is_int; lia).
  split; [exact Hfair|]. split; [lia|]. split; [lia|]. split; [reflexivity|].
  split; [exact Hint|]. split; [reflexivity|].
  apply (prefix_sum_single_group in_order counted_graph [0] 4);
    [exact Hfair | lia | lia | reflexivity | exact Hint | reflexivity].
Defined.

(** C4. Many groups: when the offsets span more than one group of 1024
    (and the group totals fit the cross-group scan), [prefix_sum],
    [single_block_prefix_sum] over the group totals and [finish_prefix_sum]
    leave in every [offsets[p]], [p ≤ n], the sum of the counts at
    positions [0 .. p]. *)
Theorem scan_many_groups (σ : scheduler) (g : SparseGraph) (n : Z) :
  fair σ → 1024 < n + 1 → n + 1 ≤ 1024 * shared_capacity →
  Z.of_nat (length (neighbours_start_at g)) = n + 1 →
  Forall is_int (neighbours_start_at g) →
  1 < num_blocks_for (n + 1)
  ∧ ∃ offs',
      scan_offsets σ g n = Done (set_neighbours_start_at g offs')
      ∧ length offs' = length (neighbours_start_at g)
      ∧ ∀ p, 0 ≤ p ≤ n →
          cell offs' p = to_int (prefix_total (neighbours_start_at g) (p + 1))
          ∧ (is_int (prefix_total (neighbours_start_at g) (p + 1)) →
             cell offs' p = prefix_total (neighbours_start_at g) (p + 1)).
Proof.
  intros Hfair Hmany Hcap Hlen Hint. split.
  - unfold shared_capacity in Hcap.
    destruct (num_blocks_for_spec (n + 1) ltac:(lia)) as [HB0 HB]. lia.
  - destruct (scan_offsets_spec σ g n Hfair ltac:(lia) Hcap Hlen) as (offs' & Hrun & Hlo & Hcells).
    { intros. apply cell_is_int. assumption. }
    exists offs'. split; [assumption|]. split; [assumption|].
    intros p Hp. apply exact_sum, Hcells, Hp.
Qed.

(** Three groups, run: 2049 counts of one each, blocks in reverse order. *)
Example scan_three_groups :
  (g' ← scan_offsets backwards wide_graph 2048;
   Done (cell (neighbours_start_at g') 1023, cell (neighbours_start_at g') 1024,
         cell (neighbours_start_at g') 2048))
  = Done (1024, 1025, 2049).
Proof. vm_compute. reflexivity. Qed.

Lemma scan_many_groups_witness :
  fair backwards ∧ 1024 < 2048 + 1 ∧ 2048 + 1 ≤ 1024 * shared_capacity
  ∧ Z.of_nat (length (neighbours_start_at wide_graph)) = 2048 + 1
  ∧ Forall is_int (neighbours_start_at wide_graph)
  ∧ 1 < num_blocks_for (2048 + 1)
  ∧ ∃ offs',
      scan_offsets backwards wide_graph 2048 = Done (set_neighbours_start_at wide_graph offs')
      ∧ length offs' = length (neighbours_start_at wide_graph)
      ∧ ∀ p, 0 ≤ p ≤ 2048 →
          cell offs' p = to_int (prefix_total (neighbours_start_at wide_graph) (p + 1))
          ∧ (is_int (prefix_total (neighbours_start_at wide_graph) (p + 1)) →
             cell offs' p = prefix_total (neighbours_start_at wide_graph) (p + 1)).
Proof.
  assert (Hfair : fair backwards) by (intros A l; apply reverse_Permutation).
  assert (Hcap : 2048 + 1 ≤ 1024 * shared_capacity) by (unfold shared_capacity; lia).
  assert (Hlen : Z.of_nat (length (neighbours_start_at wide_graph)) = 2048 + 1)
    by (unfold wide_graph; cbn [neighbours_start_at]; rewrite length_replicate; lia).
  assert (Hint : Forall is_int (neighbours_start_at wide_graph))
    by (unfold wide_graph; cbn [neighbours_start_at]; apply Forall_replicate; unfold is_int; lia).
  split; [exact Hfair|]. split; [lia|]. split; [exact Hcap|]. split; [exact Hlen|].
  split; [exact Hint|].
  apply (scan_many_groups backwards wide_graph 2048); [exact Hfair | lia | exact Hcap | exact Hlen | exact Hint].
Defined.

(** ** The histogram *)

Lemma fair_in_order : fair in_order.
Proof. intros A l. reflexivity. Qed.

Lemma fair_backwards : fair backwards.
Proof. intros A l. apply reverse_Permutation. Qed.

(** C3, as stated, fails: [histogram] only adds to the offsets, so
    contents other than zero on entry stay in the counts. *)
Lemma histogram_counts_counterexample :
  ∃ g', launch in_order (num_blocks_for 1) (histogram [Edge 0 0] 1) stale_counts = Done g'
        ∧ neighbours_start_at g' = [7; 4]
        ∧ ¬ degree_counts 1 [Edge 0 0] g'.
Proof.
  exists (mkSparseGraph 1 1 [7; 4] [0]). split; [vm_compute; reflexivity|].
  split; [reflexivity|]. intros [H0 _]. vm_compute in H0. discriminate.
Qed.

(** C3, amended. When the offsets are all zero on entry, after the
    [histogram] launch [offsets[v + 1]] is the out-degree of [v] for every
    [v < n] (edges whose source is not below [n] are not counted) and
    [offsets[0]] is zero. *)
Theorem histogram_counts (σ : scheduler) (g : SparseGraph) (edges : list edge_t) (m n : Z) :
  fair σ →
  sg_n g = n → sg_m g = m → 0 ≤ n ≤ 2 ^ 63 → m < 2 ^ 31 →
  Z.of_nat (length (neighbours_start_at g)) = n + 1 →
  Z.of_nat (length edges) = m →
  Forall int_edge edges →
  all_zero (neighbours_start_at g) →
  ∃ g', launch σ (num_blocks_for m) (histogram edges m) g = Done g'
        ∧ degree_counts n edges g'.
Proof.
  intros Hfair Hgn Hgm Hn Hm Hlo Hle Hint Hzero. subst n.
  destruct (histogram_launch_spec σ g edges m Hfair Hgm Hle ltac:(lia) Hn Hlo)
    as (offs' & Hrun & _ & H0 & Hcells); [|assumption|].
  { intros p _. rewrite cell_all_zero by assumption. unfold is_int. lia. }
  exists (set_neighbours_start_at g offs'). split; [assumption|]. split; simpl.
  - rewrite H0. apply cell_all_zero. assumption.
  - intros v Hv. rewrite Hcells by assumption.
    rewrite (cell_all_zero (neighbours_start_at g)) by assumption.
    apply to_int_id. pose proof (out_degree_bounds edges v). unfold is_int. lia.
Qed.

Lemma histogram_counts_witness :
  ∃ g', launch backwards (num_blocks_for 5) (histogram ragged_edges 5) scenario_graph = Done g'
        ∧ degree_counts 4 ragged_edges g'.
Proof.
  apply (histogram_counts backwards scenario_graph ragged_edges 5 4);
    [exact fair_backwards | reflexivity | reflexivity | lia | lia | reflexivity | reflexivity
    | repeat constructor; unfold is_int; simpl; lia
    | repeat constructor ].
Defined.

(** ** The CSR arrays *)

Lemma stale_preconditions : stated_preconditions stale_graph stale_edges 2 2.
Proof.
  unfold stated_preconditions, shared_capacity. simpl.
  repeat split; try lia; repeat constructor; unfold is_int; simpl; lia.
Qed.

Lemma stale_in_order :
  build_graph in_order stale_graph stale_edges 2 2 = Done (mkSparseGraph 2 2 [0; 1; 1] [7; 9]).
Proof. vm_compute. reflexivity. Qed.

Lemma stale_backwards :
  build_graph backwards stale_graph stale_edges 2 2 = Done (mkSparseGraph 2 2 [0; 1; 1] [9; 7]).
Proof. vm_compute. reflexivity. Qed.

(** C1, as stated, fails on offsets that are not zero on entry. *)
Lemma build_graph_segments_counterexample :
  stated_preconditions stale_graph stale_edges 2 2
  ∧ ∃ g', build_graph in_order stale_graph stale_edges 2 2 = Done g'
          ∧ ¬ csr_segments 2 stale_edges g'.
Proof.
  split; [exact stale_preconditions|]. eexists. split; [exact stale_in_order|].
  intros H. specialize (H 0 ltac:(lia)). vm_compute in H.
  apply Permutation_length in H. discriminate.
Qed.

(** C1, amended. For every input within the stated preconditions whose
    offsets are all zero on entry, [build_graph] returns, and for every
    vertex [v < n] the stretch [neighbours[offsets[v] .. offsets[v+1])] is,
    as a multiset, the destinations of the edges with source [v]. *)
Theorem build_graph_segments (σ : scheduler) (g : SparseGraph) (edges : list edge_t) (m n : Z) :
  fair σ → stated_preconditions g edges m n → all_zero (neighbours_start_at g) →
  ∃ g', build_graph σ g edges m n = Done g' ∧ csr_segments n edges g'.
Proof.
  intros Hfair Hpre Hzero.
  destruct (build_graph_spec σ g edges m n Hfair Hpre Hzero)
    as (offs' & nb' & es & Hrun & _ & _ & _ & Hperm & Hseg).
  eexists. split; [exact Hrun|]. intros v Hv. simpl.
  rewrite Hseg by assumption. apply destinations_perm. assumption.
Qed.

Lemma scenario_preconditions : stated_preconditions scenario_graph scenario_edges 5 4.
Proof.
  unfold stated_preconditions, shared_capacity. simpl.
  repeat split; try lia; repeat constructor; unfold is_int; simpl; lia.
Defined.

Lemma scenario_zero : all_zero (neighbours_start_at scenario_graph).
Proof. repeat constructor. Defined.

Lemma build_graph_segments_witness :
  ∃ g', build_graph backwards scenario_graph scenario_edges 5 4 = Done g'
        ∧ csr_segments 4 scenario_edges g'.
Proof.
  apply (build_graph_segments backwards scenario_graph scenario_edges 5 4);
    [exact fair_backwards | exact scenario_preconditions | exact scenario_zero].
Defined.

(** C2, as stated, fails on offsets that are not zero on entry. *)
Lemma build_graph_offsets_counterexample :
  stated_preconditions stale_graph stale_edges 2 2
  ∧ ∃ g', build_graph in_order stale_graph stale_edges 2 2 = Done g'
          ∧ ¬ csr_offsets 2 2 g'.
Proof.
  split; [exact stale_preconditions|]. eexists. split; [exact stale_in_order|].
  intros (_ & H & _). vm_compute in H. discriminate.
Qed.

(** C2, amended. For every input within the stated preconditions whose
    offsets are all zero on entry, after [build_graph] returns
    [offsets[0] == 0], [offsets[n] == m] and [offsets] is non-decreasing. *)
Theorem build_graph_offsets (σ : scheduler) (g : SparseGraph) (edges : list edge_t) (m n : Z) :
  fair σ → stated_preconditions g edges m n → all_zero (neighbours_start_at g) →
  ∃ g', build_graph σ g edges m n = Done g' ∧ csr_offsets n m g'.
Proof.
  intros Hfair Hpre Hzero.
  destruct (build_graph_spec σ g edges m n Hfair Hpre Hzero)
    as (offs' & nb' & es & Hrun & _ & _ & Hoffs & _ & _).
  destruct Hpre as (_ & _ & _ & _ & Hle & Hn & _ & _ & _ & Hvalid).
  eexists. split; [exact Hrun|]. unfold csr_offsets. simpl. split; [|split].
  - rewrite Hoffs by lia. apply (edges_before_0 n). assumption.
  - rewrite Hoffs by lia. rewrite (edges_before_all n) by assumption. assumption.
  - intros i Hi. rewrite !Hoffs by lia. apply edges_before_mono. lia.
Qed.

Lemma build_graph_offsets_witness :
  ∃ g', build_graph in_order scenario_graph scenario_edges 5 4 = Done g'
        ∧ csr_offsets 4 5 g'.
Proof.
  apply (build_graph_offsets in_order scenario_graph scenario_edges 5 4);
    [exact fair_in_order | exact scenario_preconditions | exact scenario_zero].
Defined.

(** The scenario, run: the offsets the specification expects. *)
Example scenario_run :
  build_graph in_order scenario_graph scenario_edges 5 4
  = Done (mkSparseGraph 4 5 [0; 2; 3; 4; 5] [1; 2; 3; 3; 0]).
Proof. vm_compute. reflexivity. Qed.

(** ** Empty inputs *)

(** C8, as stated, fails on offsets that are not zero on entry. *)
Lemma build_graph_empty_counterexample :
  stated_preconditions stale_empty [] 0 0
  ∧ ∃ g', build_graph in_order stale_empty [] 0 0 = Done g'
          ∧ neighbours_start_at g' ≠ replicate (Z.to_nat (0 + 1)) 0.
Proof.
  split.
  - unfold stated_preconditions, shared_capacity. simpl.
    repeat split; try lia; repeat constructor; unfold is_int; simpl; lia.
  - exists (mkSparseGraph 0 0 [5] []). split; [vm_compute; reflexivity|].
    simpl. discriminate.
Qed.

(** C8, amended. For every input with [n == 0] or [m == 0], otherwise
    within the stated preconditions, whose offsets are all zero on entry,
    [build_graph] leaves [offsets] entirely zero, of length [n + 1] (which is
    1 when [n == 0]), and [neighbours] empty. *)
Theorem build_graph_empty (σ : scheduler) (g : SparseGraph) (edges : list edge_t) (m n : Z) :
  fair σ → stated_preconditions g edges m n → all_zero (neighbours_start_at g) →
  n = 0 ∨ m = 0 →
  ∃ g', build_graph σ g edges m n = Done g'
        ∧ neighbours_start_at g' = replicate (Z.to_nat (n + 1)) 0
        ∧ neighbours g' = [].
Proof.
  intros Hfair Hpre Hzero Hempty.
  destruct (build_graph_spec σ g edges m n Hfair Hpre Hzero)
    as (offs' & nb' & es & Hrun & Hlo & Hlnb & Hoffs & _ & _).
  destruct Hpre as (_ & _ & _ & _ & Hle & Hn & _ & _ & _ & Hvalid).
  assert (Hnil : edges = []).
  { destruct Hempty as [-> | ->].
    - destruct Hvalid as [|e rest [He _] _]; [reflexivity | lia].
    - destruct edges; [reflexivity | simpl in Hle; lia]. }
  subst edges. simpl in Hle. subst m.
  eexists. split; [exact Hrun|]. simpl. split.
  - apply cells_eq; [rewrite length_replicate; lia|].
    intros p Hp. rewrite Hoffs by lia. symmetry. apply cell_lookup.
    apply lookup_replicate_2. lia.
  - destruct nb'; [reflexivity | simpl in Hlnb; lia].
Qed.

Lemma build_graph_empty_witness :
  ∃ g', build_graph in_order (mkSparseGraph 3 0 [0; 0; 0; 0] []) [] 0 3 = Done g'
        ∧ neighbours_start_at g' = replicate (Z.to_nat (3 + 1)) 0
        ∧ neighbours g' = [].
Proof.
  apply (build_graph_empty in_order (mkSparseGraph 3 0 [0; 0; 0; 0] []) [] 0 3).
  - exact fair_in_order.
  - unfold stated_preconditions, shared_capacity. simpl.
    repeat split; try lia; repeat constructor; unfold is_int; simpl; lia.
  - repeat constructor.
  - right. reflexivity.
Defined.

(** ** Two runs *)

Lemma cell_cons_0 (x : Z) (l : list Z) : cell (x :: l) 0 = x.
Proof. reflexivity. Qed.

Lemma cell_cons_succ (x : Z) (l : list Z) (v : Z) : 0 ≤ v → cell (x :: l) (v + 1) = cell l v.
Proof.
  intros Hv. unfold cell. replace (Z.to_nat (v + 1)) with (S (Z.to_nat v)) by lia.
  reflexivity.
Qed.

(** The offsets [build_graph] returns owe nothing to the scheduler. *)
Lemma build_graph_offsets_fixed (σ : scheduler) (g : SparseGraph) (edges : list edge_t)
    (m n : Z) (g' : SparseGraph) :
  fair σ → stated_preconditions g edges m n →
  build_graph σ g edges m n = Done g' →
  neighbours_start_at g' = scan_result (histogram_result g edges).
Proof.
  intros Hfair (Hgn & Hgm & Hlo & Hlnb & Hle & Hn & Hcap & Hm & Hint & Hvalid).
  unfold shared_capacity in Hcap. unfold build_graph.
  destruct (histogram_launch_spec σ g edges m Hfair Hgm Hle ltac:(lia))
    as (h & Hrun1 & Hlh & Hh0 & Hh); try (rewrite Hgn; lia).
  { intros p _. apply cell_is_int. assumption. }
  { eapply Forall_impl; [exact Hvalid|]. intros e. apply valid_edge_int. lia. }
  rewrite Hrun1, bind_Done. clear Hrun1. rewrite Hgn in Hh.
  assert (Hhr : h = histogram_result g edges).
  { apply cells_eq.
    - unfold histogram_result. simpl. rewrite length_fmap, length_seqZ. lia.
    - intros p Hp. unfold histogram_result. destruct (decide (p = 0)) as [->|Hp0].
      + rewrite cell_cons_0. assumption.
      + replace p with (p - 1 + 1) by lia. rewrite cell_cons_succ by lia.
        rewrite Hh by lia. rewrite Hgn. rewrite cell_fmap_seqZ by lia. reflexivity. }
  set (g1 := set_neighbours_start_at g h).
  destruct (scan_offsets_spec σ g1 n Hfair Hn) as (offs' & Hrun2 & Hlo' & Hscan).
  { unfold shared_capacity. lia. }
  { unfold g1. simpl. lia. }
  { intros p Hp. unfold g1. simpl. destruct (decide (p = 0)) as [->|Hp0].
    - rewrite Hh0. apply cell_is_int. assumption.
    - replace p with (p - 1 + 1) by lia. rewrite Hh by lia. apply to_int_is_int. }
  rewrite Hrun2, bind_Done. clear Hrun2. unfold g1 in Hlo', Hscan |- *. simpl in Hlo', Hscan.
  assert (Hsr : offs' = scan_result h).
  { apply cells_eq.
    - unfold scan_result. rewrite length_fmap, length_seqZ. lia.
    - intros p Hp. unfold scan_result. rewrite cell_fmap_seqZ by lia. apply Hscan. lia. }
  set (g2 := set_neighbours_start_at (set_neighbours_start_at g h) offs').
  intros Hrun. apply bind_inv in Hrun as (cnt & _ & Hrun).
  apply bind_inv in Hrun as (st & Hstore & Hret). injection Hret as <-.
  unfold launch in Hstore. rewrite store_jobs in Hstore by (unfold g2; simpl; lia).
  apply bind_inv in Hstore as (st' & _ & Hst). injection Hst as <-.
  simpl. congruence.
Qed.

(** C7, as stated, fails on offsets that are not zero on entry: the two
    runs hand the slots of a stretch to different edges. *)
Lemma build_graph_runs_counterexample :
  stated_preconditions stale_graph stale_edges 2 2
  ∧ ∃ g1 g2,
      build_graph in_order stale_graph stale_edges 2 2 = Done g1
      ∧ build_graph backwards stale_graph stale_edges 2 2 = Done g2
      ∧ ¬ (∀ v, 0 ≤ v < 2 →
             segment (neighbours g1) (cell (neighbours_start_at g1) v)
                     (cell (neighbours_start_at g1) (v + 1))
             ≡ₚ segment (neighbours g2) (cell (neighbours_start_at g2) v)
                        (cell (neighbours_start_at g2) (v + 1))).
Proof.
  split; [exact stale_preconditions|]. eexists _, _.
  split; [exact stale_in_order|]. split; [exact stale_backwards|].
  intros H. specialize (H 0 ltac:(lia)). vm_compute in H.
  apply Permutation_singleton_l in H. discriminate.
Qed.

(** C7, amended. For every input within the stated preconditions, two
    runs of [build_graph] that return leave the identical offsets array;
    when moreover the offsets are all zero on entry, both runs return and
    the stretch of every vertex holds the same multiset in both (only the
    order within a stretch may differ). *)
Theorem build_graph_runs (σ1 σ2 : scheduler) (g : SparseGraph) (edges : list edge_t) (m n : Z) :
  fair σ1 → fair σ2 → stated_preconditions g edges m n →
  (∀ g1 g2,
     build_graph σ1 g edges m n = Done g1 → build_graph σ2 g edges m n = Done g2 →
     neighbours_start_at g1 = neighbours_start_at g2)
  ∧ (all_zero (neighbours_start_at g) →
     ∃ g1 g2,
       build_graph σ1 g edges m n = Done g1 ∧ build_graph σ2 g edges m n = Done g2
       ∧ neighbours_start_at g1 = neighbours_start_at g2
       ∧ ∀ v, 0 ≤ v < n →
           segment (neighbours g1) (cell (neighbours_start_at g1) v)
                   (cell (neighbours_start_at g1) (v + 1))
           ≡ₚ segment (neighbours g2) (cell (neighbours_start_at g2) v)
                      (cell (neighbours_start_at g2) (v + 1))).
Proof.
  intros Hfair1 Hfair2 Hpre.
  assert (Hsame : ∀ g1 g2,
     build_graph σ1 g edges m n = Done g1 → build_graph σ2 g edges m n = Done g2 →
     neighbours_start_at g1 = neighbours_start_at g2).
  { intros g1 g2 H1 H2.
    rewrite (build_graph_offsets_fixed σ1 g edges m n g1 Hfair1 Hpre H1).
    rewrite (build_graph_offsets_fixed σ2 g edges m n g2 Hfair2 Hpre H2). reflexivity. }
  split; [exact Hsame|]. intros Hzero.
  destruct (build_graph_spec σ1 g edges m n Hfair1 Hpre Hzero)
    as (o1 & nb1 & es1 & Hrun1 & _ & _ & _ & Hperm1 & Hseg1).
  destruct (build_graph_spec σ2 g edges m n Hfair2 Hpre Hzero)
    as (o2 & nb2 & es2 & Hrun2 & _ & _ & _ & Hperm2 & Hseg2).
  eexists _, _. split; [exact Hrun1|]. split; [exact Hrun2|].
  split; [exact (Hsame _ _ Hrun1 Hrun2)|].
  intros v Hv. simpl. rewrite Hseg1, Hseg2 by assumption.
  rewrite (destinations_perm es1 edges v Hperm1), (destinations_perm es2 edges v Hperm2).
  reflexivity.
Qed.

Lemma build_graph_runs_witness :
  (∀ g1 g2,
     build_graph in_order scenario_graph scenario_edges 5 4 = Done g1 →
     build_graph backwards scenario_graph scenario_edges 5 4 = Done g2 →
     neighbours_start_at g1 = neighbours_start_at g2)
  ∧ (all_zero (neighbours_start_at scenario_graph) →
     ∃ g1 g2,
       build_graph in_order scenario_graph scenario_edges 5 4 = Done g1
       ∧ build_graph backwards scenario_graph scenario_edges 5 4 = Done g2
       ∧ neighbours_start_at g1 = neighbours_start_at g2
       ∧ ∀ v, 0 ≤ v < 4 →
           segment (neighbours g1) (cell (neighbours_start_at g1) v)
                   (cell (neighbours_start_at g1) (v + 1))
           ≡ₚ segment (neighbours g2) (cell (neighbours_start_at g2) v)
                      (cell (neighbours_start_at g2) (v + 1))).
Proof.
  apply (build_graph_runs in_order backwards scenario_graph scenario_edges 5 4);
    [exact fair_in_order | exact fair_backwards | exact scenario_preconditions].
Defined.

(** ** Beyond the capacity of the cross-group scan *)

(** Thread 0 walks the lanes 0, 1024, ... and reaches lane 6144, one past
    the shared buffer. *)
Lemma load_overflow (arr : list Z) (n : Z) (j : nat) :
  shared_capacity < n → n ≤ 2 ^ 63 → n ≤ Z.of_nat (length arr) →
  ∀ (fuel : nat) (sh : list Z * list Z),
    (j < fuel)%nat → 1024 * Z.of_nat j ≤ 6144 →
    Z.of_nat (length sh.1) = 6144 → Z.of_nat (length sh.2) = 6144 →
    for_lanes fuel (6144 - 1024 * Z.of_nat j) n
      (λ data_idx sh,
         val ← rd Arr arr data_idx;
         smem ← wr Smem sh.1 data_idx val;
         scratch ← wr Scratch sh.2 data_idx val;
         Done (smem, scratch)) sh
    = OutOfBounds Smem.
Proof.
  unfold shared_capacity. intros Hn Hn63 Hlen.
  induction j as [|j IH]; intros fuel sh Hfuel Hj Hl1 Hl2;
    (destruct fuel as [|fuel]; [lia|]); cbn [for_lanes].
  - change (6144 - 1024 * Z.of_nat 0) with 6144.
    destruct (Z.ltb_spec 6144 n); [|lia].
    rewrite rd_cell by lia. rewrite bind_Done.
    rewrite (wr_out Smem sh.1) by lia. reflexivity.
  - set (start := 6144 - 1024 * Z.of_nat (S j)).
    assert (Hstart : 0 ≤ start ∧ start + 1024 = 6144 - 1024 * Z.of_nat j) by lia.
    destruct (Z.ltb_spec start n); [|lia].
    rewrite rd_cell by lia. rewrite bind_Done.
    rewrite (wr_in Smem sh.1) by lia. rewrite bind_Done.
    rewrite (wr_in Scratch sh.2) by lia. rewrite !bind_Done.
    rewrite to_size_t_id by lia. destruct Hstart as [_ ->].
    apply IH; cbn [fst snd]; rewrite ?length_insert; lia.
Qed.

Lemma single_block_over_capacity (arr : list Z) (n : Z) :
  shared_capacity < n → n ≤ 2 ^ 63 → n ≤ Z.of_nat (length arr) →
  single_block_prefix_sum arr n = OutOfBounds Smem.
Proof.
  intros Hn Hn63 Hlen. unfold single_block_prefix_sum.
  unfold block_threads, threads_per_block. rewrite (seqZ_cons 0 1024) by lia.
  cbn [for_each].
  pose proof (load_overflow arr n 6 Hn Hn63 Hlen (lanes_fuel n)
                (replicate (Z.to_nat shared_capacity) 0,
                 replicate (Z.to_nat shared_capacity) 0)) as Hload.
  change (6144 - 1024 * Z.of_nat 6) with 0 in Hload.
  rewrite Hload; [reflexivity | | lia | |].
  - unfold lanes_fuel, shared_capacity in *.
    assert (6 ≤ n `div` 1024) by (apply Z.div_le_lower_bound; lia). lia.
  - cbn [fst]. rewrite length_replicate. unfold shared_capacity. lia.
  - cbn [snd]. rewrite length_replicate. unfold shared_capacity. lia.
Qed.

(** With more groups than the cross-group scan has room for, the
    construction goes through the histogram and the block scan and then
    runs off the shared buffer. *)
Lemma build_graph_over_capacity (σ : scheduler) (g : SparseGraph) (edges : list edge_t)
    (m n : Z) :
  fair σ →
  sg_n g = n → sg_m g = m →
  Z.of_nat (length (neighbours_start_at g)) = n + 1 →
  Z.of_nat (length edges) = m → m < 2 ^ 31 →
  1024 * shared_capacity < n + 1 → n + 1 ≤ 2 ^ 31 →
  Forall is_int (neighbours_start_at g) → Forall int_edge edges →
  (∃ g1 st,
     launch σ (num_blocks_for m) (histogram edges m) g = Done g1
     ∧ launch_blocks σ (num_blocks_for (n + 1)) (prefix_sum (n + 1))
         (g1, cudaMalloc (num_blocks_for (n + 1))) = Done st)
  ∧ build_graph σ g edges m n = OutOfBounds Smem.
Proof.
  unfold shared_capacity. intros Hfair Hgn Hgm Hlo Hle Hm Hover Hn31 Hint Hedges.
  assert (Hm0 : 0 ≤ m) by lia.
  destruct (histogram_launch_spec σ g edges m Hfair Hgm Hle ltac:(lia))
    as (h & Hrun1 & Hlh & Hh0 & Hh); try (rewrite Hgn; lia); try assumption.
  { intros p _. apply cell_is_int. assumption. }
  rewrite Hgn in Hh.
  set (g1 := set_neighbours_start_at g h) in *.
  set (N := n + 1) in *. set (B := num_blocks_for N).
  destruct (num_blocks_for_spec N ltac:(lia)) as [HB0 HB]. fold B in HB0, HB.
  destruct (prefix_sum_launch_spec N B h ltac:(lia) ltac:(lia) HB ltac:(lia)) with
    (σ := σ) (g := g1) (bs := cudaMalloc B) as (o1 & bs1 & Hrun2 & Hlo1 & Hlb1 & _ & _);
    [ | assumption | reflexivity | apply length_cudaMalloc; assumption |].
  { intros p Hp. destruct (decide (p = 0)) as [->|Hp0].
    - rewrite Hh0. apply cell_is_int. assumption.
    - replace p with (p - 1 + 1) by lia. rewrite Hh by lia. apply to_int_is_int. }
  split.
  - eexists _, _. split; [exact Hrun1 | exact Hrun2].
  - unfold build_graph. rewrite Hrun1, bind_Done. fold g1. unfold scan_offsets.
    rewrite (to_size_t_id (n + 1)) by lia. fold N. fold B.
    rewrite Hrun2, bind_Done. cbn [fst snd].
    pose proof (length_cudaMalloc B HB0) as HlB.
    rewrite single_block_over_capacity; [reflexivity | unfold shared_capacity; lia | lia | lia].
Qed.

(** C5, as stated, fails: with 6145 groups nothing rejects the input; the
    block scan runs on it and the cross-group scan then indexes its shared
    buffer out of range. *)
Lemma capacity_counterexample :
  shared_capacity < num_blocks_for (oversized_n + 1)
  ∧ (∃ g1 st,
       launch in_order (num_blocks_for 0) (histogram [] 0) oversized_graph = Done g1
       ∧ launch_blocks in_order (num_blocks_for (oversized_n + 1)) (prefix_sum (oversized_n + 1))
           (g1, cudaMalloc (num_blocks_for (oversized_n + 1))) = Done st)
  ∧ build_graph in_order oversized_graph [] 0 oversized_n = OutOfBounds Smem.
Proof.
  split; [vm_compute; reflexivity|].
  apply (build_graph_over_capacity in_order oversized_graph [] 0 oversized_n).
  - exact fair_in_order.
  - reflexivity.
  - reflexivity.
  - unfold oversized_graph. cbn [neighbours_start_at]. rewrite length_replicate.
    unfold oversized_n, shared_capacity. lia.
  - reflexivity.
  - lia.
  - unfold oversized_n, shared_capacity. lia.
  - unfold oversized_n, shared_capacity. lia.
  - unfold oversized_graph. cbn [neighbours_start_at]. apply Forall_replicate.
    unfold is_int. lia.
  - constructor.
Qed.

(** C5, amended. [build_graph] checks no capacity and reports no fault:
    for every input whose group totals outnumber the 6144 cells of the
    cross-group scan, the histogram and the block scan run to completion
    and the cross-group scan then accesses its shared buffer out of range,
    which is undefined behaviour. *)
Theorem capacity_unchecked (σ : scheduler) (g : SparseGraph) (edges : list edge_t) (m n : Z) :
  fair σ →
  sg_n g = n → sg_m g = m →
  Z.of_nat (length (neighbours_start_at g)) = n + 1 →
  Z.of_nat (length edges) = m → m < 2 ^ 31 → n + 1 ≤ 2 ^ 31 →
  Forall is_int (neighbours_start_at g) → Forall int_edge edges →
  shared_capacity < num_blocks_for (n + 1) →
  (∃ g1 st,
     launch σ (num_blocks_for m) (histogram edges m) g = Done g1
     ∧ launch_blocks σ (num_blocks_for (n + 1)) (prefix_sum (n + 1))
         (g1, cudaMalloc (num_blocks_for (n + 1))) = Done st)
  ∧ build_graph σ g edges m n = OutOfBounds Smem.
Proof.
  intros Hfair Hgn Hgm Hlo Hle Hm Hn31 Hint Hedges Hgroups.
  apply build_graph_over_capacity; try assumption.
  assert (0 ≤ n + 1) by lia.
  destruct (num_blocks_for_spec (n + 1) ltac:(lia)) as [_ HB]. lia.
Qed.

Lemma capacity_unchecked_witness :
  (∃ g1 st,
     launch backwards (num_blocks_for 0) (histogram [] 0) oversized_graph = Done g1
     ∧ launch_blocks backwards (num_blocks_for (oversized_n + 1)) (prefix_sum (oversized_n + 1))
         (g1, cudaMalloc (num_blocks_for (oversized_n + 1))) = Done st)
  ∧ build_graph backwards oversized_graph [] 0 oversized_n = OutOfBounds Smem.
Proof.
  apply (capacity_unchecked backwards oversized_graph [] 0 oversized_n).
  - exact fair_backwards.
  - reflexivity.
  - reflexivity.
  - unfold oversized_graph. cbn [neighbours_start_at]. rewrite length_replicate.
    unfold oversized_n, shared_capacity. lia.
  - reflexivity.
  - lia.
  - unfold oversized_n, shared_capacity. lia.
  - unfold oversized_graph. cbn [neighbours_start_at]. apply Forall_replicate.
    unfold is_int. lia.
  - constructor.
  - vm_compute. reflexivity.
Defined.

(** ** Out-of-range sources *)

Lemma store_edge_out (e : edge_t) (nb cnt : list Z) :
  ¬ 0 ≤ edge_x e < Z.of_nat (length cnt) → store_edge e (nb, cnt) = OutOfBounds Counters.
Proof.
  intros Hout. unfold store_edge, atomicAdd. cbn [fst snd].
  rewrite rd_out by assumption. reflexivity.
Qed.

(** [store] has no test on the source: a thread whose edge leaves a vertex
    outside the counters indexes them out of range. *)
Lemma store_unguarded (edges : list edge_t) (th : thread) (g : SparseGraph)
    (scratch : list Z) (e : edge_t) :
  Z.of_nat (length edges) = sg_m g →
  job edges (sg_m g) th = Some e →
  ¬ 0 ≤ edge_x e < Z.of_nat (length scratch) →
  store edges th (g, scratch) = OutOfBounds Counters.
Proof.
  intros Hlen Hjob Hout. rewrite store_job by assumption. rewrite Hjob.
  rewrite store_edge_out by assumption. reflexivity.
Qed.

(** The list up to its first element outside [P]. *)
Lemma split_at_first {A : Type} (P : A → Prop) `{∀ x, Decision (P x)} (l : list A) :
  ¬ Forall P l → ∃ pre e post, l = pre ++ e :: post ∧ Forall P pre ∧ ¬ P e.
Proof.
  induction l as [|a l IH]; intros Hnot.
  - destruct Hnot. constructor.
  - destruct (decide (P a)) as [Ha|Ha].
    + destruct IH as (pre & e & post & -> & Hpre & He).
      { intros Hl. apply Hnot. constructor; assumption. }
      exists (a :: pre), e, post. split; [reflexivity|]. split; [constructor; assumption | assumption].
    + exists [], a, l. split; [reflexivity|]. split; [constructor | assumption].
Qed.

Lemma out_degree_valid_part (n : Z) (edges : list edge_t) (v : Z) :
  Forall int_edge edges → 0 ≤ v < n →
  out_degree (filter (valid_edge n) edges) v = out_degree edges v.
Proof.
  intros Hint Hv. induction Hint as [|e es [_ Hy] _ IH]; [reflexivity|].
  rewrite out_degree_cons. destruct (decide (valid_edge n e)) as [He|He].
  - rewrite filter_cons_True by assumption. rewrite out_degree_cons, IH. reflexivity.
  - rewrite filter_cons_False by assumption. rewrite IH.
    destruct (Z.eqb_spec (edge_x e) v) as [Heq|]; [|lia].
    exfalso. apply He. split; [lia | assumption].
Qed.

(** Whatever the order of the threads, an edge whose source is not a vertex
    sends [store] outside the counters: the edges before it in the schedule
    are placed, and it is not skipped. *)
Lemma build_graph_stray_source (σ : scheduler) (g : SparseGraph) (edges : list edge_t)
    (m n : Z) :
  fair σ →
  sg_n g = n → sg_m g = m →
  Z.of_nat (length (neighbours_start_at g)) = n + 1 →
  Z.of_nat (length (neighbours g)) = m →
  Z.of_nat (length edges) = m →
  0 ≤ n → n + 1 ≤ 1024 * shared_capacity → m < 2 ^ 31 →
  all_zero (neighbours_start_at g) →
  Forall int_edge edges → ¬ Forall (valid_edge n) edges →
  build_graph σ g edges m n = OutOfBounds Counters.
Proof.
  intros Hfair Hgn Hgm Hlo Hlnb Hle Hn Hcap Hm Hzero Hint Hstray.
  unfold shared_capacity in Hcap. unfold build_graph.
  assert (Hm0 : 0 ≤ m) by lia.
  set (vp := filter (valid_edge n) edges).
  assert (Hvp : Forall (valid_edge n) vp).
  { apply Forall_forall. intros e He. apply list_elem_of_filter in He as [He _]. exact He. }
  assert (Hlvp : Z.of_nat (length vp) ≤ m).
  { pose proof (length_filter (valid_edge n) edges). unfold vp. lia. }
  (* histogram *)
  destruct (histogram_launch_spec σ g edges m Hfair Hgm Hle ltac:(lia))
    as (h & Hrun1 & Hlh & Hh0 & Hh); try (rewrite Hgn; lia); try assumption.
  { intros p _. rewrite cell_all_zero by assumption. unfold is_int. lia. }
  rewrite Hrun1, bind_Done. clear Hrun1. rewrite Hgn in Hh.
  rewrite (cell_all_zero (neighbours_start_at g)) in Hh0 by assumption.
  set (g1 := set_neighbours_start_at g h).
  (* the scan *)
  destruct (scan_offsets_spec σ g1 n Hfair Hn) as (offs' & Hrun2 & Hlo' & Hscan).
  { unfold shared_capacity. lia. }
  { unfold g1. simpl. lia. }
  { intros p Hp. unfold g1. simpl. destruct (decide (p = 0)) as [->|Hp0].
    - rewrite Hh0. unfold is_int. lia.
    - replace p with (p - 1 + 1) by lia. rewrite Hh by lia. apply to_int_is_int. }
  rewrite Hrun2, bind_Done. clear Hrun2. unfold g1 in Hlo', Hscan |- *. simpl in Hlo', Hscan.
  assert (Hoffs : ∀ p, 0 ≤ p ≤ n → cell offs' p = edges_before vp p).
  { intros p Hp. rewrite Hscan by assumption.
    rewrite (offsets_after_scan n vp h) by
      (try lia; try assumption;
       intros v Hv; rewrite Hh by assumption;
       rewrite (cell_all_zero (neighbours_start_at g)) by assumption;
       unfold vp; rewrite out_degree_valid_part by assumption; reflexivity).
    apply to_int_id. pose proof (edges_before_bounds vp p). unfold is_int. lia. }
  set (g2 := set_neighbours_start_at (set_neighbours_start_at g h) offs').
  (* the counters *)
  destruct (num_blocks_for_spec (to_size_t (n + 1))) as [HB0 HB];
    [rewrite to_size_t_id by lia; lia|].
  rewrite to_size_t_id in HB0, HB |- * by lia.
  destruct (create_scratch_spec σ (num_blocks_for (n + 1)) g2 (cudaMalloc n) Hfair)
    as (cnt & Hrun3 & Hlcnt & Hcnt); unfold g2; simpl; try lia.
  { rewrite length_cudaMalloc by lia. lia. }
  fold g2. fold g2 in Hrun3. rewrite Hrun3, bind_Done. clear Hrun3.
  apply (f_equal Z.of_nat) in Hlcnt. rewrite length_cudaMalloc in Hlcnt by lia.
  unfold g2 in Hcnt. simpl in Hcnt. rewrite Hgn in Hcnt.
  (* the scatter, up to the first stray edge *)
  unfold launch. rewrite store_jobs by (unfold g2; simpl; lia).
  destruct (num_blocks_edges_spec m ltac:(lia)) as (HE0 & HE1 & HE2).
  pose proof (jobs_fair σ edges m (num_blocks_for m) Hfair Hle HE1 HE2) as Hperm.
  replace (sg_m g2) with m by (unfold g2; simpl; lia).
  destruct (split_at_first (valid_edge n)
              (omap (job edges m) (σ _ (grid_threads (num_blocks_for m)))))
    as (pre & e & post & Hsplit & Hpre & He).
  { rewrite Hperm. assumption. }
  rewrite Hsplit in Hperm |- *. rewrite for_each_app.
  destruct (store_edges_spec n m offs' vp) with
    (rest := pre) (done := @nil edge_t) (nb := neighbours g2) (cnt := cnt)
    as (nb1 & cnt1 & Hrun4 & (_ & Hlcnt1 & _ & _)); try assumption.
  { rewrite Hoffs by lia. pose proof (edges_before_bounds vp 0). lia. }
  { intros v Hv. rewrite !Hoffs by lia. apply edges_before_succ. }
  { rewrite Hoffs by lia. pose proof (edges_before_bounds vp n). lia. }
  { intros v Hv. simpl.
    assert (Hvalid_part : filter (valid_edge n) (pre ++ e :: post) ≡ₚ vp)
      by (unfold vp; rewrite Hperm; reflexivity).
    rewrite <- (out_degree_perm _ _ v Hvalid_part).
    rewrite filter_app, out_degree_app.
    assert (Hfpre : filter (valid_edge n) pre = pre).
    { clear -Hpre. induction Hpre as [|a l Ha _ IH]; [reflexivity|].
      rewrite filter_cons_True by assumption. rewrite IH. reflexivity. }
    rewrite Hfpre. pose proof (out_degree_bounds (filter (valid_edge n) (e :: post)) v). lia. }
  { split; [unfold g2; simpl; lia|]. split; [assumption|]. split.
    - intros v Hv. rewrite Hcnt by assumption. rewrite out_degree_nil. lia.
    - intros v k Hv Hk. rewrite out_degree_nil in Hk. lia. }
  rewrite Hrun4, bind_Done. cbn [for_each].
  assert (Hx : ¬ 0 ≤ edge_x e < Z.of_nat (length cnt1)).
  { intros Hr. apply He. split; [lia|].
    assert (Hin : e ∈ edges) by (rewrite <- Hperm; apply elem_of_app; right; left).
    apply (Forall_forall int_edge edges) in Hin; [apply Hin | assumption]. }
  rewrite store_edge_out by assumption. reflexivity.
Qed.

(** C6. The code at an input with an edge whose source is not below [n]:
    [histogram] leaves the edge out of the counts, but [store] takes it up
    and indexes the counters with its source, out of range; the edge is
    not dropped by the construction ([build_graph_stray_source] has it for
    every such input and every order of the threads). *)
Theorem store_keeps_stray_edge :
  launch in_order (num_blocks_for 2) (histogram stray_edges 2) stray_graph
  = Done (mkSparseGraph 2 2 [0; 1; 0] [0; 0])
  ∧ build_graph in_order stray_graph stray_edges 2 2 = OutOfBounds Counters.
Proof. split; vm_compute; reflexivity. Qed.

(** ** Barriers of the cross-group scan *)

Lemma barriers_app (tr1 tr2 : list event) : barriers (tr1 ++ tr2) = (barriers tr1 + barriers tr2)%nat.
Proof. induction tr1 as [|e tr1 IH]; simpl; [reflexivity | rewrite IH; lia]. Qed.

Lemma for_each_barriers {A : Type} (l : list A) (body : A → list event → outcome (list event))
    (k : nat) (tr : list event) :
  (∀ a tr, a ∈ l → ∃ tr', body a tr = Done tr' ∧ barriers tr' = (barriers tr + k)%nat) →
  ∃ tr', for_each l body tr = Done tr' ∧ barriers tr' = (barriers tr + k * length l)%nat.
Proof.
  revert tr. induction l as [|a l IH]; intros tr Hbody.
  - exists tr. split; [reflexivity | simpl; lia].
  - destruct (Hbody a tr ltac:(left)) as (tr1 & Hrun1 & Hb1).
    destruct (IH tr1) as (tr' & Hrun & Hb); [intros; apply Hbody; right; assumption|].
    exists tr'. cbn [for_each]. rewrite Hrun1, bind_Done. split; [exact Hrun|].
    rewrite Hb, Hb1. simpl. lia.
Qed.

(** A strided loop that emits only accesses arrives at no barrier. *)
Lemma for_lanes_barriers (th_id n : Z) (evs : Z → list event) (tr : list event) :
  0 ≤ th_id → 0 ≤ n ≤ 2 ^ 63 → (∀ i, barriers (evs i) = 0%nat) →
  ∃ tr', for_lanes (lanes_fuel n) th_id n (λ data_idx, emit (evs data_idx)) tr = Done tr'
         ∧ barriers tr' = barriers tr.
Proof.
  intros Hth Hn Hquiet.
  rewrite for_lanes_lanes by (try lia; apply lanes_fuel_enough; lia).
  destruct (for_each_barriers (lanes (lanes_fuel n) th_id n)
              (λ data_idx, emit (evs data_idx)) 0 tr) as (tr' & Hrun & Hb).
  - intros i tr0 _. eexists. split; [reflexivity|].
    rewrite barriers_app, Hquiet. reflexivity.
  - exists tr'. split; [exact Hrun | lia].
Qed.

Lemma unit_round_barriers (th_id n rows stride : Z) (tr : list event) :
  0 ≤ th_id → 0 ≤ n ≤ 2 ^ 63 →
  ∃ tr', unit_round th_id n rows stride tr = Done tr'
         ∧ barriers tr' = (barriers tr + (1 + 2 * Z.to_nat rows))%nat.
Proof.
  intros Hth Hn. unfold unit_round.
  destruct (for_lanes_barriers th_id n (λ i, [ReadAt Smem i; WriteAt Scratch i]) tr Hth Hn)
    as (tr1 & Hrun1 & Hb1); [reflexivity|].
  rewrite Hrun1, bind_Done.
  change (emit [Barrier] tr1) with (Done (tr1 ++ [Barrier])). rewrite bind_Done.
  match goal with |- ∃ tr', for_each ?l ?body ?s = _ ∧ _ =>
    destruct (for_each_barriers l body 2 s) as (tr' & Hrun & Hb) end.
  - intros it tr0 _. cbv zeta. unfold emit. rewrite !bind_Done.
    eexists. split; [reflexivity|]. rewrite !barriers_app.
    destruct ((to_size_t (th_id + 1024 * it) <? n) && (stride <=? to_size_t (th_id + 1024 * it)));
      cbn; lia.
  - exists tr'. split; [exact Hrun|]. rewrite Hb, barriers_app, Hb1, length_seqZ.
    simpl. lia.
Qed.

Lemma for_strides_barriers (body : Z → list event → outcome (list event)) (k : nat) (bound : Z) :
  (∀ stride tr, ∃ tr', body stride tr = Done tr' ∧ barriers tr' = (barriers tr + k)%nat) →
  ∀ (fuel : nat) (stride : Z) (tr : list event),
    match stride_rounds fuel stride bound with
    | Some r => ∃ tr', for_strides fuel stride bound body tr = Done tr'
                       ∧ barriers tr' = (barriers tr + k * r)%nat
    | None => for_strides fuel stride bound body tr = Diverged
    end.
Proof.
  intros Hbody. induction fuel as [|fuel IH]; intros stride tr; simpl.
  - destruct (stride <? bound); [reflexivity|]. exists tr. split; [reflexivity | lia].
  - destruct (stride <? bound); [|exists tr; split; [reflexivity | lia]].
    destruct (Hbody stride tr) as (tr1 & Hrun1 & Hb1). rewrite Hrun1. simpl.
    specialize (IH (to_size_t (stride ≪ 1)) tr1).
    destruct (stride_rounds fuel (to_size_t (stride ≪ 1)) bound) as [r|]; simpl.
    + destruct IH as (tr' & Hrun & Hb). exists tr'. split; [exact Hrun|]. lia.
    + exact IH.
Qed.

Lemma stride_rounds_total (bound : Z) : bound ≤ 2 ^ 63 → ∃ r, stride_rounds 64 1 bound = Some r.
Proof.
  intros Hbound.
  destruct (for_strides_inv (λ _ (_ : list event), True) (λ _ tr, Done tr) bound Hbound)
    with (fuel := 64%nat) (k := 0) (s := @nil event) as (j & tr & Hrun & _);
    [intros; eexists; split; [reflexivity | exact I] | lia | simpl; lia | exact I |].
  change (2 ^ 0) with 1 in Hrun.
  pose proof (for_strides_barriers (λ _ tr, Done tr) 0 bound) as Hcount.
  specialize (Hcount ltac:(intros; eexists; split; [reflexivity | lia]) 64%nat 1 []).
  destruct (stride_rounds 64 1 bound) as [r|]; [exists r; reflexivity | congruence].
Qed.

(** The barriers a thread arrives at: one after the load, and in every
    round one after the copy and two for each of the [max_number_items]
    lanes. *)
Lemma unit_barriers (th_id n : Z) :
  0 ≤ th_id → 0 ≤ n ≤ 2 ^ 63 →
  ∃ r tr, stride_rounds 64 1 n = Some r
          ∧ unit_events th_id n = Done tr
          ∧ barriers tr
            = (1 + (1 + 2 * Z.to_nat (n / 1024 + (if n `mod` 1024 =? 0 then 0 else 1))%Z) * r)%nat.
Proof.
  intros Hth Hn. destruct (stride_rounds_total n ltac:(lia)) as [r Hr].
  exists r. unfold unit_events.
  set (rows := n / 1024 + (if n `mod` 1024 =? 0 then 0 else 1)).
  destruct (for_lanes_barriers th_id n (λ i, [ReadAt Arr i; WriteAt Smem i; WriteAt Scratch i]) []
              Hth Hn) as (tr1 & Hrun1 & Hb1); [reflexivity|].
  rewrite Hrun1, bind_Done.
  change (emit [Barrier] tr1) with (Done (tr1 ++ [Barrier])). rewrite bind_Done.
  pose proof (for_strides_barriers (unit_round th_id n rows) (1 + 2 * Z.to_nat rows) n) as Hrounds.
  specialize (Hrounds ltac:(intros; apply unit_round_barriers; assumption) 64%nat 1 (tr1 ++ [Barrier])).
  rewrite Hr in Hrounds. destruct Hrounds as (tr2 & Hrun2 & Hb2).
  rewrite Hrun2, bind_Done.
  destruct (for_lanes_barriers th_id n (λ i, [ReadAt Smem i; WriteAt Arr i]) tr2 Hth Hn)
    as (tr3 & Hrun3 & Hb3); [reflexivity|].
  exists tr3. split; [exact Hr|]. split; [exact Hrun3|].
  rewrite Hb3, Hb2, barriers_app, Hb1. simpl. lia.
Qed.

(** C9. In [single_block_prefix_sum], whatever the array length, any two
    threads of the block arrive at the same number of barriers, whether
    their lanes are in range or not. *)
Theorem barriers_uniform (n th1 th2 : Z) :
  0 ≤ n ≤ 2 ^ 63 → 0 ≤ th1 < 1024 → 0 ≤ th2 < 1024 →
  ∃ tr1 tr2,
    unit_events th1 n = Done tr1 ∧ unit_events th2 n = Done tr2
    ∧ barriers tr1 = barriers tr2.
Proof.
  intros Hn H1 H2.
  destruct (unit_barriers th1 n ltac:(lia) Hn) as (r1 & tr1 & Hr1 & Hrun1 & Hb1).
  destruct (unit_barriers th2 n ltac:(lia) Hn) as (r2 & tr2 & Hr2 & Hrun2 & Hb2).
  exists tr1, tr2. split; [exact Hrun1|]. split; [exact Hrun2|].
  rewrite Hb1, Hb2. congruence.
Qed.

Lemma barriers_uniform_witness :
  ∃ tr1 tr2,
    unit_events 0 1500 = Done tr1 ∧ unit_events 1000 1500 = Done tr2
    ∧ barriers tr1 = barriers tr2.
Proof. apply (barriers_uniform 1500 0 1000); lia. Defined.

(** Thread 0 has two lanes among 1500 cells and thread 1000 has one: they
    differ in what they access, not in the barriers they arrive at. *)
Example barriers_of_two_threads :
  (tr ← unit_events 0 1500; Done (length tr, barriers tr)) = Done (143%nat, 56%nat)
  ∧ (tr ← unit_events 1000 1500; Done (length tr, barriers tr)) = Done (113%nat, 56%nat).
Proof. split; vm_compute; reflexivity. Qed.

(** * Further properties of the kernels *)

(** ** The index of a thread *)

Lemma NoDup_fmap_inj_on {A B : Type} (f : A → B) (l : list A) (x y : A) :
  NoDup (f <$> l) → x ∈ l → y ∈ l → f x = f y → x = y.
Proof.
  induction l as [|a l IH]; intros Hnd Hx Hy Heq; [inversion Hx|].
  rewrite fmap_cons in Hnd. apply NoDup_cons in Hnd as [Hnot Hnd].
  apply elem_of_cons in Hx as [->|Hx]; apply elem_of_cons in Hy as [->|Hy].
  - reflexivity.
  - exfalso. apply Hnot. rewrite Heq. apply list_elem_of_fmap.
    exists y. split; [reflexivity | assumption].
  - exfalso. apply Hnot. rewrite <- Heq. apply list_elem_of_fmap.
    exists x. split; [reflexivity | assumption].
  - apply IH; assumption.
Qed.

(** X1. [blockIdx.x * blockDim.x + threadIdx.x] is computed on 32 bits: in
    a launch of [num_blocks] blocks of 1024 threads the global indices are
    [0 .. 1024 * num_blocks - 1], each once and in launch order, as long as
    [1024 * num_blocks ≤ 2 ^ 32]; in any larger launch two threads share
    an index. *)
Theorem global_ids_distinct (num_blocks : Z) :
  0 ≤ num_blocks →
  (NoDup (global_id <$> grid_threads num_blocks) ↔ 1024 * num_blocks ≤ 2 ^ 32)
  ∧ (1024 * num_blocks ≤ 2 ^ 32 →
     global_id <$> grid_threads num_blocks = seqZ 0 (1024 * num_blocks)).
Proof.
  intros HB. split; [split|].
  - intros Hnd. destruct (Z.le_gt_cases (1024 * num_blocks) (2 ^ 32)) as [|Hover]; [assumption|].
    exfalso.
    assert (H1 : ((0, 0) : thread) ∈ grid_threads num_blocks)
      by (apply elem_of_grid_threads; simpl; lia).
    assert (H2 : ((2 ^ 22, 0) : thread) ∈ grid_threads num_blocks)
      by (apply elem_of_grid_threads; simpl; lia).
    pose proof (NoDup_fmap_inj_on global_id _ _ _ Hnd H1 H2 eq_refl) as Heq.
    discriminate Heq.
  - intros Hmax. rewrite global_ids_grid by assumption. apply NoDup_seqZ.
  - intros Hmax. apply global_ids_grid; assumption.
Qed.

Lemma global_ids_distinct_witness :
  (NoDup (global_id <$> grid_threads 2) ↔ 1024 * 2 ≤ 2 ^ 32)
  ∧ (1024 * 2 ≤ 2 ^ 32 → global_id <$> grid_threads 2 = seqZ 0 (1024 * 2)).
Proof. apply (global_ids_distinct 2). lia. Defined.

(** ** [histogram] *)

(** X2. [histogram] adds to what the offsets hold: whatever their contents
    on entry, after the launch [offsets[v + 1]] has grown by the number of
    edges with source [v], for every [v < n], as an [int]; [offsets[0]],
    the neighbours, [n] and [m] are as they were.  Edges whose source is
    negative or not below [n] are counted nowhere. *)
Theorem histogram_accumulates (σ : scheduler) (g : SparseGraph) (edges : list edge_t) (m : Z) :
  fair σ →
  sg_m g = m → Z.of_nat (length edges) = m → m ≤ 2 ^ 31 →
  0 ≤ sg_n g ≤ 2 ^ 63 → Z.of_nat (length (neighbours_start_at g)) = sg_n g + 1 →
  Forall is_int (neighbours_start_at g) → Forall int_edge edges →
  ∃ offs',
    launch σ (num_blocks_for m) (histogram edges m) g = Done (set_neighbours_start_at g offs')
    ∧ length offs' = length (neighbours_start_at g)
    ∧ cell offs' 0 = cell (neighbours_start_at g) 0
    ∧ ∀ v, 0 ≤ v < sg_n g →
        cell offs' (v + 1) = to_int (cell (neighbours_start_at g) (v + 1) + out_degree edges v).
Proof.
  intros Hfair Hgm Hlen Hm Hn Hlo Hint Hes.
  apply histogram_launch_spec; try assumption.
  intros p _. apply cell_is_int. assumption.
Qed.

Lemma histogram_accumulates_witness :
  ∃ offs',
    launch backwards (num_blocks_for 2) (histogram stale_edges 2) stale_graph
    = Done (set_neighbours_start_at stale_graph offs')
    ∧ length offs' = length (neighbours_start_at stale_graph)
    ∧ cell offs' 0 = cell (neighbours_start_at stale_graph) 0
    ∧ ∀ v, 0 ≤ v < sg_n stale_graph →
        cell offs' (v + 1)
        = to_int (cell (neighbours_start_at stale_graph) (v + 1) + out_degree stale_edges v).
Proof.
  apply (histogram_accumulates backwards stale_graph stale_edges 2);
    [exact fair_backwards | reflexivity | reflexivity | lia | simpl; lia | reflexivity
    | repeat constructor; unfold is_int; simpl; lia
    | repeat constructor; unfold is_int; simpl; lia ].
Defined.

(** ** [prefix_sum] *)

(** X3. [prefix_sum] over any number of groups, the blocks in any order:
    every [offsets[p]], [p < n], ends as the sum of the cells of its own
    group of 1024 up to [p], and [block_sums[c]] as the total of group [c]
    (the last group may be short), as [int]s.  What [block_sums] held
    before plays no role, and no access is out of range. *)
Theorem prefix_sum_groups (σ : scheduler) (g : SparseGraph) (block_sums : list Z) (n : Z) :
  fair σ → 1 ≤ n ≤ 2 ^ 32 →
  Z.of_nat (length (neighbours_start_at g)) = n →
  Forall is_int (neighbours_start_at g) →
  Z.of_nat (length block_sums) = num_blocks_for n →
  ∃ offs' block_sums',
    launch_blocks σ (num_blocks_for n) (prefix_sum n) (g, block_sums)
    = Done (set_neighbours_start_at g offs', block_sums')
    ∧ length offs' = length (neighbours_start_at g)
    ∧ length block_sums' = length block_sums
    ∧ (∀ p, 0 ≤ p < n →
         cell offs' p = to_int (prefix_total (neighbours_start_at g) (p + 1)
                                - prefix_total (neighbours_start_at g) (1024 * (p `div` 1024))))
    ∧ (∀ c, 0 ≤ c < num_blocks_for n →
         cell block_sums' c
         = to_int (prefix_total (neighbours_start_at g) (Z.min (1024 * (c + 1)) n)
                   - prefix_total (neighbours_start_at g) (1024 * c))).
Proof.
  intros Hfair Hn Hlen Hint Hbs.
  destruct (num_blocks_for_spec n ltac:(lia)) as [HB0 HB].
  apply (prefix_sum_launch_spec n (num_blocks_for n) (neighbours_start_at g));
    try assumption; try lia; try reflexivity.
  intros p _. apply cell_is_int. assumption.
Qed.

Lemma prefix_sum_groups_witness :
  ∃ offs' block_sums',
    launch_blocks backwards (num_blocks_for 2049) (prefix_sum 2049) (wide_graph, [5; 5; 5])
    = Done (set_neighbours_start_at wide_graph offs', block_sums')
    ∧ length offs' = length (neighbours_start_at wide_graph)
    ∧ length block_sums' = length [5; 5; 5]
    ∧ (∀ p, 0 ≤ p < 2049 →
         cell offs' p
         = to_int (prefix_total (neighbours_start_at wide_graph) (p + 1)
                   - prefix_total (neighbours_start_at wide_graph) (1024 * (p `div` 1024))))
    ∧ (∀ c, 0 ≤ c < num_blocks_for 2049 →
         cell block_sums' c
         = to_int (prefix_total (neighbours_start_at wide_graph) (Z.min (1024 * (c + 1)) 2049)
                   - prefix_total (neighbours_start_at wide_graph) (1024 * c))).
Proof.
  apply (prefix_sum_groups backwards wide_graph [5; 5; 5] 2049);
    [ exact fair_backwards | lia
    | unfold wide_graph; cbn [neighbours_start_at]; rewrite length_replicate; lia
    | unfold wide_graph; cbn [neighbours_start_at]; apply Forall_replicate; unfold is_int; lia
    | reflexivity ].
Defined.

(** ** [single_block_prefix_sum] *)

(** X4. [single_block_prefix_sum] on at most 6144 cells: it returns, the
    first [n] cells of [arr] hold their inclusive running sums, as the
    [int] the device computes and exactly whenever the sum is an [int],
    and the cells from [n] on are as they were. *)
Theorem single_block_prefix_sum_scan (arr : list Z) (n : Z) :
  0 ≤ n ≤ shared_capacity → n ≤ Z.of_nat (length arr) → Forall is_int arr →
  ∃ arr',
    single_block_prefix_sum arr n = Done arr'
    ∧ length arr' = length arr
    ∧ (∀ c, 0 ≤ c < n →
         cell arr' c = to_int (prefix_total arr (c + 1))
         ∧ (is_int (prefix_total arr (c + 1)) → cell arr' c = prefix_total arr (c + 1)))
    ∧ (∀ c, n ≤ c → cell arr' c = cell arr c).
Proof.
  intros Hn Hlen Hint.
  destruct (single_block_prefix_sum_spec arr n Hn Hlen) as (arr' & Hrun & Hl & Hsum & Hrest).
  { intros c _. apply cell_is_int. assumption. }
  exists arr'. split; [assumption|]. split; [assumption|]. split; [|assumption].
  intros c Hc. apply exact_sum, Hsum, Hc.
Qed.

Lemma single_block_prefix_sum_scan_witness :
  ∃ arr',
    single_block_prefix_sum [3; 1; 4; 1; 5; 9] 5 = Done arr'
    ∧ length arr' = length [3; 1; 4; 1; 5; 9]
    ∧ (∀ c, 0 ≤ c < 5 →
         cell arr' c = to_int (prefix_total [3; 1; 4; 1; 5; 9] (c + 1))
         ∧ (is_int (prefix_total [3; 1; 4; 1; 5; 9] (c + 1)) →
            cell arr' c = prefix_total [3; 1; 4; 1; 5; 9] (c + 1)))
    ∧ (∀ c, 5 ≤ c → cell arr' c = cell [3; 1; 4; 1; 5; 9] c).
Proof.
  apply (single_block_prefix_sum_scan [3; 1; 4; 1; 5; 9] 5);
    [ unfold shared_capacity; lia | simpl; lia
    | repeat constructor; unfold is_int; lia ].
Defined.

(** X5. The capacity of [single_block_prefix_sum] is exactly the 6144
    cells of its shared buffers: on an array that holds [n] [int]s it
    returns if and only if [n ≤ 6144], and for every larger [n] the load
    loop writes [smem] out of range. *)
Theorem single_block_prefix_sum_capacity (arr : list Z) (n : Z) :
  0 ≤ n ≤ 2 ^ 63 → n ≤ Z.of_nat (length arr) → Forall is_int arr →
  ((∃ arr', single_block_prefix_sum arr n = Done arr') ↔ n ≤ shared_capacity)
  ∧ (shared_capacity < n → single_block_prefix_sum arr n = OutOfBounds Smem).
Proof.
  intros Hn Hlen Hint. split; [split|].
  - intros [arr' Hrun]. destruct (Z.le_gt_cases n shared_capacity) as [|Hover]; [assumption|].
    rewrite single_block_over_capacity in Hrun by lia. discriminate.
  - intros Hcap. destruct (single_block_prefix_sum_spec arr n) as (arr' & Hrun & _);
      [lia | assumption | intros c _; apply cell_is_int; assumption |].
    exists arr'. assumption.
  - intros Hover. apply single_block_over_capacity; lia.
Qed.

Lemma single_block_prefix_sum_capacity_witness :
  ((∃ arr', single_block_prefix_sum [3; 1; 4] 3 = Done arr') ↔ 3 ≤ shared_capacity)
  ∧ (shared_capacity < 3 → single_block_prefix_sum [3; 1; 4] 3 = OutOfBounds Smem).
Proof.
  apply (single_block_prefix_sum_capacity [3; 1; 4] 3);
    [ lia | simpl; lia | repeat constructor; unfold is_int; lia ].
Defined.

(** *** No two threads race *)

Lemma stamped_app (k : nat) (tr1 tr2 : list event) :
  stamped k (tr1 ++ tr2) = stamped k tr1 ++ stamped (k + barriers tr1) tr2.
Proof.
  revert k. induction tr1 as [|e tr1 IH]; intros k; simpl.
  - rewrite Nat.add_0_r. reflexivity.
  - destruct e; simpl; rewrite IH; try reflexivity.
    replace (S k + barriers tr1)%nat with (k + S (barriers tr1))%nat by lia. reflexivity.
Qed.

Lemma stamped_quiet (k : nat) (evs : list event) (k' : nat) (e : event) :
  Forall (λ e, is_barrier e = false) evs →
  (k', e) ∈ stamped k evs → k' = k ∧ e ∈ evs.
Proof.
  induction 1 as [|e0 evs He0 _ IH]; simpl; [intros H; inversion H|].
  destruct e0; [discriminate | |];
    (intros H; apply elem_of_cons in H as [H|H];
     [injection H as -> ->; split; [reflexivity | left]
     | destruct (IH H); split; [assumption | right; assumption]]).
Qed.

Lemma barriers_quiet (evs : list event) :
  Forall (λ e, is_barrier e = false) evs → barriers evs = 0%nat.
Proof. induction 1 as [|e evs He _ IH]; simpl; [reflexivity | rewrite He, IH; reflexivity]. Qed.

Lemma tidy_quiet (th_id rows : Z) (tr evs : list event) :
  tidy th_id rows tr →
  Forall (λ e, is_barrier e = false ∧ tidy_at th_id rows (barriers tr) e) evs →
  tidy th_id rows (tr ++ evs) ∧ barriers (tr ++ evs) = barriers tr.
Proof.
  intros Htr Hevs.
  assert (Hq : Forall (λ e, is_barrier e = false) evs)
    by (eapply Forall_impl; [exact Hevs | intros e [H _]; exact H]).
  split.
  - intros k e. rewrite stamped_app, elem_of_app. intros [H|H]; [apply Htr; assumption|].
    apply stamped_quiet in H as [-> He]; [|assumption].
    rewrite Forall_forall in Hevs. apply Hevs. assumption.
  - rewrite barriers_app, (barriers_quiet evs) by assumption. lia.
Qed.

Lemma tidy_barrier (th_id rows : Z) (tr : list event) :
  tidy th_id rows tr →
  tidy th_id rows (tr ++ [Barrier]) ∧ barriers (tr ++ [Barrier]) = S (barriers tr).
Proof.
  intros Htr. split.
  - intros k e. rewrite stamped_app, elem_of_app. simpl. intros [H|H]; [apply Htr; assumption|].
    inversion H.
  - rewrite barriers_app. simpl. lia.
Qed.

Lemma for_each_inv {A St : Type} (I : St → Prop) (l : list A) (body : A → St → outcome St) :
  (∀ a s, a ∈ l → I s → ∃ s', body a s = Done s' ∧ I s') →
  ∀ s, I s → ∃ s', for_each l body s = Done s' ∧ I s'.
Proof.
  induction l as [|a l IH]; intros Hbody s Hs.
  - exists s. split; [reflexivity | assumption].
  - destruct (Hbody a s ltac:(left) Hs) as (s1 & Hrun1 & Hs1).
    destruct (IH ltac:(intros; apply Hbody; [right|]; assumption) s1 Hs1) as (s' & Hrun & Hs').
    exists s'. cbn [for_each]. rewrite Hrun1, bind_Done. split; assumption.
Qed.

Lemma for_each_seqZ_inv {St : Type} (I : Z → St → Prop) (body : Z → St → outcome St) (len : Z) :
  (∀ i s, 0 ≤ i < len → I i s → ∃ s', body i s = Done s' ∧ I (i + 1) s') →
  ∀ s, 0 ≤ len → I 0 s → ∃ s', for_each (seqZ 0 len) body s = Done s' ∧ I len s'.
Proof.
  intros Hbody s Hlen. revert len Hlen Hbody.
  refine (natlike_ind _ _ _).
  - intros _ Hs. exists s. split; [reflexivity | assumption].
  - intros len Hlen IH Hbody Hs. replace (Z.succ len) with (len + 1) in * by lia.
    destruct (IH ltac:(intros; apply Hbody; [lia | assumption]) Hs) as (s1 & Hrun1 & Hs1).
    destruct (Hbody len s1 ltac:(lia) Hs1) as (s' & Hrun & Hs').
    exists s'. rewrite (seqZ_app 0 len 1) by lia. rewrite for_each_app, Hrun1, bind_Done.
    rewrite (seqZ_cons _ 1), seqZ_nil by lia. cbn [for_each].
    rewrite Z.add_0_l, Hrun, bind_Done. split; [reflexivity | assumption].
Qed.

(** A loop over the lanes of a thread, outside the gathering stretches. *)
Lemma for_lanes_tidy (th_id rows n : Z) (evs : Z → list event) (tr : list event) :
  0 ≤ th_id < 1024 → 0 ≤ n ≤ 2 ^ 63 →
  gathering rows (Z.of_nat (barriers tr)) = false →
  (∀ i, i `mod` 1024 = th_id → Forall (λ e, is_barrier e = false ∧ own_lane th_id e) (evs i)) →
  tidy th_id rows tr →
  ∃ tr', for_lanes (lanes_fuel n) th_id n (λ data_idx, emit (evs data_idx)) tr = Done tr'
         ∧ tidy th_id rows tr' ∧ barriers tr' = barriers tr.
Proof.
  intros Hth Hn Hk Hevs Htr.
  pose proof (lanes_fuel_enough n th_id ltac:(lia) ltac:(lia)) as Hfuel.
  rewrite for_lanes_lanes by (try lia; assumption).
  apply (for_each_inv (λ t, tidy th_id rows t ∧ barriers t = barriers tr)); [|split; auto].
  intros i t Hi [Ht Hb]. apply elem_of_lanes in Hi as [Hr Hm]; [|assumption].
  assert (Hown : i `mod` 1024 = th_id).
  { replace i with (th_id + (i - th_id)) by lia.
    rewrite Z.add_mod, Hm, Z.add_0_r, Z.mod_mod, Z.mod_small by lia. reflexivity. }
  exists (t ++ evs i). split; [reflexivity|].
  destruct (tidy_quiet th_id rows t (evs i) Ht) as [Ht' Hb'].
  - eapply Forall_impl; [exact (Hevs i Hown)|]. intros e [Hq He]. split; [assumption|].
    unfold tidy_at. rewrite Hb, Hk. assumption.
  - split; [assumption | lia].
Qed.

Lemma gathering_start (rows j : Z) :
  0 ≤ rows → 0 ≤ j → gathering rows (1 + j * (2 * rows + 1)) = false.
Proof.
  intros Hr Hj. unfold gathering.
  replace (1 + j * (2 * rows + 1) - 1) with (0 + j * (2 * rows + 1)) by lia.
  rewrite Z.mod_add by lia. rewrite Z.mod_0_l by lia. apply andb_false_r.
Qed.

Lemma gathering_odd (rows j i : Z) :
  0 ≤ j → 0 ≤ i < rows → gathering rows (2 + j * (2 * rows + 1) + 2 * i) = true.
Proof.
  intros Hj Hi. unfold gathering.
  replace (2 + j * (2 * rows + 1) + 2 * i - 1) with (1 + 2 * i + j * (2 * rows + 1)) by lia.
  rewrite Z.mod_add, Z.mod_small by lia.
  rewrite Z.add_comm, Z.odd_add_mul_2. apply andb_true_iff.
  split; [apply Z.leb_le; nia | reflexivity].
Qed.

Lemma gathering_even (rows j i : Z) :
  0 ≤ j → 0 ≤ i < rows → gathering rows (3 + j * (2 * rows + 1) + 2 * i) = false.
Proof.
  intros Hj Hi. unfold gathering.
  replace (3 + j * (2 * rows + 1) + 2 * i - 1) with (0 + 2 * (i + 1) + j * (2 * rows + 1)) by lia.
  rewrite Z.mod_add, Z.mod_small by lia.
  rewrite Z.odd_add_mul_2. apply andb_false_r.
Qed.

(** One round keeps the trace tidy and takes [2 * rows + 1] barriers. *)
Lemma unit_round_tidy (th_id n rows stride j : Z) (tr : list event) :
  0 ≤ th_id < 1024 → 0 ≤ n ≤ 2 ^ 63 → 0 ≤ rows → 1024 * rows ≤ 2 ^ 63 → 0 ≤ j →
  tidy th_id rows tr → Z.of_nat (barriers tr) = 1 + j * (2 * rows + 1) →
  ∃ tr', unit_round th_id n rows stride tr = Done tr'
         ∧ tidy th_id rows tr'
         ∧ Z.of_nat (barriers tr') = 1 + (j + 1) * (2 * rows + 1).
Proof.
  intros Hth Hn Hrows Hrmax Hj Htr Hb. unfold unit_round.
  destruct (for_lanes_tidy th_id rows n (λ i, [ReadAt Smem i; WriteAt Scratch i]) tr Hth Hn)
    as (tr1 & Hrun1 & Ht1 & Hb1); try assumption.
  { rewrite Hb. apply gathering_start; assumption. }
  { intros i Hi. repeat constructor; assumption. }
  rewrite Hrun1, bind_Done.
  change (emit [Barrier] tr1) with (Done (tr1 ++ [Barrier])). rewrite bind_Done.
  destruct (tidy_barrier th_id rows tr1 Ht1) as [Ht2 Hb2].
  match goal with |- ∃ tr', for_each (seqZ 0 rows) ?body ?s0 = _ ∧ _ =>
    destruct (for_each_seqZ_inv
                (λ i t, tidy th_id rows t
                        ∧ Z.of_nat (barriers t) = 2 + j * (2 * rows + 1) + 2 * i)
                body rows) with (s := s0) as (tr' & Hrun & Ht' & Hb') end.
  - intros i t Hi [Ht Hbt]. cbv zeta. unfold emit. rewrite !bind_Done.
    eexists. split; [reflexivity|].
    set (lane := to_size_t (th_id + 1024 * i)).
    assert (Hlane : lane `mod` 1024 = th_id).
    { unfold lane. rewrite to_size_t_id by lia.
      replace (th_id + 1024 * i) with (th_id + i * 1024) by lia.
      rewrite Z.mod_add, Z.mod_small by lia. reflexivity. }
    set (in_range := (lane <? n) && (stride <=? lane)).
    destruct (tidy_quiet th_id rows t (if in_range then [ReadAt Scratch (lane - stride)] else []) Ht)
      as [Ha Hba].
    { unfold tidy_at. rewrite Hbt, gathering_odd by assumption.
      destruct in_range; repeat constructor. }
    destruct (tidy_barrier th_id rows _ Ha) as [Hc Hbc].
    destruct (tidy_quiet th_id rows _
                (if in_range then [ReadAt Smem lane; WriteAt Smem lane] else []) Hc)
      as [Hd Hbd].
    { unfold tidy_at. rewrite Hbc, Hba.
      replace (Z.of_nat (S (barriers t))) with (3 + j * (2 * rows + 1) + 2 * i) by lia.
      rewrite gathering_even by assumption.
      destruct in_range; repeat constructor; assumption. }
    destruct (tidy_barrier th_id rows _ Hd) as [He Hbe].
    split; [exact He|]. rewrite Hbe, Hbd, Hbc, Hba. lia.
  - assumption.
  - split; [assumption|]. rewrite Hb2, Hb1. lia.
  - exists tr'. split; [exact Hrun|]. split; [assumption|]. rewrite Hb'. lia.
Qed.

Lemma unit_events_tidy (th_id n : Z) :
  0 ≤ th_id < 1024 → 0 ≤ n ≤ 2 ^ 63 →
  ∃ tr, unit_events th_id n = Done tr
        ∧ tidy th_id (n / 1024 + (if n `mod` 1024 =? 0 then 0 else 1)) tr.
Proof.
  intros Hth Hn. unfold unit_events.
  set (rows := n / 1024 + (if n `mod` 1024 =? 0 then 0 else 1)).
  assert (Hrows : 0 ≤ rows ∧ 1024 * rows ≤ 2 ^ 63).
  { unfold rows. pose proof (Z.div_mod n 1024 ltac:(lia)) as Hdm.
    pose proof (Z.mod_pos_bound n 1024 ltac:(lia)).
    assert (0 ≤ n / 1024) by (apply Z.div_pos; lia).
    destruct (Z.eqb_spec (n `mod` 1024) 0) as [|Hrem]; [lia|].
    assert (n ≠ 2 ^ 63) by (intros ->; vm_compute in Hrem; congruence).
    assert (n / 1024 < 2 ^ 53) by (apply Z.div_lt_upper_bound; lia). lia. }
  destruct Hrows as [Hrows Hrmax].
  destruct (for_lanes_tidy th_id rows n
              (λ i, [ReadAt Arr i; WriteAt Smem i; WriteAt Scratch i]) [] Hth Hn)
    as (tr1 & Hrun1 & Ht1 & Hb1).
  { reflexivity. }
  { intros i Hi. repeat constructor; assumption. }
  { intros k e H. inversion H. }
  rewrite Hrun1, bind_Done.
  change (emit [Barrier] tr1) with (Done (tr1 ++ [Barrier])). rewrite bind_Done.
  destruct (tidy_barrier th_id rows tr1 Ht1) as [Ht2 Hb2].
  destruct (for_strides_inv
              (λ j t, tidy th_id rows t ∧ 0 ≤ j
                      ∧ Z.of_nat (barriers t) = 1 + j * (2 * rows + 1))
              (unit_round th_id n rows) n ltac:(lia))
    with (fuel := 64%nat) (k := 0) (s := tr1 ++ [Barrier])
    as (j & tr2 & Hrun2 & (Ht3 & Hj & Hb3) & _).
  - intros j t Hj _ (Ht & _ & Hbt).
    destruct (unit_round_tidy th_id n rows (2 ^ j) j t) as (t' & Hrun & Ht' & Hbt');
      try assumption.
    exists t'. split; [exact Hrun|]. split; [assumption|]. split; [lia | assumption].
  - lia.
  - simpl. lia.
  - split; [assumption|]. split; [lia|]. rewrite Hb2, Hb1. simpl. lia.
  - change (2 ^ 0) with 1 in Hrun2. rewrite Hrun2, bind_Done.
    destruct (for_lanes_tidy th_id rows n (λ i, [ReadAt Smem i; WriteAt Arr i]) tr2 Hth Hn)
      as (tr3 & Hrun3 & Ht4 & _); try assumption.
    { rewrite Hb3. apply gathering_start; assumption. }
    { intros i Hi. repeat constructor; assumption. }
    exists tr3. split; assumption.
Qed.

(** X6. [single_block_prefix_sum] has no data race inside the block:
    whatever the array length, two different threads never access the same
    cell of [arr], [smem] or [scratch] between the same two barriers
    unless both only read it. *)
Theorem single_block_race_free (n th1 th2 : Z) :
  0 ≤ n ≤ 2 ^ 63 → 0 ≤ th1 < 1024 → 0 ≤ th2 < 1024 → th1 ≠ th2 →
  ∃ tr1 tr2,
    unit_events th1 n = Done tr1 ∧ unit_events th2 n = Done tr2 ∧ race_free tr1 tr2.
Proof.
  intros Hn H1 H2 Hne.
  destruct (unit_events_tidy th1 n H1 Hn) as (tr1 & Hrun1 & Ht1).
  destruct (unit_events_tidy th2 n H2 Hn) as (tr2 & Hrun2 & Ht2).
  exists tr1, tr2. split; [exact Hrun1|]. split; [exact Hrun2|].
  intros k e1 e2 He1 He2 Hc.
  specialize (Ht1 k e1 He1). specialize (Ht2 k e2 He2). unfold tidy_at in Ht1, Ht2.
  destruct (gathering _ (Z.of_nat k)).
  - destruct e1, e2; simpl in *; contradiction.
  - destruct e1, e2; simpl in *; try contradiction; destruct Hc as [_ <-]; lia.
Qed.

Lemma single_block_race_free_witness :
  ∃ tr1 tr2,
    unit_events 0 1500 = Done tr1 ∧ unit_events 1 1500 = Done tr2 ∧ race_free tr1 tr2.
Proof. apply (single_block_race_free 1500 0 1); lia. Defined.

(** ** [finish_prefix_sum] *)

(** X7. [finish_prefix_sum], the threads in any order: the first group of
    1024 offsets is left alone, and every later [offsets[p]], [p < n],
    grows by [block_sums[p / 1024 - 1]], as an [int].  The total of the
    last group is never read: [block_sums] needs [num_blocks - 1] cells. *)
Theorem finish_prefix_sum_adds (σ : scheduler) (g : SparseGraph) (block_sums : list Z) (n : Z) :
  fair σ → 0 ≤ n ≤ 2 ^ 32 →
  Z.of_nat (length (neighbours_start_at g)) = n →
  num_blocks_for n ≤ Z.of_nat (length block_sums) + 1 →
  ∃ offs',
    launch σ (num_blocks_for n) (finish_prefix_sum block_sums n) g
    = Done (set_neighbours_start_at g offs')
    ∧ length offs' = length (neighbours_start_at g)
    ∧ ∀ p, 0 ≤ p < n →
        cell offs' p = if 1024 <=? p
                       then to_int (cell (neighbours_start_at g) p
                                    + cell block_sums (p `div` 1024 - 1))
                       else cell (neighbours_start_at g) p.
Proof.
  intros Hfair Hn Hlen Hbs.
  destruct (num_blocks_for_spec n Hn) as [HB0 HB].
  apply finish_prefix_sum_spec; try assumption; lia.
Qed.

Lemma finish_prefix_sum_adds_witness :
  ∃ offs',
    launch backwards (num_blocks_for 2049) (finish_prefix_sum [10; 20] 2049) wide_graph
    = Done (set_neighbours_start_at wide_graph offs')
    ∧ length offs' = length (neighbours_start_at wide_graph)
    ∧ ∀ p, 0 ≤ p < 2049 →
        cell offs' p = if 1024 <=? p
                       then to_int (cell (neighbours_start_at wide_graph) p
                                    + cell [10; 20] (p `div` 1024 - 1))
                       else cell (neighbours_start_at wide_graph) p.
Proof.
  apply (finish_prefix_sum_adds backwards wide_graph [10; 20] 2049);
    [ exact fair_backwards | lia
    | unfold wide_graph; cbn [neighbours_start_at]; rewrite length_replicate; lia
    | vm_compute; discriminate ].
Defined.

Lemma rd_Done_tag {A : Type} (b b' : buffer) (a : list A) (i : Z) (v : A) :
  rd b a i = Done v → rd b' a i = Done v.
Proof.
  unfold rd. destruct (0 <=? i); [|discriminate].
  destruct (a !! Z.to_nat i); [|discriminate]. intros H; exact H.
Qed.

Lemma wr_Done_tag {A : Type} (b b' : buffer) (a a' : list A) (i : Z) (v : A) :
  wr b a i v = Done a' → wr b' a i v = Done a'.
Proof.
  unfold wr. destruct ((0 <=? i) && (i <? Z.of_nat (length a))); [|discriminate].
  intros H; exact H.
Qed.

Lemma set_offsets_same (g : SparseGraph) : set_neighbours_start_at g (neighbours_start_at g) = g.
Proof. destruct g; reflexivity. Qed.

Lemma finish_prefix_sum_thread (bs : list Z) (n : Z) (th : thread) (g g' : SparseGraph) :
  finish_prefix_sum bs n th g = Done g'
  ↔ ∃ arr', finish_prefix_sum_array bs n th (neighbours_start_at g) = Done arr'
            ∧ g' = set_neighbours_start_at g arr'.
Proof.
  unfold finish_prefix_sum, finish_prefix_sum_array. cbv zeta.
  destruct ((global_id th <? n) && (0 <? th.1)).
  - destruct (rd BlockSums bs (th.1 - 1)) as [b| |]; rewrite ?bind_Done.
    + split.
      * intros H. apply bind_inv in H as (old & Hrd & H).
        apply bind_inv in H as (offs & Hwr & H). injection H as <-.
        exists offs. rewrite (rd_Done_tag Offsets Arr _ _ _ Hrd), bind_Done.
        split; [exact (wr_Done_tag Offsets Arr _ _ _ _ Hwr) | reflexivity].
      * intros (arr' & H & ->). apply bind_inv in H as (old & Hrd & Hwr).
        rewrite (rd_Done_tag Arr Offsets _ _ _ Hrd), bind_Done.
        rewrite (wr_Done_tag Arr Offsets _ _ _ _ Hwr). reflexivity.
    + split; [discriminate | intros (? & H & _); discriminate].
    + split; [discriminate | intros (? & H & _); discriminate].
  - split.
    + intros H. injection H as <-. exists (neighbours_start_at g).
      split; [reflexivity | symmetry; apply set_offsets_same].
    + intros (arr' & H & ->). injection H as <-. rewrite set_offsets_same. reflexivity.
Qed.

(** X8. The two overloads of [finish_prefix_sum] agree: a launch of the
    one on a [SparseGraph] returns exactly when the same launch of the one
    on a plain array returns on [g->neighbours_start_at], and it leaves
    in the offsets what that one leaves in the array, the rest of the
    graph untouched. *)
Theorem finish_prefix_sum_overloads (σ : scheduler) (num_blocks : Z) (block_sums : list Z)
    (n : Z) (g g' : SparseGraph) :
  launch σ num_blocks (finish_prefix_sum block_sums n) g = Done g'
  ↔ ∃ arr',
      launch σ num_blocks (finish_prefix_sum_array block_sums n) (neighbours_start_at g)
      = Done arr'
      ∧ g' = set_neighbours_start_at g arr'.
Proof.
  unfold launch. generalize (σ _ (grid_threads num_blocks)). intros l.
  revert g. induction l as [|th l IH]; intros g; cbn [for_each].
  - split.
    + intros H. injection H as <-. exists (neighbours_start_at g).
      split; [reflexivity | symmetry; apply set_offsets_same].
    + intros (arr' & H & ->). injection H as <-. rewrite set_offsets_same. reflexivity.
  - split.
    + intros H. apply bind_inv in H as (g1 & H1 & H).
      apply finish_prefix_sum_thread in H1 as (a1 & H1 & ->).
      apply IH in H as (arr' & H & ->). exists arr'.
      rewrite H1, bind_Done. split; [exact H | reflexivity].
    + intros (arr' & H & ->). apply bind_inv in H as (a1 & H1 & H).
      assert (Hg1 : finish_prefix_sum block_sums n th g = Done (set_neighbours_start_at g a1)).
      { apply finish_prefix_sum_thread. exists a1. split; [assumption | reflexivity]. }
      rewrite Hg1, bind_Done. apply IH. exists arr'. split; [exact H | reflexivity].
Qed.

(** ** [create_scratch] *)

Lemma cell_take_drop (a b : list Z) (n p : Z) :
  0 ≤ n ≤ Z.of_nat (length a) → 0 ≤ p →
  cell (take (Z.to_nat n) a ++ drop (Z.to_nat n) b) p = if p <? n then cell a p else cell b p.
Proof.
  intros Hn Hp. unfold cell. destruct (Z.ltb_spec p n).
  - rewrite lookup_app_l by (rewrite length_take; lia).
    rewrite lookup_take_lt by lia. reflexivity.
  - rewrite lookup_app_r by (rewrite length_take; lia).
    rewrite length_take, lookup_drop. do 2 f_equal. lia.
Qed.

(** X9. [create_scratch], the threads in any order, copies the first
    [g->n] offsets into [scratch] and nothing else: the last offset,
    [offsets[n]], is not copied, and what [scratch] holds from index
    [g->n] on stays. *)
Theorem create_scratch_copies (σ : scheduler) (g : SparseGraph) (scratch : list Z)
    (num_blocks : Z) :
  fair σ →
  0 ≤ sg_n g → sg_n g ≤ Z.of_nat (length (neighbours_start_at g)) →
  sg_n g ≤ Z.of_nat (length scratch) →
  sg_n g ≤ 1024 * num_blocks → 1024 * num_blocks ≤ 2 ^ 32 →
  launch σ num_blocks (create_scratch g) scratch
  = Done (take (Z.to_nat (sg_n g)) (neighbours_start_at g) ++ drop (Z.to_nat (sg_n g)) scratch).
Proof.
  intros Hfair Hn Hlo Hls HnB Hmax. unfold launch.
  destruct (fair_grid σ num_blocks Hfair) as [Hnd Hmem].
  destruct (for_each_cells (λ s, s) (λ _ a, a) ltac:(done) ltac:(done) ltac:(done)
              (create_scratch g) global_id
              (λ th, global_id th <? sg_n g)
              (λ th _, cell (neighbours_start_at g) (global_id th))
              (σ _ (grid_threads num_blocks)) scratch)
    as (scratch' & Hrun & Hlen & Hown & Hother).
  - intros th cur Hth Hcur. cbn beta in Hcur. apply Hmem in Hth.
    pose proof (global_id_grid num_blocks th Hmax Hth) as [_ Hgid]. unfold create_scratch.
    destruct (Z.ltb_spec (global_id th) (sg_n g)); [|reflexivity].
    rewrite rd_cell by lia. rewrite bind_Done, wr_in by lia. reflexivity.
  - intros th Hth Hact. apply Z.ltb_lt in Hact. cbn beta.
    apply Hmem in Hth. pose proof (global_id_grid num_blocks th Hmax Hth). lia.
  - apply (NoDup_global_ids num_blocks); [assumption | assumption | apply Hmem].
  - rewrite Hrun. f_equal. cbn beta in Hlen. apply cells_eq.
    + rewrite length_app, length_take, length_drop. lia.
    + intros v Hv. rewrite cell_take_drop by lia. destruct (Z.ltb_spec v (sg_n g)).
      * destruct (block_decompose v) as [Hdm Hm].
        assert (0 ≤ v `div` 1024) by (apply Z.div_pos; lia).
        assert (Hth : (v `div` 1024, v `mod` 1024) ∈ grid_threads num_blocks).
        { apply elem_of_grid_threads. simpl. lia. }
        pose proof (global_id_grid num_blocks _ Hmax Hth) as [Hgid _]. simpl in Hgid.
        rewrite <- Hdm in Hgid.
        specialize (Hown (v `div` 1024, v `mod` 1024)). rewrite Hgid in Hown.
        apply Hown; [apply Hmem; assumption | apply Z.ltb_lt; lia].
      * apply Hother; [lia|]. intros th Hth Hact Heq. apply Z.ltb_lt in Hact. lia.
Qed.

Lemma create_scratch_copies_witness :
  launch backwards 1 (create_scratch csr_graph) [9; 9; 9; 9; 9; 9]
  = Done (take (Z.to_nat (sg_n csr_graph)) (neighbours_start_at csr_graph)
          ++ drop (Z.to_nat (sg_n csr_graph)) [9; 9; 9; 9; 9; 9]).
Proof.
  apply (create_scratch_copies backwards csr_graph [9; 9; 9; 9; 9; 9] 1);
    [ exact fair_backwards | simpl; lia | simpl; lia | simpl; lia | simpl; lia | lia ].
Defined.

(** ** [store] *)

(** X10. [store] on offsets that are in place: with [offsets[p]] the number
    of edges whose source is below [p] and the counters a copy of the first
    [n] offsets, the launch, the threads in any order, returns; it leaves
    the offsets alone, the stretch of every vertex holds its destinations
    as a multiset, and the counter of every vertex has arrived at the next
    offset, [offsets[v + 1]]. *)
Theorem store_fills_segments (σ : scheduler) (g : SparseGraph) (edges : list edge_t)
    (scratch : list Z) (m n : Z) :
  fair σ →
  sg_n g = n → sg_m g = m → 0 ≤ n → m < 2 ^ 31 →
  Z.of_nat (length edges) = m → Forall (valid_edge n) edges →
  Z.of_nat (length (neighbours g)) = m → Z.of_nat (length scratch) = n →
  (∀ p, 0 ≤ p ≤ n → cell (neighbours_start_at g) p = edges_before edges p) →
  (∀ v, 0 ≤ v < n → cell scratch v = cell (neighbours_start_at g) v) →
  ∃ nb' scratch',
    launch σ (num_blocks_for m) (store edges) (g, scratch) = Done (set_neighbours g nb', scratch')
    ∧ length nb' = length (neighbours g)
    ∧ (∀ v, 0 ≤ v < n → cell scratch' v = cell (neighbours_start_at g) (v + 1))
    ∧ (∀ v, 0 ≤ v < n →
         segment nb' (cell (neighbours_start_at g) v) (cell (neighbours_start_at g) (v + 1))
         ≡ₚ destinations edges v).
Proof.
  intros Hfair Hgn Hgm Hn Hm Hle Hvalid Hlnb Hlsc Hoffs Hcnt.
  assert (Hm0 : 0 ≤ m) by lia.
  destruct (num_blocks_edges_spec m ltac:(lia)) as (HE0 & HE1 & HE2).
  pose proof (jobs_fair σ edges m (num_blocks_for m) Hfair Hle HE1 HE2) as Hperm.
  unfold launch. rewrite store_jobs by lia. rewrite Hgm.
  set (es := omap (job edges m) (σ _ (grid_threads (num_blocks_for m)))) in *.
  set (offs := neighbours_start_at g) in *.
  assert (H0 : 0 ≤ cell offs 0).
  { rewrite Hoffs by lia. pose proof (edges_before_bounds edges 0). lia. }
  assert (Hstep : ∀ v, 0 ≤ v < n → cell offs (v + 1) = cell offs v + out_degree edges v).
  { intros v Hv. rewrite !Hoffs by lia. apply edges_before_succ. }
  assert (Hend : cell offs n ≤ m).
  { rewrite Hoffs by lia. pose proof (edges_before_bounds edges n). lia. }
  destruct (store_edges_spec n m offs edges Hm H0 Hstep Hend es [] (neighbours g) scratch)
    as (nb' & cnt' & Hrun & Hst).
  { rewrite Hperm. assumption. }
  { intros v Hv. simpl. rewrite (out_degree_perm es edges v Hperm). lia. }
  { split; [assumption|]. split; [assumption|]. split.
    - intros v Hv. rewrite Hcnt by assumption. rewrite out_degree_nil. lia.
    - intros v k Hv Hk. rewrite out_degree_nil in Hk. lia. }
  destruct (store_edges_segments n m offs edges Hm H0 Hstep Hend es (neighbours g) scratch
              Hperm Hvalid Hlnb Hlsc Hcnt) as (nb2 & cnt2 & Hrun2 & Hlnb2 & Hseg).
  rewrite Hrun in Hrun2. injection Hrun2 as <- <-.
  rewrite Hrun, bind_Done. cbn [fst snd].
  exists nb', cnt'. split; [reflexivity|]. split; [lia|]. split.
  - intros v Hv. destruct Hst as (_ & _ & Hc & _). simpl in Hc.
    rewrite Hc, Hstep by assumption. rewrite (out_degree_perm es edges v Hperm). reflexivity.
  - intros v Hv. rewrite Hseg by assumption. apply destinations_perm. assumption.
Qed.

Lemma store_fills_segments_witness :
  ∃ nb' scratch',
    launch backwards (num_blocks_for 5) (store scenario_edges) (csr_graph, [0; 2; 3; 4])
    = Done (set_neighbours csr_graph nb', scratch')
    ∧ length nb' = length (neighbours csr_graph)
    ∧ (∀ v, 0 ≤ v < 4 → cell scratch' v = cell (neighbours_start_at csr_graph) (v + 1))
    ∧ (∀ v, 0 ≤ v < 4 →
         segment nb' (cell (neighbours_start_at csr_graph) v)
                 (cell (neighbours_start_at csr_graph) (v + 1))
         ≡ₚ destinations scenario_edges v).
Proof.
  apply (store_fills_segments backwards csr_graph scenario_edges [0; 2; 3; 4] 5 4);
    [ exact fair_backwards | reflexivity | reflexivity | lia | lia | reflexivity
    | repeat constructor; unfold is_int; simpl; lia
    | reflexivity | reflexivity
    | intros p Hp;
      assert (Hcases : p = 0 ∨ p = 1 ∨ p = 2 ∨ p = 3 ∨ p = 4) by lia;
      destruct Hcases as [-> | [-> | [-> | [-> | ->]]]]; reflexivity
    | intros v Hv;
      assert (Hcases : v = 0 ∨ v = 1 ∨ v = 2 ∨ v = 3) by lia;
      destruct Hcases as [-> | [-> | [-> | ->]]]; reflexivity ].
Defined.

(** ** [build_graph] *)

Lemma scanned_counts (n : Z) (edges : list edge_t) (entry h : list Z) :
  0 ≤ n → Z.of_nat (length entry) = n + 1 → Z.of_nat (length h) = n + 1 →
  Forall (valid_edge n) edges →
  cell h 0 = cell entry 0 →
  (∀ v, 0 ≤ v < n → cell h (v + 1) = to_int (cell entry (v + 1) + out_degree edges v)) →
  ∀ p, 0 ≤ p → p ≤ n →
    to_int (prefix_total h (p + 1)) = to_int (prefix_total entry (p + 1) + edges_before edges p).
Proof.
  intros Hn Hle Hlh Hvalid H0 Hh. refine (natlike_ind _ _ _).
  - intros _. rewrite !prefix_total_succ by lia. rewrite !prefix_total_nonpos by lia.
    rewrite (edges_before_0 n) by assumption. rewrite H0. f_equal. lia.
  - intros p Hp IH Hpn. replace (Z.succ p) with (p + 1) in * by lia.
    rewrite (prefix_total_succ h (p + 1)) by lia.
    rewrite (prefix_total_succ entry (p + 1)) by lia.
    rewrite Hh by lia. rewrite to_int_add_r, <- to_int_add_l, IH by lia.
    rewrite to_int_add_l, edges_before_succ. f_equal. lia.
Qed.

(** X11. The counts pile up on what the offsets hold: for every input
    within the stated preconditions, whatever the offsets hold on entry,
    [histogram] and the scan return and leave in every [offsets[p]],
    [p ≤ n], the sum of the entry contents of [offsets[0 .. p]] plus the
    number of edges whose source is below [p], as an [int]. *)
Theorem offsets_accumulate (σ : scheduler) (g : SparseGraph) (edges : list edge_t) (m n : Z) :
  fair σ → stated_preconditions g edges m n →
  ∃ g1 offs',
    launch σ (num_blocks_for m) (histogram edges m) g = Done g1
    ∧ scan_offsets σ g1 n = Done (set_neighbours_start_at g offs')
    ∧ length offs' = length (neighbours_start_at g)
    ∧ ∀ p, 0 ≤ p ≤ n →
        cell offs' p = to_int (prefix_total (neighbours_start_at g) (p + 1)
                               + edges_before edges p).
Proof.
  intros Hfair (Hgn & Hgm & Hlo & Hlnb & Hle & Hn & Hcap & Hm & Hint & Hvalid).
  unfold shared_capacity in Hcap.
  destruct (histogram_launch_spec σ g edges m Hfair Hgm Hle ltac:(lia))
    as (h & Hrun1 & Hlh & Hh0 & Hh); try (rewrite Hgn; lia).
  { intros p _. apply cell_is_int. assumption. }
  { eapply Forall_impl; [exact Hvalid|]. intros e. apply valid_edge_int. lia. }
  rewrite Hgn in Hh.
  destruct (scan_offsets_spec σ (set_neighbours_start_at g h) n Hfair Hn)
    as (offs' & Hrun2 & Hlo' & Hscan).
  { unfold shared_capacity. lia. }
  { simpl. lia. }
  { intros p Hp. simpl. destruct (decide (p = 0)) as [->|Hp0].
    - rewrite Hh0. apply cell_is_int. assumption.
    - replace p with (p - 1 + 1) by lia. rewrite Hh by lia. apply to_int_is_int. }
  simpl in Hlo', Hscan.
  exists (set_neighbours_start_at g h), offs'.
  split; [assumption|]. split; [exact Hrun2|]. split; [congruence|].
  intros p Hp. rewrite Hscan by assumption.
  apply (scanned_counts n edges (neighbours_start_at g) h); try assumption; lia.
Qed.

Lemma offsets_accumulate_witness :
  ∃ g1 offs',
    launch backwards (num_blocks_for 2) (histogram stale_edges 2) stale_graph = Done g1
    ∧ scan_offsets backwards g1 2 = Done (set_neighbours_start_at stale_graph offs')
    ∧ length offs' = length (neighbours_start_at stale_graph)
    ∧ ∀ p, 0 ≤ p ≤ 2 →
        cell offs' p = to_int (prefix_total (neighbours_start_at stale_graph) (p + 1)
                               + edges_before stale_edges p).
Proof.
  apply (offsets_accumulate backwards stale_graph stale_edges 2 2);
    [exact fair_backwards | exact stale_preconditions].
Defined.

Lemma concat_one_more {A : Type} (f : Z → list A) (x : Z) (a : A) (vs : list Z) :
  NoDup vs → x ∈ vs →
  concat ((λ v, if x =? v then a :: f v else f v) <$> vs) ≡ₚ a :: concat (f <$> vs).
Proof.
  induction vs as [|v vs IH]; intros Hnd Hx; [inversion Hx|].
  apply NoDup_cons in Hnd as [Hnot Hnd]. cbn [fmap list_fmap concat].
  destruct (Z.eqb_spec x v) as [<-|Hne].
  - cbn [app]. apply Permutation_refl'. do 3 f_equal. apply list_fmap_ext. intros i v Hv.
    destruct (Z.eqb_spec x v) as [<-|]; [|reflexivity].
    exfalso. apply Hnot. eapply list_elem_of_lookup_2. eassumption.
  - apply elem_of_cons in Hx as [->|Hx]; [contradiction|].
    rewrite IH by assumption. symmetry. apply Permutation_middle.
Qed.

(** The destinations, vertex by vertex, are the destinations of all the
    edges. *)
Lemma destinations_by_vertex (n : Z) (es : list edge_t) :
  0 ≤ n → Forall (valid_edge n) es →
  concat (destinations es <$> seqZ 0 n) ≡ₚ edge_y <$> es.
Proof.
  intros Hn. induction 1 as [|e es [He _] _ IH].
  - cbn. induction (seqZ 0 n) as [|v vs IHv]; [reflexivity | exact IHv].
  - rewrite fmap_cons, <- IH.
    rewrite <- (concat_one_more (destinations es) (edge_x e) (edge_y e));
      [|apply NoDup_seqZ | apply elem_of_seqZ; lia].
    apply Permutation_refl'. f_equal. apply list_fmap_ext. intros i v _.
    rewrite destinations_cons. destruct (Z.eqb_spec (edge_x e) v); reflexivity.
Qed.

(** The stretches follow one another from the start of the neighbours. *)
Lemma take_offsets (n : Z) (offs nb : list Z) (es : list edge_t) :
  cell offs 0 = 0 →
  (∀ v, 0 ≤ v < n → cell offs v ≤ cell offs (v + 1)) →
  (∀ v, 0 ≤ v < n → segment nb (cell offs v) (cell offs (v + 1)) = destinations es v) →
  ∀ p, 0 ≤ p → p ≤ n →
    0 ≤ cell offs p ∧ take (Z.to_nat (cell offs p)) nb = concat (destinations es <$> seqZ 0 p).
Proof.
  intros H0 Hmono Hseg. refine (natlike_ind _ _ _).
  - intros _. rewrite H0. split; [lia | reflexivity].
  - intros p Hp IH Hpn. destruct (IH ltac:(lia)) as [Hpos Htake].
    replace (Z.succ p) with (p + 1) by lia.
    pose proof (Hmono p ltac:(lia)) as Hle. split; [lia|].
    rewrite (seqZ_app 0 p 1) by lia. rewrite fmap_app, concat_app, <- Htake.
    rewrite (seqZ_cons _ 1), seqZ_nil by lia. cbn [fmap list_fmap concat].
    rewrite app_nil_r, Z.add_0_l, <- Hseg by lia. unfold segment.
    rewrite take_take_drop. f_equal. lia.
Qed.

(** X12. No edge is lost and none is made up: for every input within the
    stated preconditions whose offsets are all zero on entry, [build_graph]
    returns and the whole of [neighbours] is, as a multiset, the
    destinations of all the edges: nothing of what [neighbours] held on
    entry is left. *)
Theorem build_graph_keeps_every_edge (σ : scheduler) (g : SparseGraph) (edges : list edge_t)
    (m n : Z) :
  fair σ → stated_preconditions g edges m n → all_zero (neighbours_start_at g) →
  ∃ g', build_graph σ g edges m n = Done g' ∧ neighbours g' ≡ₚ edge_y <$> edges.
Proof.
  intros Hfair Hpre Hzero.
  destruct (build_graph_spec σ g edges m n Hfair Hpre Hzero)
    as (offs' & nb' & es & Hrun & Hlo & Hlnb & Hoffs & Hperm & Hseg).
  destruct Hpre as (_ & _ & _ & _ & Hle & Hn & _ & _ & _ & Hvalid).
  eexists. split; [exact Hrun|]. cbn [neighbours].
  destruct (take_offsets n offs' nb' es) with (p := n) as [_ Htake]; try assumption; try lia.
  - rewrite Hoffs by lia. apply (edges_before_0 n). assumption.
  - intros v Hv. rewrite !Hoffs by lia. apply edges_before_mono. lia.
  - rewrite Hoffs, (edges_before_all n) in Htake by (assumption || lia).
    rewrite take_ge in Htake by lia. rewrite Htake.
    rewrite destinations_by_vertex; [|assumption | rewrite Hperm; assumption].
    rewrite Hperm. reflexivity.
Qed.

Lemma build_graph_keeps_every_edge_witness :
  ∃ g', build_graph backwards scenario_graph scenario_edges 5 4 = Done g'
        ∧ neighbours g' ≡ₚ edge_y <$> scenario_edges.
Proof.
  apply (build_graph_keeps_every_edge backwards scenario_graph scenario_edges 5 4);
    [exact fair_backwards | exact scenario_preconditions | exact scenario_zero].
Defined.

Lemma edges_before_perm (es1 es2 : list edge_t) (p : Z) :
  es1 ≡ₚ es2 → edges_before es1 p = edges_before es2 p.
Proof. intros H. unfold edges_before. rewrite H. reflexivity. Qed.

Lemma stated_preconditions_perm (g : SparseGraph) (es1 es2 : list edge_t) (m n : Z) :
  es1 ≡ₚ es2 → stated_preconditions g es1 m n → stated_preconditions g es2 m n.
Proof.
  intros Hperm (Hgn & Hgm & Hlo & Hlnb & Hle & Hn & Hcap & Hm & Hint & Hvalid).
  repeat split; try assumption; try lia.
  - rewrite <- Hperm. assumption.
  - rewrite <- Hperm. assumption.
Qed.

(** X13. The order of the edge list does not matter: for every input
    within the stated preconditions whose offsets are all zero on entry,
    [build_graph] on the edges in any other order, the threads in any
    order, leaves the identical offsets, and in the stretch of every
    vertex the same multiset. *)
Theorem build_graph_edge_order (σ1 σ2 : scheduler) (g : SparseGraph)
    (edges1 edges2 : list edge_t) (m n : Z) :
  fair σ1 → fair σ2 → stated_preconditions g edges1 m n → all_zero (neighbours_start_at g) →
  edges1 ≡ₚ edges2 →
  ∃ g1 g2,
    build_graph σ1 g edges1 m n = Done g1 ∧ build_graph σ2 g edges2 m n = Done g2
    ∧ neighbours_start_at g1 = neighbours_start_at g2
    ∧ ∀ v, 0 ≤ v < n →
        segment (neighbours g1) (cell (neighbours_start_at g1) v)
                (cell (neighbours_start_at g1) (v + 1))
        ≡ₚ segment (neighbours g2) (cell (neighbours_start_at g2) v)
                   (cell (neighbours_start_at g2) (v + 1)).
Proof.
  intros Hf1 Hf2 Hpre Hzero Hperm.
  pose proof (stated_preconditions_perm g edges1 edges2 m n Hperm Hpre) as Hpre2.
  destruct (build_graph_spec σ1 g edges1 m n Hf1 Hpre Hzero)
    as (o1 & nb1 & es1 & Hrun1 & Hlo1 & _ & Ho1 & Hp1 & Hs1).
  destruct (build_graph_spec σ2 g edges2 m n Hf2 Hpre2 Hzero)
    as (o2 & nb2 & es2 & Hrun2 & Hlo2 & _ & Ho2 & Hp2 & Hs2).
  assert (o1 = o2) as ->.
  { apply cells_eq; [lia|]. intros p Hp. rewrite Ho1, Ho2 by lia.
    apply edges_before_perm. assumption. }
  eexists _, _. split; [exact Hrun1|]. split; [exact Hrun2|]. split; [reflexivity|].
  intros v Hv. cbn [neighbours neighbours_start_at]. rewrite Hs1, Hs2 by assumption.
  apply destinations_perm. rewrite Hp1, Hp2. assumption.
Qed.

Lemma build_graph_edge_order_witness :
  ∃ g1 g2,
    build_graph in_order scenario_graph scenario_edges 5 4 = Done g1
    ∧ build_graph backwards scenario_graph (reverse scenario_edges) 5 4 = Done g2
    ∧ neighbours_start_at g1 = neighbours_start_at g2
    ∧ ∀ v, 0 ≤ v < 4 →
        segment (neighbours g1) (cell (neighbours_start_at g1) v)
                (cell (neighbours_start_at g1) (v + 1))
        ≡ₚ segment (neighbours g2) (cell (neighbours_start_at g2) v)
                   (cell (neighbours_start_at g2) (v + 1)).
Proof.
  apply (build_graph_edge_order in_order backwards scenario_graph
           scenario_edges (reverse scenario_edges) 5 4);
    [ exact fair_in_order | exact fair_backwards | exact scenario_preconditions
    | exact scenario_zero | symmetry; apply reverse_Permutation ].
Defined.

Lemma scan_offsets_with_eq (σ : scheduler) (g : SparseGraph) (n : Z) (tmp_blk_sums : list Z) :
  fair σ →
  0 ≤ n → n + 1 ≤ 1024 * shared_capacity →
  Z.of_nat (length (neighbours_start_at g)) = n + 1 →
  (∀ p, 0 ≤ p ≤ n → is_int (cell (neighbours_start_at g) p)) →
  Z.of_nat (length tmp_blk_sums) = num_blocks_for (n + 1) →
  scan_offsets_with σ g n tmp_blk_sums = scan_offsets σ g n.
Proof.
  unfold shared_capacity. intros Hfair Hn Hcap Hlen Hint Hlb.
  unfold scan_offsets_with, scan_offsets.
  rewrite (to_size_t_id (n + 1)) by lia.
  set (N := n + 1) in *. set (B := num_blocks_for N) in *.
  destruct (num_blocks_for_spec N ltac:(lia)) as [HB0 HB]. fold B in HB0, HB.
  set (offs0 := neighbours_start_at g) in *.
  destruct (prefix_sum_launch_spec N B offs0 Hlen ltac:(lia) HB ltac:(lia)) with
    (σ := σ) (g := g) (bs := cudaMalloc B) as (o1 & bs1 & Hrun1 & Hlo1 & Hlb1 & Ho1 & Hbs1);
    [intros; apply Hint; lia | assumption | reflexivity | apply length_cudaMalloc; assumption |].
  destruct (prefix_sum_launch_spec N B offs0 Hlen ltac:(lia) HB ltac:(lia)) with
    (σ := σ) (g := g) (bs := tmp_blk_sums) as (o2 & bs2 & Hrun2 & Hlo2 & Hlb2 & Ho2 & Hbs2);
    [intros; apply Hint; lia | assumption | reflexivity | assumption |].
  pose proof (length_cudaMalloc B HB0) as HlB.
  assert (o2 = o1) as ->.
  { apply cells_eq; [congruence|]. intros p Hp. rewrite Ho1, Ho2 by lia. reflexivity. }
  assert (bs2 = bs1) as ->.
  { apply cells_eq; [lia|]. intros c Hc. rewrite Hbs1, Hbs2 by lia. reflexivity. }
  rewrite Hrun1, Hrun2. reflexivity.
Qed.

(** X14. What the two temporaries hold when [cudaMalloc] returns them
    never reaches a result: whatever their contents, [build_graph] ends as
    it does on zeroed temporaries, in the same graph or in the same
    fault.  ([prefix_sum] writes every group total before
    [single_block_prefix_sum] reads it, and [create_scratch] writes every
    counter before [store] reads it.) *)
Theorem build_graph_fresh_memory (σ : scheduler) (g : SparseGraph) (edges : list edge_t)
    (m n : Z) (tmp_blk_sums tmp_prefix_sums : list Z) :
  fair σ →
  sg_n g = n → sg_m g = m →
  Z.of_nat (length (neighbours_start_at g)) = n + 1 →
  Z.of_nat (length edges) = m →
  0 ≤ n → n + 1 ≤ 1024 * shared_capacity → m < 2 ^ 31 →
  Forall is_int (neighbours_start_at g) → Forall int_edge edges →
  Z.of_nat (length tmp_blk_sums) = num_blocks_for (n + 1) →
  Z.of_nat (length tmp_prefix_sums) = n →
  build_graph_with σ g edges m n tmp_blk_sums tmp_prefix_sums = build_graph σ g edges m n.
Proof.
  intros Hfair Hgn Hgm Hlo Hle Hn Hcap Hm Hint Hes Hlb Hls.
  pose proof Hcap as Hcap'. unfold shared_capacity in Hcap'.
  unfold build_graph_with, build_graph.
  assert (Hm0 : 0 ≤ m) by lia.
  destruct (histogram_launch_spec σ g edges m Hfair Hgm Hle ltac:(lia))
    as (h & Hrun1 & Hlh & Hh0 & Hh); try (rewrite Hgn; lia); try assumption.
  { intros p _. apply cell_is_int. assumption. }
  rewrite Hrun1, !bind_Done. rewrite Hgn in Hh.
  set (g1 := set_neighbours_start_at g h).
  assert (Hint1 : ∀ p, 0 ≤ p ≤ n → is_int (cell (neighbours_start_at g1) p)).
  { intros p Hp. unfold g1. simpl. destruct (decide (p = 0)) as [->|Hp0].
    - rewrite Hh0. apply cell_is_int. assumption.
    - replace p with (p - 1 + 1) by lia. rewrite Hh by lia. apply to_int_is_int. }
  rewrite scan_offsets_with_eq; try assumption; [|unfold g1; simpl; lia].
  destruct (scan_offsets_spec σ g1 n Hfair Hn Hcap) as (offs' & Hrun2 & Hlo' & _);
    [unfold g1; simpl; lia | assumption |].
  rewrite Hrun2, !bind_Done.
  set (g2 := set_neighbours_start_at g1 offs').
  destruct (num_blocks_for_spec (to_size_t (n + 1))) as [HB0 HB];
    [rewrite to_size_t_id by lia; lia|].
  rewrite to_size_t_id in HB0, HB |- * by lia.
  assert (Hn2 : sg_n g2 = n) by (unfold g2, g1; simpl; assumption).
  assert (Hl2 : Z.of_nat (length (neighbours_start_at g2)) = n + 1)
    by (unfold g2, g1 in *; simpl in *; lia).
  rewrite !create_scratch_copies; try assumption; rewrite ?Hn2, ?length_cudaMalloc; try lia.
  assert (Hdrop : ∀ a : list Z, Z.of_nat (length a) = n → drop (Z.to_nat n) a = []).
  { intros a Ha. apply drop_ge. lia. }
  rewrite (Hdrop tmp_prefix_sums Hls), (Hdrop (cudaMalloc n)) by (apply length_cudaMalloc; lia).
  reflexivity.
Qed.

Lemma build_graph_fresh_memory_witness :
  build_graph_with backwards scenario_graph scenario_edges 5 4 [7] [9; 9; 9; 9]
  = build_graph backwards scenario_graph scenario_edges 5 4.
Proof.
  apply (build_graph_fresh_memory backwards scenario_graph scenario_edges 5 4 [7] [9; 9; 9; 9]);
    [ exact fair_backwards | reflexivity | reflexivity | reflexivity | reflexivity | lia
    | unfold shared_capacity; lia | lia
    | repeat constructor; unfold is_int; lia
    | repeat constructor; unfold is_int; simpl; lia
    | reflexivity | reflexivity ].
Defined.

(** X15. A source that is not a vertex is not dropped: for every input of
    the stated sizes whose offsets are all zero on entry and whose edge
    list holds an edge with a source that is negative or not below [n],
    [build_graph], the threads in any order, runs into [store] indexing
    the counters out of range with that source. *)
Theorem build_graph_source_out_of_range (σ : scheduler) (g : SparseGraph)
    (edges : list edge_t) (m n : Z) :
  fair σ →
  sg_n g = n → sg_m g = m →
  Z.of_nat (length (neighbours_start_at g)) = n + 1 →
  Z.of_nat (length (neighbours g)) = m →
  Z.of_nat (length edges) = m →
  0 ≤ n → n + 1 ≤ 1024 * shared_capacity → m < 2 ^ 31 →
  all_zero (neighbours_start_at g) →
  Forall int_edge edges →
  Exists (λ e, ¬ 0 ≤ edge_x e < n) edges →
  build_graph σ g edges m n = OutOfBounds Counters.
Proof.
  intros Hfair Hgn Hgm Hlo Hlnb Hle Hn Hcap Hm Hzero Hint Hstray.
  apply build_graph_stray_source; try assumption.
  intros Hall. apply Exists_exists in Hstray as (e & He & Hout).
  rewrite Forall_forall in Hall. apply Hout. apply (Hall e He).
Qed.

Lemma build_graph_source_out_of_range_witness :
  build_graph backwards stray_graph stray_edges 2 2 = OutOfBounds Counters.
Proof.
  apply (build_graph_source_out_of_range backwards stray_graph stray_edges 2 2);
    [ exact fair_backwards | reflexivity | reflexivity | reflexivity | reflexivity
    | reflexivity | lia | unfold shared_capacity; lia | lia
    | repeat constructor
    | repeat constructor; unfold is_int; simpl; lia
    | right; left; simpl; lia ].
Defined.

Lemma Forall_cells (P : Z → Prop) (a : list Z) :
  (∀ p, 0 ≤ p < Z.of_nat (length a) → P (cell a p)) → Forall P a.
Proof.
  intros H. apply Forall_lookup. intros i x Hi.
  pose proof (lookup_lt_Some _ _ _ Hi).
  specialize (H (Z.of_nat i) ltac:(lia)). unfold cell in H.
  rewrite Nat2Z.id, Hi in H. exact H.
Qed.

Lemma prefix_total_bounds (a : list Z) (hi : Z) :
  (∀ p, 0 ≤ p < Z.of_nat (length a) → 0 ≤ cell a p ≤ hi) →
  ∀ k, 0 ≤ k → k ≤ Z.of_nat (length a) → 0 ≤ prefix_total a k ≤ k * hi.
Proof.
  intros Ha. refine (natlike_ind _ _ _).
  - intros _. rewrite prefix_total_nonpos by lia. lia.
  - intros k Hk IH Hlen. replace (Z.succ k) with (k + 1) by lia.
    rewrite prefix_total_succ by lia. specialize (IH ltac:(lia)).
    specialize (Ha k ltac:(lia)). nia.
Qed.

(** The offsets [build_graph] leaves, whatever they held on entry. *)
Lemma build_graph_offsets_closed (σ : scheduler) (g : SparseGraph) (edges : list edge_t)
    (m n : Z) (g' : SparseGraph) :
  fair σ → stated_preconditions g edges m n →
  build_graph σ g edges m n = Done g' →
  ∀ p, 0 ≤ p ≤ n →
    cell (neighbours_start_at g') p
    = to_int (prefix_total (neighbours_start_at g) (p + 1) + edges_before edges p).
Proof.
  intros Hfair Hpre Hrun p Hp.
  rewrite (build_graph_offsets_fixed σ g edges m n g' Hfair Hpre Hrun).
  destruct Hpre as (Hgn & Hgm & Hlo & Hlnb & Hle & Hn & Hcap & Hm & Hint & Hvalid).
  set (h := histogram_result g edges).
  assert (Hlh : Z.of_nat (length h) = n + 1).
  { unfold h, histogram_result. simpl. rewrite length_fmap, length_seqZ. lia. }
  unfold scan_result. rewrite cell_fmap_seqZ by lia.
  apply (scanned_counts n edges (neighbours_start_at g) h); try assumption; try lia.
  - unfold h, histogram_result. apply cell_cons_0.
  - intros v Hv. unfold h, histogram_result. rewrite cell_cons_succ by lia.
    rewrite cell_fmap_seqZ by lia. reflexivity.
Qed.

(** X16. [build_graph] cannot be run again on the graph it has built: for
    every input within the stated preconditions whose offsets are all zero
    on entry, with at least one edge (and [(n + 2) * m] an [int]), the first
    run leaves valid offsets, and a second run on its result and the same
    edges never does: when it returns, rather than writing outside the
    neighbours, [offsets[n]] is the sum of all the first offsets plus [m],
    which is at least [2 * m]. *)
Theorem build_graph_second_run (σ1 σ2 : scheduler) (g : SparseGraph) (edges : list edge_t)
    (m n : Z) :
  fair σ1 → fair σ2 → stated_preconditions g edges m n → all_zero (neighbours_start_at g) →
  1 ≤ m → (n + 2) * m < 2 ^ 31 →
  ∃ g1,
    build_graph σ1 g edges m n = Done g1
    ∧ csr_offsets n m g1
    ∧ ∀ g2, build_graph σ2 g1 edges m n = Done g2 →
        cell (neighbours_start_at g2) n = prefix_total (neighbours_start_at g1) (n + 1) + m
        ∧ 2 * m ≤ cell (neighbours_start_at g2) n
        ∧ ¬ csr_offsets n m g2.
Proof.
  intros Hf1 Hf2 Hpre Hzero Hm1 Hsmall.
  destruct (build_graph_spec σ1 g edges m n Hf1 Hpre Hzero)
    as (o1 & nb1 & es1 & Hrun1 & Hlo1 & Hlnb1 & Ho1 & _ & _).
  destruct Hpre as (Hgn & Hgm & Hlo & Hlnb & Hle & Hn & Hcap & Hm & Hint & Hvalid).
  assert (Hrange : ∀ p, 0 ≤ p < Z.of_nat (length o1) → 0 ≤ cell o1 p ≤ m).
  { intros p Hp. rewrite Ho1 by lia. pose proof (edges_before_bounds edges p). lia. }
  exists (mkSparseGraph n m o1 nb1). split; [exact Hrun1|]. split.
  { unfold csr_offsets. cbn [neighbours_start_at]. rewrite !Ho1 by lia.
    split; [apply (edges_before_0 n); assumption|].
    split; [rewrite (edges_before_all n) by assumption; lia|].
    intros i Hi. rewrite !Ho1 by lia. apply edges_before_mono. lia. }
  intros g2 Hrun2.
  assert (Hpre1 : stated_preconditions (mkSparseGraph n m o1 nb1) edges m n).
  { repeat split; simpl; try assumption; try lia.
    apply Forall_cells. intros p Hp. specialize (Hrange p Hp). unfold is_int. lia. }
  assert (Hlast : cell (neighbours_start_at g2) n = prefix_total o1 (n + 1) + m
                  ∧ 2 * m ≤ cell (neighbours_start_at g2) n).
  { rewrite (build_graph_offsets_closed σ2 _ edges m n g2 Hf2 Hpre1 Hrun2) by lia.
    cbn [neighbours_start_at]. rewrite (edges_before_all n) by assumption. rewrite Hle.
    pose proof (prefix_total_bounds o1 m Hrange (n + 1) ltac:(lia) ltac:(lia)) as Htot.
    pose proof (prefix_total_bounds o1 m Hrange n ltac:(lia) ltac:(lia)) as Htot'.
    pose proof (prefix_total_succ o1 n ltac:(lia)) as Hsucc.
    rewrite Ho1, (edges_before_all n), Hle in Hsucc by (assumption || lia).
    rewrite to_int_id by (unfold is_int; nia). lia. }
  cbn [neighbours_start_at]. destruct Hlast as [Hsum Hbig].
  split; [exact Hsum|]. split; [exact Hbig|].
  intros (_ & Hend & _). lia.
Qed.

Lemma build_graph_second_run_witness :
  ∃ g1,
    build_graph in_order stray_graph twin_edges 2 2 = Done g1
    ∧ csr_offsets 2 2 g1
    ∧ ∀ g2, build_graph backwards g1 twin_edges 2 2 = Done g2 →
        cell (neighbours_start_at g2) 2 = prefix_total (neighbours_start_at g1) (2 + 1) + 2
        ∧ 2 * 2 ≤ cell (neighbours_start_at g2) 2
        ∧ ¬ csr_offsets 2 2 g2.
Proof.
  apply (build_graph_second_run in_order backwards stray_graph twin_edges 2 2);
    [ exact fair_in_order | exact fair_backwards
    | unfold stated_preconditions, shared_capacity; simpl;
      repeat split; try lia; repeat constructor; unfold is_int; simpl; lia
    | repeat constructor | lia | lia ].
Defined.

(** Two runs in a row: on the two edges that leave vertex 0 the second run
    returns, with offsets that end at 6; on the scenario it writes past the
    end of the neighbours. *)
Example twin_run_twice :
  (g1 ← build_graph in_order stray_graph twin_edges 2 2;
   g2 ← build_graph in_order g1 twin_edges 2 2;
   Done (neighbours_start_at g1, neighbours_start_at g2))
  = Done ([0; 2; 2], [0; 4; 6]).
Proof. vm_compute. reflexivity. Qed.

Example scenario_run_twice :
  (g1 ← build_graph in_order scenario_graph scenario_edges 5 4;
   build_graph in_order g1 scenario_edges 5 4)
  = OutOfBounds Neighbours.
Proof. vm_compute. reflexivity. Qed.

(** *** The sizes *)

Lemma for_each_keeps {A St : Type} (I : St → Prop) (l : list A) (body : A → St → outcome St) :
  (∀ a s s', I s → body a s = Done s' → I s') →
  ∀ s s', I s → for_each l body s = Done s' → I s'.
Proof.
  intros Hbody. induction l as [|a l IH]; intros s s' Hs Hrun; cbn [for_each] in Hrun.
  - injection Hrun as <-. assumption.
  - apply bind_inv in Hrun as (s1 & Hrun1 & Hrun). eauto.
Qed.

Lemma wr_length {A : Type} (b : buffer) (a a' : list A) (i : Z) (v : A) :
  wr b a i v = Done a' → length a' = length a.
Proof.
  unfold wr. destruct ((0 <=? i) && (i <? Z.of_nat (length a))); [|discriminate].
  intros H. injection H as <-. apply length_insert.
Qed.

Lemma atomicAdd_length (b : buffer) (a : list Z) (i val : Z) (r : Z * list Z) :
  atomicAdd b a i val = Done r → length r.2 = length a.
Proof.
  unfold atomicAdd. intros H. apply bind_inv in H as (old & _ & H).
  apply bind_inv in H as (a' & Hwr & H). injection H as <-. simpl.
  eapply wr_length. eassumption.
Qed.

Lemma same_shape_refl (g : SparseGraph) : same_shape g g.
Proof. repeat split. Qed.

Lemma same_shape_trans (g1 g2 g3 : SparseGraph) :
  same_shape g1 g2 → same_shape g2 g3 → same_shape g1 g3.
Proof. unfold same_shape. intros (? & ? & ? & ?) (? & ? & ? & ?). repeat split; congruence. Qed.

Lemma histogram_shape (arr : list edge_t) (m : Z) (th : thread) (g g' : SparseGraph) :
  histogram arr m th g = Done g' → same_shape g g'.
Proof.
  unfold histogram. cbv zeta. destruct (global_id th <? sg_m g).
  - intros H. apply bind_inv in H as (e & _ & H).
    destruct (to_size_t (edge_x e) <? sg_n g).
    + apply bind_inv in H as (r & Hadd & H). injection H as <-.
      apply atomicAdd_length in Hadd. repeat split; simpl; assumption.
    + injection H as <-. apply same_shape_refl.
  - intros H. injection H as <-. apply same_shape_refl.
Qed.

Lemma prefix_sum_shape (n b : Z) (st st' : SparseGraph * list Z) :
  prefix_sum n b st = Done st' → same_shape st.1 st'.1.
Proof.
  unfold prefix_sum. cbv zeta. intros H.
  apply bind_inv in H as (smem0 & _ & H). apply bind_inv in H as (smem & _ & H).
  apply bind_inv in H as (offs & Hoffs & H). apply bind_inv in H as (bs & _ & H).
  injection H as <-. simpl.
  assert (length offs = length (neighbours_start_at st.1)).
  { revert Hoffs. apply (for_each_keeps (λ o, length o = length (neighbours_start_at st.1)));
      [|reflexivity].
    intros th o o' Ho Hstep. destruct (global_id (b, th) <? n).
    - apply bind_inv in Hstep as (v & _ & Hwr). apply wr_length in Hwr. congruence.
    - injection Hstep as <-. assumption. }
  repeat split; simpl; assumption.
Qed.

Lemma finish_prefix_sum_shape (bs : list Z) (n : Z) (th : thread) (g g' : SparseGraph) :
  finish_prefix_sum bs n th g = Done g' → same_shape g g'.
Proof.
  unfold finish_prefix_sum. cbv zeta. destruct ((global_id th <? n) && (0 <? th.1)).
  - intros H. apply bind_inv in H as (b & _ & H). apply bind_inv in H as (old & _ & H).
    apply bind_inv in H as (offs & Hwr & H). injection H as <-.
    apply wr_length in Hwr. repeat split; simpl; assumption.
  - intros H. injection H as <-. apply same_shape_refl.
Qed.

Lemma store_shape (edges : list edge_t) (th : thread) (st st' : SparseGraph * list Z) :
  store edges th st = Done st' → same_shape st.1 st'.1.
Proof.
  unfold store. cbv zeta. destruct (global_id th <? sg_m st.1).
  - intros H. apply bind_inv in H as (e & _ & H). apply bind_inv in H as (r & _ & H).
    apply bind_inv in H as (nb & Hwr & H). injection H as <-.
    apply wr_length in Hwr. repeat split; simpl; assumption.
  - intros H. injection H as <-. apply same_shape_refl.
Qed.

Lemma scan_offsets_shape (σ : scheduler) (g g' : SparseGraph) (n : Z) :
  scan_offsets σ g n = Done g' → same_shape g g'.
Proof.
  unfold scan_offsets, launch_blocks, launch. cbv zeta. intros H.
  apply bind_inv in H as (st & Hst & H). apply bind_inv in H as (bs & _ & H).
  apply (same_shape_trans g st.1).
  - revert Hst. change g with ((g, cudaMalloc (num_blocks_for (to_size_t (n + 1)))).1) at 2.
    apply (for_each_keeps (λ s, same_shape g s.1)); [|apply same_shape_refl].
    intros b s s' Hs Hstep. apply prefix_sum_shape in Hstep.
    eapply same_shape_trans; eassumption.
  - revert H. apply (for_each_keeps (λ s, same_shape st.1 s)); [|apply same_shape_refl].
    intros th s s' Hs Hstep. apply finish_prefix_sum_shape in Hstep.
    eapply same_shape_trans; eassumption.
Qed.

(** X17. [build_graph] keeps the sizes of the graph: on any input at all,
    under any order of the threads, a run that returns leaves [n] and [m]
    as they were and both arrays at the lengths they had. *)
Theorem build_graph_same_shape (σ : scheduler) (g : SparseGraph) (edges : list edge_t)
    (m n : Z) (g' : SparseGraph) :
  build_graph σ g edges m n = Done g' → same_shape g g'.
Proof.
  unfold build_graph, launch. cbv zeta. intros H.
  apply bind_inv in H as (g1 & H1 & H). apply bind_inv in H as (g2 & H2 & H).
  apply bind_inv in H as (cnt & _ & H). apply bind_inv in H as (st & H3 & H).
  injection H as <-.
  apply (same_shape_trans g g1).
  { revert H1. apply (for_each_keeps (λ s, same_shape g s)); [|apply same_shape_refl].
    intros th s s' Hs Hstep. apply histogram_shape in Hstep.
    eapply same_shape_trans; eassumption. }
  apply (same_shape_trans g1 g2); [eapply scan_offsets_shape; eassumption|].
  revert H3. change g2 with ((g2, cnt).1) at 2.
  apply (for_each_keeps (λ s, same_shape g2 s.1)); [|apply same_shape_refl].
  intros th s s' Hs Hstep. apply store_shape in Hstep.
  eapply same_shape_trans; eassumption.
Qed.

Lemma build_graph_same_shape_witness :
  same_shape stale_graph (mkSparseGraph 2 2 [0; 1; 1] [9; 7]).
Proof.
  apply (build_graph_same_shape backwards stale_graph stale_edges 2 2).
  vm_compute. reflexivity.
Defined.
